(** * The utilities of insight-42-js-utils

    A shallow embedding of the functions of src/index.js that compute on
    values, text, [localStorage] and timers, and of the [CacheManager]
    class that the repository's documentation builds from
    [setStorageWithExpiry] and [getStorageWithExpiry], together with the
    part of the JavaScript platform they run on: JSON text,
    [localStorage], the clock behind [new Date()], promise settlement,
    [setTimeout], and the methods of strings, arrays and objects they
    call.

    Conventions of the model.
    - JavaScript values are the inductive [JsVal].  Numbers are exact
      decimals: [JNum z] is the integer [z], [JDec m e] is [m / 10^e];
      rounding to doubles, [NaN] and the infinities as stored values are
      outside the model, and a number prints in plain decimal notation.
      Where the code's arithmetic is exact only among the safe integers,
      the theorem says so ([exact_expiry]).
      Instants are whole milliseconds, a TTL is a whole number of hours,
      and lengths, limits, delays and counts are whole numbers.
    - Text is a byte string: a code unit above 127 written as a [\u]
      escape is kept as its UTF-8 bytes, and white space is ASCII white
      space.  On ASCII text a character is a code unit; where a result
      depends on how the characters above 127 are counted, case-mapped or
      classified, the theorem is stated for ASCII text.
    - A computation is a function from the state of the page to a
      completion (normal or thrown) and a new state.  The state records
      the calls made on [localStorage] and on the fetch function, so that
      what a function does can be told apart from what it returns.
    - A function received as an argument works on a state of its own and
      does not call the function it was given to. *)

From Stdlib Require Import ZArith NArith String Ascii List Bool Lia.
From Stdlib Require Import DecimalFacts DecimalN DecimalPos.
From stdpp Require Import gmap strings.

Import ListNotations.
Local Open Scope Z_scope.
Local Open Scope list_scope.

(* ================================================================== *)
(** * JavaScript values *)

Unset Elimination Schemes.
Inductive JsVal : Type :=
| JUndefined
| JNull
| JBool (b : bool)
| JNum (z : Z)
| JDec (m : Z) (e : positive)
| JStr (s : string)
| JArr (items : list JsVal)
| JObj (props : list (string * JsVal)).
Set Elimination Schemes.

(** Induction over values, with the hypothesis available for every item
    of an array and every property value of an object. *)
Section JsVal_induction.
Variable P : JsVal -> Prop.
Hypothesis P_undefined : P JUndefined.
Hypothesis P_null : P JNull.
Hypothesis P_bool : forall b, P (JBool b).
Hypothesis P_num : forall z, P (JNum z).
Hypothesis P_dec : forall m e, P (JDec m e).
Hypothesis P_str : forall s, P (JStr s).
Hypothesis P_arr : forall items, Forall P items -> P (JArr items).
Hypothesis P_obj :
  forall props, Forall (fun kv => P (snd kv)) props -> P (JObj props).

Fixpoint JsVal_ind (v : JsVal) : P v :=
  match v with
  | JUndefined => P_undefined
  | JNull => P_null
  | JBool b => P_bool b
  | JNum z => P_num z
  | JDec m e => P_dec m e
  | JStr s => P_str s
  | JArr items =>
      P_arr items
        ((fix all (l : list JsVal) : Forall P l :=
            match l with
            | [] => @List.Forall_nil _ P
            | x :: r => @List.Forall_cons _ P x r (JsVal_ind x) (all r)
            end) items)
  | JObj props =>
      P_obj props
        ((fix all (l : list (string * JsVal)) : Forall (fun kv => P (snd kv)) l :=
            match l with
            | [] => @List.Forall_nil _ _
            | kv :: r =>
                @List.Forall_cons _ (fun kv => P (snd kv)) kv r
                  (JsVal_ind (snd kv)) (all r)
            end) props)
  end.
End JsVal_induction.

(** Thrown values: the platform's errors and whatever caller code throws
    or rejects with. *)
Inductive Exn : Type :=
| SyntaxError
| TypeError
| QuotaExceededError
| UserError (reason : JsVal).

Inductive Completion (A : Type) : Type :=
| Normal (a : A)
| Throw (e : Exn).
Arguments Normal {A} a.
Arguments Throw {A} e.

(** [obj.name] for a value produced by [JSON.parse]: reading a property of
    [null] or [undefined] throws, a primitive or an array has neither a
    [value] nor an [expiry] property of its own, an object is looked up by
    key. *)
Fixpoint lookup_prop (name : string) (props : list (string * JsVal)) : JsVal :=
  match props with
  | [] => JUndefined
  | (k, v) :: rest => if String.eqb k name then v else lookup_prop name rest
  end.

Definition get_prop (obj : JsVal) (name : string) : Completion JsVal :=
  match obj with
  | JUndefined | JNull => Throw TypeError
  | JObj props => Normal (lookup_prop name props)
  | _ => Normal JUndefined
  end.

(** [ToBoolean]: the falsy values are [undefined], [null], [false], zero
    and the empty string. *)
Definition ToBoolean (v : JsVal) : bool :=
  match v with
  | JUndefined | JNull => false
  | JBool b => b
  | JNum z => negb (z =? 0)
  | JDec m _ => negb (m =? 0)
  | JStr s => negb (String.eqb s EmptyString)
  | JArr _ | JObj _ => true
  end.

(* ================================================================== *)
(** * JSON text *)

Module JSON.

Definition text := list ascii.

Definition chars (s : string) : text := list_ascii_of_string s.

Definition dquote : ascii := "034"%char.
Definition backslash : ascii := "092"%char.

(** ** Numbers in decimal *)

Fixpoint uint_text (u : Decimal.uint) : text :=
  match u with
  | Decimal.Nil => []
  | Decimal.D0 r => "0"%char :: uint_text r
  | Decimal.D1 r => "1"%char :: uint_text r
  | Decimal.D2 r => "2"%char :: uint_text r
  | Decimal.D3 r => "3"%char :: uint_text r
  | Decimal.D4 r => "4"%char :: uint_text r
  | Decimal.D5 r => "5"%char :: uint_text r
  | Decimal.D6 r => "6"%char :: uint_text r
  | Decimal.D7 r => "7"%char :: uint_text r
  | Decimal.D8 r => "8"%char :: uint_text r
  | Decimal.D9 r => "9"%char :: uint_text r
  end.

Definition digit_of (c : ascii) : option (Decimal.uint -> Decimal.uint) :=
  match c with
  | "0"%char => Some Decimal.D0
  | "1"%char => Some Decimal.D1
  | "2"%char => Some Decimal.D2
  | "3"%char => Some Decimal.D3
  | "4"%char => Some Decimal.D4
  | "5"%char => Some Decimal.D5
  | "6"%char => Some Decimal.D6
  | "7"%char => Some Decimal.D7
  | "8"%char => Some Decimal.D8
  | "9"%char => Some Decimal.D9
  | _ => None
  end.

Definition is_digit (c : ascii) : bool :=
  match digit_of c with Some _ => true | None => false end.

(** The longest run of decimal digits at the head of the input. *)
Fixpoint scan_digits (s : text) : Decimal.uint * text :=
  match s with
  | [] => (Decimal.Nil, [])
  | c :: r =>
      match digit_of c with
      | Some d => let '(u, r') := scan_digits r in (d u, r')
      | None => (Decimal.Nil, s)
      end
  end.

Definition nat_text (n : N) : text := uint_text (N.to_uint n).

Definition int_text (z : Z) : text :=
  if z <? 0 then "-"%char :: nat_text (Z.abs_N z) else nat_text (Z.abs_N z).

(** [m / 10^e] with [e] digits after the point: the digits of [m], with
    zeros in front until one digit is left before the point. *)
Definition dec_text (m : Z) (e : positive) : text :=
  let k := Pos.to_nat e in
  let u := N.to_uint (Z.abs_N m) in
  let padded := Nat.iter (S k - Decimal.nb_digits u) Decimal.D0 u in
  (if m <? 0 then ["-"%char] else [])
    ++ uint_text (Decimal.del_tail k padded)
    ++ "."%char :: uint_text (Decimal.del_head (Decimal.nb_digits padded - k) padded).

(** ** Strings *)

Definition hex_char (n : N) : ascii :=
  if (n <? 10)%N then ascii_of_N (48 + n) else ascii_of_N (87 + n).

Definition quote_char (c : ascii) : text :=
  let n := N_of_ascii c in
  if Ascii.eqb c dquote then [backslash; dquote]
  else if Ascii.eqb c backslash then [backslash; backslash]
  else if (n =? 8)%N then [backslash; "b"%char]
  else if (n =? 9)%N then [backslash; "t"%char]
  else if (n =? 10)%N then [backslash; "n"%char]
  else if (n =? 12)%N then [backslash; "f"%char]
  else if (n =? 13)%N then [backslash; "r"%char]
  else if (n <? 32)%N then
    [backslash; "u"%char; "0"%char; "0"%char; hex_char (n / 16); hex_char (n mod 16)]
  else [c].

Definition quote (s : string) : text :=
  dquote :: flat_map quote_char (chars s) ++ [dquote].

Definition hex_val (c : ascii) : option N :=
  let n := N_of_ascii c in
  if ((48 <=? n) && (n <=? 57))%N then Some (n - 48)%N
  else if ((97 <=? n) && (n <=? 102))%N then Some (n - 87)%N
  else if ((65 <=? n) && (n <=? 70))%N then Some (n - 55)%N
  else None.

(** The code unit of a [\uXXXX] escape as UTF-8 bytes. *)
Definition utf8 (n : N) : text :=
  if (n <? 128)%N then [ascii_of_N n]
  else if (n <? 2048)%N then
    [ascii_of_N (192 + n / 64); ascii_of_N (128 + n mod 64)]
  else
    [ascii_of_N (224 + n / 4096); ascii_of_N (128 + (n / 64) mod 64);
     ascii_of_N (128 + n mod 64)].

Definition unescape (c : ascii) : option ascii :=
  match c with
  | "b"%char => Some "008"%char
  | "t"%char => Some "009"%char
  | "n"%char => Some "010"%char
  | "f"%char => Some "012"%char
  | "r"%char => Some "013"%char
  | "/"%char => Some "/"%char
  | _ => if Ascii.eqb c dquote then Some dquote
         else if Ascii.eqb c backslash then Some backslash
         else None
  end.

(** The characters of a string literal after its opening quote, up to and
    including the closing quote. *)
Fixpoint parse_chars (s : text) : option (text * text) :=
  match s with
  | [] => None
  | c :: r =>
      if Ascii.eqb c dquote then Some ([], r)
      else if Ascii.eqb c backslash then
        match r with
        | "u"%char :: h1 :: h2 :: h3 :: h4 :: r' =>
            match hex_val h1, hex_val h2, hex_val h3, hex_val h4 with
            | Some a, Some b, Some c', Some d =>
                match parse_chars r' with
                | Some (body, rest) =>
                    Some (utf8 (((a * 16 + b) * 16 + c') * 16 + d)%N ++ body, rest)
                | None => None
                end
            | _, _, _, _ => None
            end
        | e :: r' =>
            match unescape e with
            | Some c' =>
                match parse_chars r' with
                | Some (body, rest) => Some (c' :: body, rest)
                | None => None
                end
            | None => None
            end
        | [] => None
        end
      else if (N_of_ascii c <? 32)%N then None
      else
        match parse_chars r with
        | Some (body, rest) => Some (c :: body, rest)
        | None => None
        end
  end.

(** ** Number literals

    [-? int frac? exp?] with [int] free of leading zeros.  The digits of
    the integer and fraction parts give the mantissa, the exponent is
    corrected by the number of fraction digits. *)

Definition sign_apply (neg : bool) (n : N) : Z :=
  if neg then - Z.of_N n else Z.of_N n.

(** [m * 10^(-k)] in lowest decimal terms. *)
Fixpoint reduce (k : nat) (m : Z) : JsVal :=
  match k with
  | O => JNum m
  | S k' => if m mod 10 =? 0 then reduce k' (m / 10) else JDec m (Pos.of_nat k)
  end.

Definition scale (m : Z) (x : Z) : JsVal :=
  if 0 <=? x then JNum (m * 10 ^ x) else reduce (Z.to_nat (- x)) m.

Definition leading_zero (u : Decimal.uint) : bool :=
  match u with
  | Decimal.D0 Decimal.Nil => false
  | Decimal.D0 _ => true
  | _ => false
  end.

Definition parse_frac (s : text) : option (Decimal.uint * text) :=
  match s with
  | "."%char :: r =>
      match scan_digits r with
      | (Decimal.Nil, _) => None
      | (u, r') => Some (u, r')
      end
  | _ => Some (Decimal.Nil, s)
  end.

Definition parse_exp (s : text) : option (Z * text) :=
  let digits (neg : bool) (r : text) :=
    match scan_digits r with
    | (Decimal.Nil, _) => None
    | (u, r') => Some (sign_apply neg (N.of_uint u), r')
    end in
  match s with
  | c :: r =>
      if Ascii.eqb c "e"%char || Ascii.eqb c "E"%char then
        match r with
        | "+"%char :: r' => digits false r'
        | "-"%char :: r' => digits true r'
        | _ => digits false r
        end
      else Some (0, s)
  | [] => Some (0, s)
  end.

Definition parse_unsigned (neg : bool) (s : text) : option (JsVal * text) :=
  match scan_digits s with
  | (Decimal.Nil, _) => None
  | (ui, s2) =>
      if leading_zero ui then None
      else
        match parse_frac s2 with
        | None => None
        | Some (uf, s3) =>
            match parse_exp s3 with
            | None => None
            | Some (x, s4) =>
                let m := sign_apply neg (N.of_uint (Decimal.app ui uf)) in
                Some (scale m (x - Z.of_nat (Decimal.nb_digits uf)), s4)
            end
        end
  end.

Definition parse_number (s : text) : option (JsVal * text) :=
  match s with
  | "-"%char :: r => parse_unsigned true r
  | _ => parse_unsigned false s
  end.

(** ** Objects

    [JSON.parse] defines the members of an object one after the other: a
    repeated key keeps its place and takes the later value, a key that is
    an array index goes among the other indices in ascending order and
    ahead of every other key, any other key goes last. *)

Definition array_index (k : string) : option N :=
  match scan_digits (chars k) with
  | (Decimal.Nil, _) => None
  | (u, []) =>
      let n := N.of_uint u in
      if leading_zero u then None
      else if (n <? 4294967295)%N then Some n else None
  | _ => None
  end.

Fixpoint has_key (k : string) (props : list (string * JsVal)) : bool :=
  match props with
  | [] => false
  | (k', _) :: rest => String.eqb k' k || has_key k rest
  end.

Fixpoint replace_prop (k : string) (v : JsVal) (props : list (string * JsVal))
  : list (string * JsVal) :=
  match props with
  | [] => []
  | (k', v') :: rest =>
      if String.eqb k' k then (k, v) :: rest else (k', v') :: replace_prop k v rest
  end.

Fixpoint insert_index (n : N) (k : string) (v : JsVal)
    (props : list (string * JsVal)) : list (string * JsVal) :=
  match props with
  | [] => [(k, v)]
  | (k', v') :: rest =>
      match array_index k' with
      | Some n' =>
          if (n' <? n)%N then (k', v') :: insert_index n k v rest
          else (k, v) :: props
      | None => (k, v) :: props
      end
  end.

Definition define_prop (props : list (string * JsVal)) (kv : string * JsVal)
  : list (string * JsVal) :=
  let '(k, v) := kv in
  if has_key k props then replace_prop k v props
  else
    match array_index k with
    | Some n => insert_index n k v props
    | None => props ++ [(k, v)]
    end.

Definition build_object (members : list (string * JsVal)) : list (string * JsVal) :=
  fold_left define_prop members [].

(** ** Values *)

Definition is_ws (c : ascii) : bool :=
  let n := N_of_ascii c in
  ((n =? 32) || (n =? 9) || (n =? 10) || (n =? 13))%N.

Fixpoint skip_ws (s : text) : text :=
  match s with
  | c :: r => if is_ws c then skip_ws r else s
  | [] => []
  end.

Definition parse_string (s : text) : option (string * text) :=
  match parse_chars s with
  | Some (body, rest) => Some (string_of_list_ascii body, rest)
  | None => None
  end.

(** The text after [word], when the text starts with it. *)
Fixpoint strip_prefix (word s : text) : option text :=
  match word, s with
  | [], _ => Some s
  | a :: word', b :: s' => if Ascii.eqb a b then strip_prefix word' s' else None
  | _ :: _, [] => None
  end.

Definition literal (word : string) (v : JsVal) (s : text) : option (JsVal * text) :=
  match strip_prefix (chars word) s with
  | Some r => Some (v, r)
  | None => None
  end.

(** The text after the punctuation [c], when that is the next token. *)
Definition closes (c : ascii) (s : text) : option text :=
  match skip_ws s with
  | c' :: r => if Ascii.eqb c' c then Some r else None
  | [] => None
  end.

(** Recursive descent.  The three parsers call each other; each is written
    over the parsers it calls, and [fuel] bounds the depth of the calls
    when they are tied together. *)
Definition value_body
    (elements : text -> option (list JsVal * text))
    (members : text -> option (list (string * JsVal) * text))
    (s : text) : option (JsVal * text) :=
  match skip_ws s with
  | [] => None
  | c :: r =>
      if Ascii.eqb c "n"%char then literal "null" JNull (c :: r)
      else if Ascii.eqb c "t"%char then literal "true" (JBool true) (c :: r)
      else if Ascii.eqb c "f"%char then literal "false" (JBool false) (c :: r)
      else if Ascii.eqb c "["%char then
        match closes "]"%char r with
        | Some r' => Some (JArr [], r')
        | None =>
            match elements r with
            | Some (items, r') => Some (JArr items, r')
            | None => None
            end
        end
      else if Ascii.eqb c "{"%char then
        match closes "}"%char r with
        | Some r' => Some (JObj [], r')
        | None =>
            match members r with
            | Some (props, r') => Some (JObj (build_object props), r')
            | None => None
            end
        end
      else if Ascii.eqb c dquote then
        match parse_string r with
        | Some (str, r') => Some (JStr str, r')
        | None => None
        end
      else if Ascii.eqb c "-"%char || is_digit c then parse_number (c :: r)
      else None
  end.

Definition elements_body
    (value : text -> option (JsVal * text))
    (elements : text -> option (list JsVal * text))
    (s : text) : option (list JsVal * text) :=
  match value s with
  | Some (v, r) =>
      match closes ","%char r with
      | Some r' =>
          match elements r' with
          | Some (items, r'') => Some (v :: items, r'')
          | None => None
          end
      | None =>
          match closes "]"%char r with
          | Some r' => Some ([v], r')
          | None => None
          end
      end
  | None => None
  end.

Definition members_body
    (value : text -> option (JsVal * text))
    (members : text -> option (list (string * JsVal) * text))
    (s : text) : option (list (string * JsVal) * text) :=
  match closes dquote s with
  | Some r =>
      match parse_string r with
      | Some (k, r1) =>
          match closes ":"%char r1 with
          | Some r2 =>
              match value r2 with
              | Some (v, r3) =>
                  match closes ","%char r3 with
                  | Some r4 =>
                      match members r4 with
                      | Some (props, r5) => Some ((k, v) :: props, r5)
                      | None => None
                      end
                  | None =>
                      match closes "}"%char r3 with
                      | Some r4 => Some ([(k, v)], r4)
                      | None => None
                      end
                  end
              | None => None
              end
          | None => None
          end
      | None => None
      end
  | None => None
  end.

Fixpoint parse_value (fuel : nat) (s : text) : option (JsVal * text) :=
  match fuel with
  | O => None
  | S fuel' => value_body (parse_elements fuel') (parse_members fuel') s
  end

with parse_elements (fuel : nat) (s : text) : option (list JsVal * text) :=
  match fuel with
  | O => None
  | S fuel' => elements_body (parse_value fuel') (parse_elements fuel') s
  end

with parse_members (fuel : nat) (s : text) : option (list (string * JsVal) * text) :=
  match fuel with
  | O => None
  | S fuel' => members_body (parse_value fuel') (parse_members fuel') s
  end.

(** [JSON.parse(str)]: the value of the text, or a [SyntaxError] when the
    text is not one JSON value with optional white space around it.  The
    fuel given is never exhausted. *)
Definition parse (str : string) : Completion JsVal :=
  let s := chars str in
  match parse_value (2 * length s + 1) s with
  | Some (v, rest) =>
      match skip_ws rest with
      | [] => Normal v
      | _ => Throw SyntaxError
      end
  | None => Throw SyntaxError
  end.

(** ** Serialisation

    [JSON.stringify(v)] is [undefined] for [undefined] (here [None]); inside
    an array [undefined] is written [null], and a property whose value is
    [undefined] is left out. *)

Definition or_null (t : option text) : text :=
  match t with Some t' => t' | None => chars "null" end.

Definition member_text (k : string) (t : option text) : list text :=
  match t with Some t' => [quote k ++ ":"%char :: t'] | None => [] end.

Fixpoint join (sep : ascii) (parts : list text) : text :=
  match parts with
  | [] => []
  | [p] => p
  | p :: rest => p ++ sep :: join sep rest
  end.

Fixpoint serialize (v : JsVal) : option text :=
  match v with
  | JUndefined => None
  | JNull => Some (chars "null")
  | JBool true => Some (chars "true")
  | JBool false => Some (chars "false")
  | JNum z => Some (int_text z)
  | JDec m e => Some (dec_text m e)
  | JStr s => Some (quote s)
  | JArr items =>
      Some ("["%char ::
            join ","%char (map (fun x => or_null (serialize x)) items)
            ++ ["]"%char])
  | JObj props =>
      Some ("{"%char ::
            join ","%char
              (flat_map (fun kv => let '(k, x) := kv in member_text k (serialize x))
                 props)
            ++ ["}"%char])
  end.

Definition stringify (v : JsVal) : option string :=
  match serialize v with
  | Some t => Some (string_of_list_ascii t)
  | None => None
  end.

(** ** What comes back

    [normal v] is the value of the text of [v]: [undefined] as an array
    item reads [null], a property holding [undefined] is gone, a decimal
    is in lowest terms and the properties of an object are as
    [build_object] leaves them. *)
Definition kept (k : string) (x y : JsVal) : list (string * JsVal) :=
  match x with
  | JUndefined => []
  | _ => [(k, y)]
  end.

Fixpoint normal (v : JsVal) : JsVal :=
  match v with
  | JUndefined => JNull
  | JNull | JBool _ | JNum _ | JStr _ => v
  | JDec m e => reduce (Pos.to_nat e) m
  | JArr items => JArr (map normal items)
  | JObj props =>
      JObj (build_object
              (flat_map (fun kv => let '(k, x) := kv in kept k x (normal x)) props))
  end.

(** The next character, if any, closes or separates: what may follow a
    value inside an array or an object, or the end of the text. *)
Definition closing (s : text) : Prop :=
  match s with
  | [] => True
  | c :: _ => c = ","%char \/ c = "]"%char \/ c = "}"%char
  end.

(** The first character of a serialised value: not white space and not a
    closing bracket. *)
Definition opens (t : text) : Prop :=
  match t with
  | [] => False
  | c :: _ => is_ws c = false /\ c <> "]"%char /\ c <> "}"%char
  end.

(** The text of an array item and of a property. *)
Definition element_text (x : JsVal) : text := or_null (serialize x).

Definition member (kv : string * JsVal) : list text :=
  let '(k, x) := kv in member_text k (serialize x).

Definition member_value (kv : string * JsVal) : list (string * JsVal) :=
  let '(k, x) := kv in kept k x (normal x).

(** What one array item asks of the parser: its text, followed by a
    closing character or nothing, parses to its normal form with the rest
    left over, on any fuel that covers the text. *)
Definition reads_back (v : JsVal) : Prop :=
  forall fuel rest,
    (length (element_text v) <= fuel)%nat -> closing rest ->
    parse_value fuel (element_text v ++ rest) = Some (normal v, rest).

(** A parser [P'] does on texts shorter than [n] whatever [P] does, and
    [P] gives back no more text than it was given. *)
Definition follows {A} (n : nat) (P P' : text -> option (A * text)) : Prop :=
  forall x o,
    (length x < n)%nat -> P x = Some o ->
    P' x = Some o /\ (length (snd o) <= length x)%nat.

End JSON.

(* ================================================================== *)
(** * Numeric conversion and comparison

    [now.getTime() > item.expiry] compares a number with an arbitrary
    value: the value goes through [ToPrimitive] and [ToNumber], and a
    comparison with [NaN] is false. *)

Module Num.

Inductive Number : Type :=
| NaN
| NegInfinity
| PosInfinity
| Finite (m : Z) (x : Z).   (* m * 10^x *)

(** [n > y] for an integer [n]. *)
Definition gt (n : Z) (y : Number) : bool :=
  match y with
  | NaN | PosInfinity => false
  | NegInfinity => true
  | Finite m x => if 0 <=? x then m * 10 ^ x <? n else m <? n * 10 ^ (- x)
  end.

Definition is_space (c : ascii) : bool :=
  let n := N_of_ascii c in
  ((n =? 32) || ((9 <=? n) && (n <=? 13)))%N.

Fixpoint trim_left (s : JSON.text) : JSON.text :=
  match s with
  | c :: r => if is_space c then trim_left r else s
  | [] => []
  end.

Definition trim (s : JSON.text) : JSON.text :=
  rev (trim_left (rev (trim_left s))).

(** Digits in base 2, 8 or 16 after a [0b], [0o] or [0x] prefix. *)
Fixpoint radix_digits (base : N) (acc : N) (s : JSON.text) : option N :=
  match s with
  | [] => Some acc
  | c :: r =>
      match JSON.hex_val c with
      | Some d => if (d <? base)%N then radix_digits base (acc * base + d) r else None
      | None => None
      end
  end.

Definition radix_literal (base : N) (s : JSON.text) : Number :=
  match s with
  | [] => NaN
  | _ => match radix_digits base 0 s with
         | Some n => Finite (Z.of_N n) 0
         | None => NaN
         end
  end.

(** [digits (. digits?)? exp?] or [. digits exp?], already unsigned. *)
Definition decimal_literal (neg : bool) (s : JSON.text) : Number :=
  let '(ui, s1) := JSON.scan_digits s in
  let '(uf, s2) :=
    match s1 with
    | "."%char :: r => JSON.scan_digits r
    | _ => (Decimal.Nil, s1)
    end in
  match ui, uf with
  | Decimal.Nil, Decimal.Nil => NaN
  | _, _ =>
      match JSON.parse_exp s2 with
      | Some (x, []) =>
          Finite (JSON.sign_apply neg (N.of_uint (Decimal.app ui uf)))
                 (x - Z.of_nat (Decimal.nb_digits uf))
      | _ => NaN
      end
  end.

Definition infinity : JSON.text := JSON.chars "Infinity".

Definition text_eqb (a b : JSON.text) : bool :=
  String.eqb (string_of_list_ascii a) (string_of_list_ascii b).

Definition signed_literal (neg : bool) (s : JSON.text) : Number :=
  if text_eqb s infinity then (if neg then NegInfinity else PosInfinity)
  else decimal_literal neg s.

Definition StringToNumber (str : string) : Number :=
  match trim (JSON.chars str) with
  | [] => Finite 0 0
  | "0"%char :: "x"%char :: r | "0"%char :: "X"%char :: r => radix_literal 16 r
  | "0"%char :: "o"%char :: r | "0"%char :: "O"%char :: r => radix_literal 8 r
  | "0"%char :: "b"%char :: r | "0"%char :: "B"%char :: r => radix_literal 2 r
  | "+"%char :: r => signed_literal false r
  | "-"%char :: r => signed_literal true r
  | s => signed_literal false s
  end.

(** [ToString] of a value, as used for the elements of an array.  A plain
    object prints as [[object Object]] unless it carries a [toString]
    property of its own, which no value from JSON text can make callable. *)
Fixpoint ToString (v : JsVal) : Completion JSON.text :=
  match v with
  | JUndefined => Normal (JSON.chars "undefined")
  | JNull => Normal (JSON.chars "null")
  | JBool true => Normal (JSON.chars "true")
  | JBool false => Normal (JSON.chars "false")
  | JNum z => Normal (JSON.int_text z)
  | JDec m e => Normal (JSON.dec_text m e)
  | JStr s => Normal (JSON.chars s)
  | JArr items =>
      (fix each (first : bool) (l : list JsVal) : Completion JSON.text :=
         match l with
         | [] => Normal []
         | x :: r =>
             let head :=
               match x with
               | JUndefined | JNull => Normal []
               | _ => ToString x
               end in
             match head, each false r with
             | Normal h, Normal t =>
                 Normal ((if first then [] else [","%char]) ++ h ++ t)
             | Throw e, _ => Throw e
             | _, Throw e => Throw e
             end
         end) true items
  | JObj props =>
      if JSON.has_key "toString" props then Throw TypeError
      else Normal (JSON.chars "[object Object]")
  end.

Definition ToNumber (v : JsVal) : Completion Number :=
  match v with
  | JUndefined => Normal NaN
  | JNull => Normal (Finite 0 0)
  | JBool b => Normal (Finite (if b then 1 else 0) 0)
  | JNum z => Normal (Finite z 0)
  | JDec m e => Normal (Finite m (- Z.pos e))
  | JStr s => Normal (StringToNumber s)
  | JArr _ | JObj _ =>
      match ToString v with
      | Normal t => Normal (StringToNumber (string_of_list_ascii t))
      | Throw e => Throw e
      end
  end.

(** [n > v] *)
Definition greater (n : Z) (v : JsVal) : Completion bool :=
  match ToNumber v with
  | Normal y => Normal (gt n y)
  | Throw e => Throw e
  end.

End Num.

(* ================================================================== *)
(** * The page: localStorage, the clock, and the calls made *)

(** [localStorage] of one origin: a finite map from keys to strings and
    the room the browser grants it, counted in characters of keys and
    values.  [setItem] throws [QuotaExceededError] when the new contents
    would not fit; [getItem] and [removeItem] have no failure mode. *)
Module Storage.

Record t : Type := { items : gmap string string; quota : nat }.

Definition used (m : gmap string string) : nat :=
  map_fold (fun k v acc => String.length k + String.length v + acc)%nat 0%nat m.

Definition getItem (key : string) (st : t) : option string := items st !! key.

Definition setItem (key value : string) (st : t) : option t :=
  let m := <[key := value]> (items st) in
  if (used m <=? quota st)%nat then Some {| items := m; quota := quota st |}
  else None.

Definition removeItem (key : string) (st : t) : t :=
  {| items := delete key (items st); quota := quota st |}.

Definition empty (q : nat) : t := {| items := ∅; quota := q |}.

End Storage.

Record Env : Type := { localStorage : Storage.t; clock : Z }.

Inductive Call : Type :=
| CallGetItem (key : string)
| CallSetItem (key value : string)
| CallRemoveItem (key : string)
| CallFetch.

(** The environment and the calls issued so far, latest first. *)
Record Page : Type := { env : Env; calls : list Call }.

Definition M (A : Type) : Type := Page -> Completion A * Page.

Definition ret {A} (a : A) : M A := fun p => (Normal a, p).

Definition bind {A B} (m : M A) (k : A -> M B) : M B :=
  fun p =>
    match m p with
    | (Normal a, p') => k a p'
    | (Throw e, p') => (Throw e, p')
    end.

Definition lift {A} (c : Completion A) : M A := fun p => (c, p).

(** [try { body } catch { handler }] *)
Definition try_catch {A} (body : M A) (handler : Exn -> M A) : M A :=
  fun p =>
    match body p with
    | (Normal a, p') => (Normal a, p')
    | (Throw e, p') => handler e p'
    end.

Notation "x <- m ;; k" := (bind m (fun x => k))
  (at level 100, m at next level, right associativity).
Notation "m ;;; k" := (bind m (fun _ => k))
  (at level 100, right associativity).

Definition record (c : Call) (p : Page) : Page :=
  {| env := env p; calls := c :: calls p |}.

Definition with_storage (st : Storage.t) (p : Page) : Page :=
  {| env := {| localStorage := st; clock := clock (env p) |}; calls := calls p |}.

(** [new Date().getTime()] *)
Definition Date_getTime : M Z := fun p => (Normal (clock (env p)), p).

(** [localStorage.getItem(key)]; [None] is [null]. *)
Definition localStorage_getItem (key : string) : M (option string) :=
  fun p =>
    (Normal (Storage.getItem key (localStorage (env p))), record (CallGetItem key) p).

(** [localStorage.setItem(key, value)] *)
Definition localStorage_setItem (key value : string) : M unit :=
  fun p =>
    let p' := record (CallSetItem key value) p in
    match Storage.setItem key value (localStorage (env p)) with
    | Some st => (Normal tt, with_storage st p')
    | None => (Throw QuotaExceededError, p')
    end.

(** [localStorage.removeItem(key)] *)
Definition localStorage_removeItem (key : string) : M unit :=
  fun p =>
    (Normal tt,
     with_storage (Storage.removeItem key (localStorage (env p)))
       (record (CallRemoveItem key) p)).

(** [JSON.stringify(v)] where a string is expected: [undefined] becomes
    the text [undefined]. *)
Definition JSON_stringify (v : JsVal) : string :=
  match JSON.stringify v with
  | Some s => s
  | None => "undefined"
  end.

(** A parameter with a default takes it when the argument is [undefined],
    whether left out or passed as such. *)
Definition default_arg (arg dflt : JsVal) : JsVal :=
  match arg with
  | JUndefined => dflt
  | _ => arg
  end.

(* ================================================================== *)
(** * src/index.js *)

(** [[
export function safeJsonParse(str, fallback = {}) {
  try {
    return JSON.parse(str);
  } catch {
    return fallback;
  }
}
]] *)
Definition safeJsonParse (str : string) (fallback : JsVal) : M JsVal :=
  let fallback := default_arg fallback (JObj []) in
  try_catch (lift (JSON.parse str)) (fun _ => ret fallback).

(** [[
export function setStorageWithExpiry(key, value, hours = 24) {
  const now = new Date();
  const item = {
    value: value,
    expiry: now.getTime() + hours * 60 * 60 * 1000,
  };
  localStorage.setItem(key, JSON.stringify(item));
}
]]
    The expiry is the sum as a whole number.  The code computes it in
    doubles, which gives the same while the computation stays among the
    safe integers ([exact_expiry] below). *)
Definition make_item (value : JsVal) (expiry : Z) : JsVal :=
  JObj [("value"%string, value); ("expiry"%string, JNum expiry)].

Definition setStorageWithExpiry (key : string) (value : JsVal) (hours : option Z)
  : M unit :=
  let hours := default 24 hours in
  now <- Date_getTime ;;
  let item := make_item value (now + hours * 60 * 60 * 1000) in
  localStorage_setItem key (JSON_stringify item).

(** [[
export function getStorageWithExpiry(key) {
  const itemStr = localStorage.getItem(key);
  if (!itemStr) return null;

  const item = safeJsonParse(itemStr);
  const now = new Date();

  if (now.getTime() > item.expiry) {
    localStorage.removeItem(key);
    return null;
  }
  return item.value;
}
]] *)
Definition getStorageWithExpiry (key : string) : M JsVal :=
  itemStr <- localStorage_getItem key ;;
  match itemStr with
  | None => ret JNull
  | Some EmptyString => ret JNull
  | Some itemStr =>
      item <- safeJsonParse itemStr JUndefined ;;
      now <- Date_getTime ;;
      expiry <- lift (get_prop item "expiry") ;;
      expired <- lift (Num.greater now expiry) ;;
      if expired then
        localStorage_removeItem key ;;;
        ret JNull
      else lift (get_prop item "value")
  end.

(* ================================================================== *)
(** * The CacheManager of the documentation *)

(** A promise by the time its reactions run. *)
Inductive Promise : Type :=
| Fulfilled (v : JsVal)
| Rejected (e : Exn)
| Pending.

(** A caller-supplied [fetchFunction].  Called in an environment, it throws
    or returns a promise; the environment it gives back is the one in
    which that promise's reaction runs: time has passed and other code of
    the page may have run. *)
Definition Fetcher : Type := Env -> Completion Promise * Env.

Definition call (f : Fetcher) : M Promise :=
  fun p =>
    let '(r, e) := f (env p) in
    (r, {| env := e; calls := CallFetch :: calls p |}).

(** [Promise.resolve(v)] for a value that is not a thenable. *)
Definition Promise_resolve (v : JsVal) : Promise := Fulfilled v.

(** [p.then(onFulfilled)]: the reaction runs on fulfilment, what it returns
    fulfils the derived promise and what it throws rejects it; a rejection
    of [p] passes through. *)
Definition Promise_then (p : Promise) (onFulfilled : JsVal -> M JsVal) : M Promise :=
  match p with
  | Fulfilled v =>
      fun pg =>
        match onFulfilled v pg with
        | (Normal r, pg') => (Normal (Fulfilled r), pg')
        | (Throw e, pg') => (Normal (Rejected e), pg')
        end
  | Rejected e => ret (Rejected e)
  | Pending => ret Pending
  end.

(** [[
class CacheManager {
  static set(key, data, hours = 24) {
    setStorageWithExpiry(key, data, hours);
  }

  static get(key) {
    return getStorageWithExpiry(key);
  }

  static getOrFetch(key, fetchFunction, hours = 24) {
    const cached = this.get(key);
    if (cached) return Promise.resolve(cached);

    return fetchFunction().then(data => {
      this.set(key, data, hours);
      return data;
    });
  }
}
]] *)
Module CacheManager.

Definition set (key : string) (data : JsVal) (hours : option Z) : M unit :=
  let hours := default 24 hours in
  setStorageWithExpiry key data (Some hours).

Definition get (key : string) : M JsVal := getStorageWithExpiry key.

Definition getOrFetch (key : string) (fetchFunction : Fetcher) (hours : option Z)
  : M Promise :=
  let hours := default 24 hours in
  cached <- get key ;;
  if ToBoolean cached then ret (Promise_resolve cached)
  else
    p <- call fetchFunction ;;
    Promise_then p (fun data =>
      set key data (Some hours) ;;;
      ret data).

End CacheManager.

(* ================================================================== *)
(** * Entries, keys and pages *)

(** Time passes: the clock moves by [d] milliseconds, nothing else does. *)
Definition advance (d : Z) (p : Page) : Page :=
  {| env := {| localStorage := localStorage (env p); clock := clock (env p) + d |};
     calls := calls p |}.

(** The text under [key], if any. *)
Definition stored (key : string) (p : Page) : option string :=
  Storage.getItem key (localStorage (env p)).

(** The entry that [setStorageWithExpiry] writes for [value] and [expiry]. *)
Definition entry_text (value : JsVal) (expiry : Z) : string :=
  JSON_stringify (make_item value expiry).

(** What a lookup gives for a live entry written with [value]: the value
    as JSON text carries it. *)
Definition read_back (value : JsVal) : JsVal :=
  match value with
  | JUndefined => JUndefined
  | _ => JSON.normal value
  end.

(** The values that come back as they went in. *)
Definition storable (value : JsVal) : Prop := read_back value = value.

(** [Number.MAX_SAFE_INTEGER].  From its opposite up to it, the safe
    integers, every whole number is a double, and a product or a sum of
    two of them that stays there is computed exactly. *)
Definition MAX_SAFE_INTEGER : Z := 2 ^ 53 - 1.

Definition safe_integer (z : Z) : bool :=
  (- MAX_SAFE_INTEGER <=? z) && (z <=? MAX_SAFE_INTEGER).

(** [now.getTime() + hours * 60 * 60 * 1000] stays among the safe
    integers: the expiry that the code stores is the exact sum.  Beyond
    them the code's sum is rounded, and from some 5e301 hours on it is
    [Infinity], which [JSON.stringify] writes as [null]: an entry that
    reads as expired at once. *)
Definition exact_expiry (now hours : Z) : bool :=
  safe_integer now
  && safe_integer (hours * 60 * 60 * 1000)
  && safe_integer (now + hours * 60 * 60 * 1000).

(** Number of calls of the fetch function on record. *)
Fixpoint count_fetch (l : list Call) : nat :=
  match l with
  | [] => O
  | CallFetch :: r => S (count_fetch r)
  | _ :: r => count_fetch r
  end.

Definition fetches (p : Page) : nat := count_fetch (calls p).

(** The page after a lookup that removed [key]. *)
Definition removed (key : string) (p : Page) : Page :=
  with_storage (Storage.removeItem key (localStorage (env p)))
    (record (CallRemoveItem key) (record (CallGetItem key) p)).

(** ** States of a key *)

Definition absent (key : string) (p : Page) : Prop := stored key p = None.

(** The key holds an entry that has not expired and reads as [value]. *)
Definition live (key : string) (value : JsVal) (p : Page) : Prop :=
  exists written expiry,
    stored key p = Some (entry_text written expiry) /\
    read_back written = value /\
    clock (env p) <= expiry.

(** The key holds an entry whose expiry the clock has passed. *)
Definition expired (key : string) (p : Page) : Prop :=
  exists written expiry,
    stored key p = Some (entry_text written expiry) /\
    expiry < clock (env p).

(** A fetch that fails with [e]: thrown at the call or a rejected promise. *)
Definition failed (r : Completion Promise) (e : Exn) : Prop :=
  r = Throw e \/ r = Normal (Rejected e).

(** The branch of [getOrFetch] taken on a miss, run from the page the
    lookup left. *)
Definition fetch_and_store (key : string) (fetchFunction : Fetcher) (hours : Z)
  : M Promise :=
  p <- call fetchFunction ;;
  Promise_then p (fun data =>
    CacheManager.set key data (Some hours) ;;;
    ret data).

(* ================================================================== *)
(** * Sample pages *)

Module Sample.

Definition page (room : nat) (time : Z) : Page :=
  {| env := {| localStorage := Storage.empty room; clock := time |}; calls := [] |}.

Definition start : Page := page 4096 1700000000000.

Definition cramped : Page := page 16 1700000000000.

Definition session : JsVal := JObj [("userId"%string, JNum 42)].

(** The page after [run], whatever its completion. *)
Definition after {A} (run : M A) (p : Page) : Page := snd (run p).

(** [start] with a text put under the key directly. *)
Definition holding (key text : string) : Page :=
  after (localStorage_setItem key text) start.

(** [start] after a write of [value] for [hours] hours. *)
Definition written (key : string) (value : JsVal) (hours : Z) : Page :=
  after (setStorageWithExpiry key value (Some hours)) start.

(** A fetch function that settles one second later. *)
Definition settle (r : Completion Promise) : Fetcher :=
  fun e => (r, {| localStorage := localStorage e; clock := clock e + 1000 |}).

End Sample.

(* ================================================================== *)
(** * The cache, step by step *)

(** The item a lookup works on: the parsed text, or the empty object that
    [safeJsonParse] falls back to. *)
Definition item_of (text : string) : JsVal :=
  match JSON.parse text with
  | Normal v => v
  | Throw _ => JObj []
  end.

(* ================================================================== *)
(** * Strings

    The methods of [String.prototype] that the utilities call, over the
    characters of the string.  On ASCII text a character is a code unit
    and the methods are exact; case mapping and the white space of
    regular expressions leave the characters above 127 alone. *)

Module Str.

Definition text := JSON.text.

Definition of_text (t : text) : string := string_of_list_ascii t.

(** [s.length] *)
Definition length (s : string) : Z := Z.of_nat (List.length (JSON.chars s)).

(** The characters from position [from] up to position [to]. *)
Definition between (t : text) (from to : Z) : text :=
  firstn (Z.to_nat (to - from)) (skipn (Z.to_nat from) t).

(** [s.substring(start, end)]: both ends are brought into the string, and
    swapped when they come in the wrong order. *)
Definition substring (s : string) (start end_ : Z) : string :=
  let len := length s in
  let a := Z.min (Z.max start 0) len in
  let b := Z.min (Z.max end_ 0) len in
  of_text (between (JSON.chars s) (Z.min a b) (Z.max a b)).

(** [s.slice(start)]: a negative start counts from the end. *)
Definition slice (s : string) (start : Z) : string :=
  let len := length s in
  let from := if start <? 0 then Z.max (len + start) 0 else Z.min start len in
  of_text (between (JSON.chars s) from len).

(** [s.charAt(pos)]: the empty string outside the string. *)
Definition charAt (s : string) (pos : Z) : string :=
  if (0 <=? pos) && (pos <? length s)
  then of_text (between (JSON.chars s) pos (pos + 1))
  else EmptyString.

Definition is_upper (c : ascii) : bool :=
  let n := N_of_ascii c in ((65 <=? n) && (n <=? 90))%N.

Definition is_lower (c : ascii) : bool :=
  let n := N_of_ascii c in ((97 <=? n) && (n <=? 122))%N.

Definition upper (c : ascii) : ascii :=
  if is_lower c then ascii_of_N (N_of_ascii c - 32) else c.

Definition lower (c : ascii) : ascii :=
  if is_upper c then ascii_of_N (N_of_ascii c + 32) else c.

(** [s.toUpperCase()] and [s.toLowerCase()] *)
Definition toUpperCase (s : string) : string := of_text (map upper (JSON.chars s)).

Definition toLowerCase (s : string) : string := of_text (map lower (JSON.chars s)).

(** [s.trim()] *)
Definition trim (s : string) : string := of_text (Num.trim (JSON.chars s)).

(** ASCII text: every character is a code unit below 128. *)
Definition ascii_char (c : ascii) : bool := (N_of_ascii c <? 128)%N.

Definition is_ascii (s : string) : bool := forallb ascii_char (JSON.chars s).

End Str.

(* ================================================================== *)
(** * src/index.js: text utilities *)

(** [[
export function truncate(text, length = 100) {
  return text.length > length ? text.substring(0, length) + '...' : text;
}
]] *)
Definition truncate (text : string) (length : option Z) : string :=
  let length := default 100 length in
  if length <? Str.length text
  then String.append (Str.substring text 0 length) "..."
  else text.

(** [[
export function capitalize(str) {
  return str.charAt(0).toUpperCase() + str.slice(1);
}
]] *)
Definition capitalize (str : string) : string :=
  String.append (Str.toUpperCase (Str.charAt str 0)) (Str.slice str 1).

(** [[
export function formatPhone(phone) {
  const cleaned = phone.replace(/\D/g, '');
  const match = cleaned.match(/^(\d{3})(\d{3})(\d{4})$/);
  if (match) {
    return `(${match[1]}) ${match[2]}-${match[3]}`;
  }
  return phone;
}
]] *)
Definition formatPhone (phone : string) : string :=
  let cleaned := List.filter JSON.is_digit (JSON.chars phone) in
  match cleaned with
  | [a1; a2; a3; b1; b2; b3; c1; c2; c3; c4] =>
      Str.of_text
        (["("%char; a1; a2; a3; ")"%char; " "%char; b1; b2; b3; "-"%char;
          c1; c2; c3; c4])
  | _ => phone
  end.

(** ** Regular expressions over character classes

    The patterns of the utilities are built from character classes.  A
    global replace works on the maximal runs of a class, left to right. *)

Module RegExp.

(** [\d], [\w] and [\s] *)
Definition digit : ascii -> bool := JSON.is_digit.

Definition word (c : ascii) : bool :=
  Str.is_upper c || Str.is_lower c || digit c || Ascii.eqb c "_"%char.

Definition space : ascii -> bool := Num.is_space.

(** [s.replace(/[class]/g, '')] *)
Definition remove (class : ascii -> bool) (t : Str.text) : Str.text :=
  List.filter (fun c => negb (class c)) t.

(** [s.replace(/[class]+/g, by)]: [inside] tells that the run the scan is
    in has been replaced already. *)
Fixpoint replace_runs (class : ascii -> bool) (by_ : Str.text) (inside : bool)
    (t : Str.text) : Str.text :=
  match t with
  | [] => []
  | c :: r =>
      if class c
      then (if inside then [] else by_) ++ replace_runs class by_ true r
      else c :: replace_runs class by_ false r
  end.

Fixpoint drop_run (class : ascii -> bool) (t : Str.text) : Str.text :=
  match t with
  | c :: r => if class c then drop_run class r else t
  | [] => []
  end.

(** The text starts, or ends, with a character of the class. *)
Definition starts (class : ascii -> bool) (t : Str.text) : bool :=
  match t with
  | c :: _ => class c
  | [] => false
  end.

Fixpoint ends (class : ascii -> bool) (t : Str.text) : bool :=
  match t with
  | [] => false
  | [c] => class c
  | _ :: r => ends class r
  end.

(** [s.replace(/^[class]+|[class]+$/g, '')]: the run at the start goes,
    then the run at the end of what is left. *)
Definition strip_ends (class : ascii -> bool) (t : Str.text) : Str.text :=
  rev (drop_run class (rev (drop_run class t))).

(** [s.split(/[class]+/)]: the pieces between the runs; a text without a
    run, the empty text included, is one piece. *)
Fixpoint split_runs (class : ascii -> bool) (piece : Str.text) (inside : bool)
    (t : Str.text) : list Str.text :=
  match t with
  | [] => [rev piece]
  | c :: r =>
      if class c
      then (if inside then [] else [rev piece]) ++ split_runs class [] true r
      else split_runs class (c :: piece) false r
  end.

(** Patterns matched against a whole text, as [^...$] asks. *)
Inductive t : Type :=
| Class (class : ascii -> bool)
| Seq (r1 r2 : t)
| Plus (r : t).

(** The texts left over after a match of the pattern at the head of the
    text: every way of matching, longest runs first as the engine tries
    them.  A repetition goes on while the text gets shorter, so the
    length of the text bounds it. *)
Fixpoint many (step : Str.text -> list Str.text) (fuel : nat) (s : Str.text)
  : list Str.text :=
  match fuel with
  | O => []
  | S fuel' =>
      flat_map (fun rest =>
                  if (List.length rest <? List.length s)%nat
                  then many step fuel' rest ++ [rest]
                  else [rest])
               (step s)
  end.

Fixpoint residues (r : t) (s : Str.text) : list Str.text :=
  match r with
  | Class class =>
      match s with
      | c :: rest => if class c then [rest] else []
      | [] => []
      end
  | Seq r1 r2 => flat_map (residues r2) (residues r1 s)
  | Plus r1 => many (residues r1) (S (List.length s)) s
  end.

(** [/^r$/.test(s)] *)
Definition test (r : t) (s : string) : bool :=
  existsb (fun rest => match rest with [] => true | _ => false end)
          (residues r (JSON.chars s)).

End RegExp.

(** The classes of [slugify]: [-], what [[^\w\s-]] spares, and [[\s_-]]. *)
Definition dash (c : ascii) : bool := Ascii.eqb c "-"%char.

Definition slug_kept (c : ascii) : bool := RegExp.word c || RegExp.space c || dash c.

Definition slug_separator (c : ascii) : bool :=
  RegExp.space c || Ascii.eqb c "_"%char || dash c.

(** [[
export function slugify(str) {
  return str
    .toLowerCase()
    .trim()
    .replace(/[^\w\s-]/g, '')
    .replace(/[\s_-]+/g, '-')
    .replace(/^-+|-+$/g, '');
}
]] *)
Definition slugify (str : string) : string :=
  let lowered := Str.trim (Str.toLowerCase str) in
  let kept := RegExp.remove (fun c => negb (slug_kept c)) (JSON.chars lowered) in
  let dashed := RegExp.replace_runs slug_separator ["-"%char] false kept in
  Str.of_text (RegExp.strip_ends dash dashed).

(** The classes of [emailRegex]: one character, and [[^\s@]]. *)
Definition char_is (a : ascii) (c : ascii) : bool := Ascii.eqb c a.

Definition not_space_or_at (c : ascii) : bool :=
  negb (RegExp.space c || char_is "@"%char c).

(** [[
export function isEmail(email) {
  const emailRegex = /^[^\s@]+@[^\s@]+\.[^\s@]+$/;
  return emailRegex.test(email);
}
]] *)
Definition emailRegex : RegExp.t :=
  RegExp.Seq (RegExp.Plus (RegExp.Class not_space_or_at))
    (RegExp.Seq (RegExp.Class (char_is "@"%char))
       (RegExp.Seq (RegExp.Plus (RegExp.Class not_space_or_at))
          (RegExp.Seq (RegExp.Class (char_is "."%char))
             (RegExp.Plus (RegExp.Class not_space_or_at))))).

Definition isEmail (email : string) : bool := RegExp.test emailRegex email.

(** [Math.ceil(n / d)] for whole numbers: a division by zero gives an
    infinity, or [NaN] for [0 / 0]. *)
Definition Math_ceil_div (n d : Z) : Num.Number :=
  if d =? 0 then (if n =? 0 then Num.NaN
                  else if 0 <? n then Num.PosInfinity else Num.NegInfinity)
  else Num.Finite (- ((- n) / d)) 0.

(** [[
export function calculateReadingTime(text, wpm = 200) {
  const words = text.trim().split(/\s+/).length;
  return Math.ceil(words / wpm);
}
]] *)
Definition calculateReadingTime (text : string) (wpm : option Z) : Num.Number :=
  let wpm := default 200 wpm in
  let words :=
    List.length (RegExp.split_runs RegExp.space [] false (JSON.chars (Str.trim text))) in
  Math_ceil_div (Z.of_nat words) wpm.

(** ** Slugs

    A slug is made of lower-case letters and digits in groups, with one
    dash between two groups and none at either end. *)
Definition slug_char (c : ascii) : bool := Str.is_lower c || RegExp.digit c.

Fixpoint doubled (t : Str.text) : bool :=
  match t with
  | c :: r => (dash c && RegExp.starts dash r) || doubled r
  | [] => false
  end.

Definition slug_text (t : Str.text) : bool :=
  forallb (fun c => slug_char c || dash c) t
  && negb (RegExp.starts dash t) && negb (RegExp.ends dash t) && negb (doubled t).

Definition is_slug (s : string) : bool := slug_text (JSON.chars s).

(** The words of a text: its maximal runs of characters that are not white
    space.  [in_word] tells that the scan is inside a word. *)
Fixpoint count_words (in_word : bool) (t : Str.text) : nat :=
  match t with
  | [] => O
  | c :: r =>
      if RegExp.space c then count_words false r
      else ((if in_word then 0 else 1) + count_words true r)%nat
  end.

(* ================================================================== *)
(** * src/index.js: dates, numbers and type checks *)

(** [[
export function timeAgo(date) {
  const now = new Date();
  const target = new Date(date);
  const diffInSeconds = Math.floor((now - target) / 1000);

  const intervals = [
    { label: 'year', seconds: 31536000 },
    { label: 'month', seconds: 2592000 },
    { label: 'day', seconds: 86400 },
    { label: 'hour', seconds: 3600 },
    { label: 'minute', seconds: 60 },
    { label: 'second', seconds: 1 }
  ];

  for (const interval of intervals) {
    const count = Math.floor(diffInSeconds / interval.seconds);
    if (count > 0) {
      return `${count} ${interval.label}${count !== 1 ? 's' : ''} ago`;
    }
  }
  return 'just now';
}
]]
    The argument is taken as the time value of [new Date(date)], in
    milliseconds; [None] is an invalid date, whose time value is [NaN], and
    so are the difference and every count computed from it. *)
Definition intervals : list (string * Z) :=
  [("year"%string, 31536000); ("month"%string, 2592000); ("day"%string, 86400);
   ("hour"%string, 3600); ("minute"%string, 60); ("second"%string, 1)].

(** [`${count} ${label}${count !== 1 ? 's' : ''} ago`] *)
Definition ago (count : Z) (label : string) : string :=
  Str.of_text
    (JSON.int_text count ++ " "%char :: JSON.chars label
     ++ JSON.chars (if count =? 1 then "" else "s") ++ JSON.chars " ago").

Fixpoint timeAgo_scan (diffInSeconds : option Z) (intervals : list (string * Z))
  : string :=
  match intervals with
  | [] => "just now"
  | (label, seconds) :: rest =>
      match diffInSeconds with
      | Some diff =>
          let count := diff / seconds in
          if 0 <? count then ago count label
          else timeAgo_scan diffInSeconds rest
      | None => timeAgo_scan diffInSeconds rest
      end
  end.

Definition timeAgo (date : option Z) : M string :=
  now <- Date_getTime ;;
  let diffInSeconds :=
    match date with
    | Some target => Some ((now - target) / 1000)
    | None => None
    end in
  ret (timeAgo_scan diffInSeconds intervals).

(** The span of seconds each unit is used for; the years have no end. *)
Definition unit_spans : list (string * Z * option Z) :=
  [("second"%string, 1, Some 60); ("minute"%string, 60, Some 3600);
   ("hour"%string, 3600, Some 86400); ("day"%string, 86400, Some 2592000);
   ("month"%string, 2592000, Some 31536000); ("year"%string, 31536000, None)].

Definition before (d : Z) (limit : option Z) : Prop :=
  match limit with
  | Some l => d < l
  | None => True
  end.

(** ** Numbers: [Math.max] and [Math.min] *)

Module Math.
Import Num.

(** [a < b]; a comparison with [NaN] is false. *)
Definition lt (a b : Number) : bool :=
  match a, b with
  | NaN, _ | _, NaN => false
  | _, NegInfinity => false
  | NegInfinity, _ => true
  | PosInfinity, _ => false
  | _, PosInfinity => true
  | Finite m1 x1, Finite m2 x2 =>
      let k := Z.min x1 x2 in
      m1 * 10 ^ (x1 - k) <? m2 * 10 ^ (x2 - k)
  end.

Definition is_nan (a : Number) : bool :=
  match a with
  | NaN => true
  | _ => false
  end.

(** [Math.max(a, b)] and [Math.min(a, b)]: [NaN] when an argument is. *)
Definition max (a b : Number) : Number :=
  if is_nan a || is_nan b then NaN else if lt a b then b else a.

Definition min (a b : Number) : Number :=
  if is_nan a || is_nan b then NaN else if lt b a then b else a.

End Math.

(** [[
export function clamp(num, min, max) {
  return Math.min(Math.max(num, min), max);
}
]] *)
Definition clamp (num min max : Num.Number) : Num.Number :=
  Math.min (Math.max num min) max.

(** ** Objects *)

(** The keys [0 .. n-1] of a string or an array of length [n]. *)
Definition index_keys (n : nat) : list string :=
  map (fun i => Str.of_text (JSON.nat_text (N.of_nat i))) (seq 0 n).

(** [Object.keys(obj)] *)
Definition Object_keys (obj : JsVal) : Completion (list string) :=
  match obj with
  | JUndefined | JNull => Throw TypeError
  | JBool _ | JNum _ | JDec _ _ => Normal []
  | JStr s => Normal (index_keys (String.length s))
  | JArr items => Normal (index_keys (List.length items))
  | JObj props => Normal (map fst props)
  end.

(** [obj.constructor === Object]: an object made by a literal or by
    [JSON.parse] inherits [Object] as its constructor unless a property of
    its own hides it; the constructor of a number, a string, a boolean or
    an array is another function. *)
Definition constructor_is_Object (obj : JsVal) : bool :=
  match obj with
  | JObj props => negb (JSON.has_key "constructor" props)
  | _ => false
  end.

(** [[
export function isEmpty(obj) {
  return obj && Object.keys(obj).length === 0 && obj.constructor === Object;
}
]] *)
Definition isEmpty (obj : JsVal) : Completion JsVal :=
  if ToBoolean obj then
    match Object_keys obj with
    | Normal keys =>
        if (List.length keys =? 0)%nat
        then Normal (JBool (constructor_is_Object obj))
        else Normal (JBool false)
    | Throw e => Throw e
    end
  else Normal obj.

(* ================================================================== *)
(** * src/index.js: arrays and objects *)

(** ** Sets

    A [Set] holds its values in the order they were added; two values are
    one when they are the same primitive ([SameValueZero]).  An object or
    an array is the same as itself only, and the values of [JsVal] carry
    no identity: the arrays given to [uniqueArray] hold primitives. *)
Definition number_of (v : JsVal) : option Num.Number :=
  match v with
  | JNum z => Some (Num.Finite z 0)
  | JDec m e => Some (Num.Finite m (- Z.pos e))
  | _ => None
  end.

Definition SameValueZero (a b : JsVal) : bool :=
  match a, b with
  | JUndefined, JUndefined => true
  | JNull, JNull => true
  | JBool x, JBool y => Bool.eqb x y
  | JStr x, JStr y => String.eqb x y
  | _, _ =>
      match number_of a, number_of b with
      | Some x, Some y => negb (Math.lt x y) && negb (Math.lt y x)
      | _, _ => false
      end
  end.

Definition primitive (v : JsVal) : bool :=
  match v with
  | JArr _ | JObj _ => false
  | _ => true
  end.

Definition Set_has (s : list JsVal) (v : JsVal) : bool := existsb (SameValueZero v) s.

Definition Set_add (s : list JsVal) (v : JsVal) : list JsVal :=
  if Set_has s v then s else s ++ [v].

(** [new Set(arr)] *)
Definition Set_of (arr : list JsVal) : list JsVal := fold_left Set_add arr [].

(** [[
export function uniqueArray(arr) {
  return [...new Set(arr)];
}
]] *)
Definition uniqueArray (arr : list JsVal) : list JsVal := Set_of arr.

(** No two values of the list are the same value. *)
Fixpoint distinct (l : list JsVal) : bool :=
  match l with
  | [] => true
  | v :: r => negb (Set_has r v) && distinct r
  end.

(** ** Joining

    [items.join(sep)]: [null] and [undefined] give the empty text, any
    other item its [ToString]. *)
Definition item_text (v : JsVal) : Completion Str.text :=
  match v with
  | JUndefined | JNull => Normal []
  | _ => Num.ToString v
  end.

Fixpoint texts (items : list JsVal) : Completion (list Str.text) :=
  match items with
  | [] => Normal []
  | v :: r =>
      match item_text v with
      | Normal t =>
          match texts r with
          | Normal ts => Normal (t :: ts)
          | Throw e => Throw e
          end
      | Throw e => Throw e
      end
  end.

Fixpoint join_with (sep : Str.text) (parts : list Str.text) : Str.text :=
  match parts with
  | [] => []
  | [p] => p
  | p :: rest => p ++ sep ++ join_with sep rest
  end.

Definition Array_join (items : list JsVal) (sep : string) : Completion string :=
  match texts items with
  | Normal ts => Normal (Str.of_text (join_with (JSON.chars sep) ts))
  | Throw e => Throw e
  end.

(** [[
export function classNames(...args) {
  return args.filter(Boolean).join(" ");
}
]] *)
Definition classNames (args : list JsVal) : Completion string :=
  Array_join (List.filter ToBoolean args) " ".

(** The class names among the arguments: the strings that are not empty. *)
Definition names_of (args : list JsVal) : list Str.text :=
  flat_map (fun v => match v with
                     | JStr s => if ToBoolean v then [JSON.chars s] else []
                     | _ => []
                     end) args.

(** An argument that is a class name free of blanks, or a falsy value. *)
Definition name_or_falsy (v : JsVal) : bool :=
  match v with
  | JStr s => forallb (fun c => negb (char_is " "%char c)) (JSON.chars s)
  | _ => negb (ToBoolean v)
  end.

(** ** Query strings *)

(** [encodeURIComponent]: the unreserved characters stand for themselves,
    every other byte of the UTF-8 text is written [%XX]. *)
Definition unreserved (c : ascii) : bool :=
  Str.is_upper c || Str.is_lower c || RegExp.digit c
  || existsb (Ascii.eqb c)
       ["-"%char; "_"%char; "."%char; "!"%char; "~"%char; "*"%char; "'"%char;
        "("%char; ")"%char].

Definition HEX (n : N) : ascii :=
  if (n <? 10)%N then ascii_of_N (48 + n) else ascii_of_N (55 + n).

Definition percent (c : ascii) : Str.text :=
  if unreserved c then [c]
  else ["%"%char; HEX (N_of_ascii c / 16); HEX (N_of_ascii c mod 16)].

Definition encodeURIComponent (t : Str.text) : Str.text := flat_map percent t.

(** [Object.entries(params)] of an object. *)
Definition Object_entries (params : JsVal) : Completion (list (string * JsVal)) :=
  match params with
  | JUndefined | JNull => Throw TypeError
  | JBool _ | JNum _ | JDec _ _ => Normal []
  | JStr s =>
      Normal (combine (index_keys (String.length s))
                (map (fun c => JStr (String c EmptyString)) (JSON.chars s)))
  | JArr items => Normal (combine (index_keys (List.length items)) items)
  | JObj props => Normal props
  end.

(** [value !== null && value !== undefined && value !== ''] *)
Definition given (kv : string * JsVal) : bool :=
  match snd kv with
  | JNull | JUndefined | JStr EmptyString => false
  | _ => true
  end.

(** [`${encodeURIComponent(key)}=${encodeURIComponent(value)}`] *)
Definition pair_text (kv : string * JsVal) : Completion Str.text :=
  match Num.ToString (snd kv) with
  | Normal t =>
      Normal (encodeURIComponent (JSON.chars (fst kv)) ++ "="%char :: encodeURIComponent t)
  | Throw e => Throw e
  end.

Fixpoint pair_texts (entries : list (string * JsVal)) : Completion (list Str.text) :=
  match entries with
  | [] => Normal []
  | kv :: r =>
      match pair_text kv with
      | Normal t =>
          match pair_texts r with
          | Normal ts => Normal (t :: ts)
          | Throw e => Throw e
          end
      | Throw e => Throw e
      end
  end.

(** [[
export function buildQueryString(params) {
  return Object.entries(params)
    .filter(([key, value]) => value !== null && value !== undefined && value !== '')
    .map(([key, value]) => `${encodeURIComponent(key)}=${encodeURIComponent(value)}`)
    .join('&');
}
]] *)
Definition buildQueryString (params : JsVal) : Completion string :=
  match Object_entries params with
  | Normal entries =>
      match pair_texts (List.filter given entries) with
      | Normal ts => Normal (Str.of_text (join_with ["&"%char] ts))
      | Throw e => Throw e
      end
  | Throw e => Throw e
  end.

(** ** Cloning *)

(** [cloned[key] = value] on an object made by [{}]: the key [__proto__]
    is the accessor of [Object.prototype] and adds no property; any other
    key is defined, or overwritten, as a property of the object. *)
Definition assign (cloned : list (string * JsVal)) (kv : string * JsVal)
  : list (string * JsVal) :=
  if String.eqb (fst kv) "__proto__" then cloned else JSON.define_prop cloned kv.

(** [[
export function deepClone(obj) {
  if (obj === null || typeof obj !== 'object') return obj;
  if (obj instanceof Date) return new Date(obj.getTime());
  if (obj instanceof Array) return obj.map(item => deepClone(item));
  if (typeof obj === 'object') {
    const cloned = {};
    Object.keys(obj).forEach(key => {
      cloned[key] = deepClone(obj[key]);
    });
    return cloned;
  }
}
]]
    [JsVal] has no dates; the properties of the clone are its own. *)
Fixpoint deepClone (obj : JsVal) : JsVal :=
  match obj with
  | JArr items => JArr (map deepClone items)
  | JObj props =>
      JObj (fold_left assign (map (fun kv => (fst kv, deepClone (snd kv))) props) [])
  | _ => obj
  end.

(** A value as JavaScript holds it: the properties of every object are in
    the order of [Object.keys], each key once, and none is [__proto__]. *)
Fixpoint settled (v : JsVal) : Prop :=
  match v with
  | JArr items => fold_right (fun x rest => settled x /\ rest) True items
  | JObj props =>
      JSON.build_object props = props /\
      JSON.has_key "__proto__" props = false /\
      fold_right (fun kv rest => settled (snd kv) /\ rest) True props
  | _ => True
  end.

(** The number of times a character occurs in a string. *)
Definition occurrences (c : ascii) (s : string) : nat :=
  List.length (List.filter (char_is c) (JSON.chars s)).

(** The characters of an encoded component. *)
Definition encoded_char (c : ascii) : bool := unreserved c || char_is "%"%char c.

(** A component: encoded characters, none of them a separator. *)
Definition component (t : Str.text) : Prop :=
  Forall (fun x => encoded_char x = true /\ char_is "="%char x = false
                   /\ char_is "&"%char x = false) t.

(** What a pair is made of: two components around one equals sign. *)
Definition pair_shape (t : Str.text) : Prop :=
  exists k v, t = k ++ "="%char :: v /\ component k /\ component v.

(* ================================================================== *)
(** * src/index.js: functions over functions *)

(** ** memoize

    The function given to [memoize] works on a state of its own, [W]; it
    returns or throws, and it does not call the memoized function. *)
Module Memo.
Section Memo.
Context {W : Type}.

Definition Fn : Type := list JsVal -> W -> Completion JsVal * W.

(** The closure of [memoize(fn)]: the [Map] it keeps, the state of [fn],
    and the argument lists [fn] was called with, latest first. *)
Record t : Type := {
  cache : gmap string JsVal;
  world : W;
  invoked : list (list JsVal)
}.

Definition fresh (w : W) : t := {| cache := ∅; world := w; invoked := [] |}.

(** [JSON.stringify(args)] *)
Definition key_of (args : list JsVal) : string := JSON_stringify (JArr args).

End Memo.
Arguments t W : clear implicits.
End Memo.

(** [[
export function memoize(fn) {
  const cache = new Map();
  return (...args) => {
    const key = JSON.stringify(args);
    if (cache.has(key)) {
      return cache.get(key);
    }
    const result = fn(...args);
    cache.set(key, result);
    return result;
  };
}
]]
    [memoize fn args] is one call of the function that [memoize(fn)]
    returns. *)
Definition memoize {W} (fn : Memo.Fn) (args : list JsVal) (m : Memo.t W)
  : Completion JsVal * Memo.t W :=
  let key := Memo.key_of args in
  match Memo.cache m !! key with
  | Some result => (Normal result, m)
  | None =>
      match fn args (Memo.world m) with
      | (Normal result, w) =>
          (Normal result,
           {| Memo.cache := <[key := result]> (Memo.cache m);
              Memo.world := w;
              Memo.invoked := args :: Memo.invoked m |})
      | (Throw e, w) =>
          (Throw e,
           {| Memo.cache := Memo.cache m;
              Memo.world := w;
              Memo.invoked := args :: Memo.invoked m |})
      end
  end.

(** The closure after a series of calls, whatever they returned. *)
Definition memoize_calls {W} (fn : Memo.Fn) (calls : list (list JsVal)) (m : Memo.t W)
  : Memo.t W :=
  fold_left (fun m args => snd (memoize fn args m)) calls m.

(** The calls of [fn] so far all have their results in the cache, each
    under a key of its own. *)
Definition once {W} (m : Memo.t W) : Prop :=
  List.NoDup (map Memo.key_of (Memo.invoked m)) /\
  forall args, In args (Memo.invoked m) ->
    Memo.cache m !! Memo.key_of args <> None.

(** ** retryAsync *)

(** [await fn()] inside [try]: the value, the error caught, or a promise
    that stays pending. *)
Inductive Outcome : Type :=
| Value (v : JsVal)
| Caught (error : Exn)
| Never.

(** [[
export function sleep(ms) {
  return new Promise((resolve) => setTimeout(resolve, ms));
}
]]
    What a run of [retryAsync] does, in order: calls of [fn], each with
    its outcome, and waits on the promise of [sleep(ms)]. *)
Inductive Step : Type :=
| Attempt (outcome : Outcome)
| Sleep (ms : Z).

Module Retry.
Section Retry.
Context {W : Type}.

(** [fn]: called in a state, it throws or returns a promise, and leaves
    the state in which that promise is settled. *)
Definition Fn : Type := W -> Completion Promise * W.

Record t : Type := { world : W; steps : list Step }.

Definition start (w : W) : t := {| world := w; steps := [] |}.

Definition attempt (fn : Fn) (s : t) : Outcome * t :=
  let '(r, w) := fn (world s) in
  let outcome :=
    match r with
    | Normal (Fulfilled v) => Value v
    | Normal (Rejected e) | Throw e => Caught e
    | Normal Pending => Never
    end in
  (outcome, {| world := w; steps := steps s ++ [Attempt outcome] |}).

(** [await sleep(ms)] *)
Definition sleep (ms : Z) (s : t) : t :=
  {| world := world s; steps := steps s ++ [Sleep ms] |}.

(** The body of [retryAsync] with [retries] a natural number. *)
Fixpoint run (fn : Fn) (retries : nat) (delay : Z) (s : t) : Promise * t :=
  match attempt fn s with
  | (Value v, s1) => (Fulfilled v, s1)
  | (Never, s1) => (Pending, s1)
  | (Caught error, s1) =>
      match retries with
      | S retries' => run fn retries' (delay * 2) (sleep delay s1)
      | O => (Rejected error, s1)
      end
  end.

End Retry.
Arguments t W : clear implicits.
End Retry.

(** [[
export async function retryAsync(fn, retries = 3, delay = 1000) {
  try {
    return await fn();
  } catch (error) {
    if (retries > 0) {
      await sleep(delay);
      return retryAsync(fn, retries - 1, delay * 2); // Exponential backoff
    }
    throw error;
  }
}
]]
    [retries] is a whole number: a number that is not positive allows no
    retry, a positive one that many. *)
Definition retryAsync {W} (fn : Retry.Fn) (retries delay : option Z) (s : Retry.t W)
  : Promise * Retry.t W :=
  Retry.run fn (Z.to_nat (default 3 retries)) (default 1000 delay) s.

(** The steps of a run whose attempts failed with [errors] before a last
    attempt came out as [last]: after each failure a wait, the waits
    doubling from [delay]. *)
Fixpoint schedule (errors : list Exn) (last : Outcome) (delay : Z) : list Step :=
  match errors with
  | [] => [Attempt last]
  | e :: rest => Attempt (Caught e) :: Sleep delay :: schedule rest last (delay * 2)
  end.

(** The promise of a run whose last attempt came out as [last]. *)
Definition settles (last : Outcome) : Promise :=
  match last with
  | Value v => Fulfilled v
  | Caught e => Rejected e
  | Never => Pending
  end.

Fixpoint time_slept (steps : list Step) : Z :=
  match steps with
  | [] => 0
  | Attempt _ :: r => time_slept r
  | Sleep ms :: r => ms + time_slept r
  end.

(** A function that counts its calls and returns the count. *)
Definition counting : @Memo.Fn nat :=
  fun _ n => (Normal (JNum (Z.of_nat n)), S n).

(* ================================================================== *)
(** * Timers

    [setTimeout] and [clearTimeout] over the timers that wait, and the
    loop that runs them.  A timer carries what it is to run as a value of
    [J]; the page says what running it does.  The calls that the page
    makes at one instant are one task, and no timer runs inside a task;
    between two instants the loop is idle, so that a timer runs at the
    time it is due, before the task of that time or of a later one, and
    the timers due at the same time run in the order they were set. *)
Module Timers.
Section Timers.
Context {J : Type}.

Record Timer : Type := { id : positive; due : Z; job : J }.

Record t : Type := { now : Z; next : positive; waiting : list Timer }.

Definition fresh (time : Z) : t := {| now := time; next := 1%positive; waiting := [] |}.

(** [setTimeout(job, delay)]: a delay below zero is zero. *)
Definition setTimeout (j : J) (delay : Z) (l : t) : positive * t :=
  (next l,
   {| now := now l;
      next := Pos.succ (next l);
      waiting := waiting l ++ [{| id := next l; due := now l + Z.max delay 0; job := j |}] |}).

(** [clearTimeout(id)]: nothing happens when [id] is [undefined] or names
    no waiting timer. *)
Definition clearTimeout (i : option positive) (l : t) : t :=
  match i with
  | None => l
  | Some i =>
      {| now := now l;
         next := next l;
         waiting := List.filter (fun tm => negb (Pos.eqb (id tm) i)) (waiting l) |}
  end.

(** The timer to run next among those due by [time]. *)
Definition first_due (time : Z) (ts : list Timer) : option Timer :=
  fold_left
    (fun best tm =>
       if due tm <=? time then
         match best with
         | None => Some tm
         | Some b => if due tm <? due b then Some tm else best
         end
       else best)
    ts None.

(** The timers without the one that runs, at the time it runs. *)
Definition taken (tm : Timer) (l : t) : t :=
  {| now := Z.max (now l) (due tm);
     next := next l;
     waiting := List.filter (fun x => negb (Pos.eqb (id x) (id tm))) (waiting l) |}.

Definition at_time (time : Z) (l : t) : t :=
  {| now := Z.max (now l) time; next := next l; waiting := waiting l |}.

Section Loop.
Context {St : Type}.
Variable timers : St -> t.
Variable with_timers : t -> St -> St.
Variable fire : J -> St -> St.

(** Run the timers due by [time], at most [fuel] of them. *)
Fixpoint run (fuel : nat) (time : Z) (s : St) : St :=
  match fuel with
  | O => s
  | S fuel' =>
      match first_due time (waiting (timers s)) with
      | None => s
      | Some tm => run fuel' time (fire (job tm) (with_timers (taken tm (timers s)) s))
      end
  end.

(** Time passes until [time].  The jobs of this file set no timer, so no
    more timers run than were waiting. *)
Definition advance_to (time : Z) (s : St) : St :=
  let s1 := run (List.length (waiting (timers s))) time s in
  with_timers (at_time time (timers s1)) s1.

(** The page makes a call at [time].  When time has passed since the last
    call, the timers due by now have run; a call at the instant of the
    last one is in the same task, and nothing has run in between. *)
Definition arrive (time : Z) (s : St) : St :=
  if now (timers s) <? time then advance_to time s else s.

End Loop.
End Timers.
Arguments Timer J : clear implicits.
Arguments t J : clear implicits.
End Timers.

(* ================================================================== *)
(** * src/index.js: debounce and throttle *)

(** A call of a function of the page at a time, with its arguments. *)
Definition Event : Type := (Z * list JsVal)%type.



(** [[
export function debounce(func, delay = 300) {
  let timeout;
  return (...args) => {
    clearTimeout(timeout);
    timeout = setTimeout(() => func(...args), delay);
  };
}
]]
    The closure holds [timeout]; a timer carries the arguments [func] is
    to be called with, and [called] lists the calls of [func] with their
    times, oldest first.  [func] does not call the debounced function. *)
Module Debounce.

Record t : Type := {
  timers : Timers.t (list JsVal);
  timeout : option positive;
  called : list Event
}.

Definition fresh (time : Z) : t :=
  {| timers := Timers.fresh time; timeout := None; called := [] |}.

Definition with_timers (l : Timers.t (list JsVal)) (s : t) : t :=
  {| timers := l; timeout := timeout s; called := called s |}.

(** [() => func(...args)] *)
Definition fire (args : list JsVal) (s : t) : t :=
  {| timers := timers s;
     timeout := timeout s;
     called := called s ++ [(Timers.now (timers s), args)] |}.

Definition advance_to : Z -> t -> t := Timers.advance_to timers with_timers fire.

Definition arrive : Z -> t -> t := Timers.arrive timers with_timers fire.



End Debounce.

(** One call of the function that [debounce(func, delay)] returns. *)
Definition debounce (delay : option Z) (args : list JsVal) (s : Debounce.t)
  : Debounce.t :=
  let delay := default 300 delay in
  let cleared := Timers.clearTimeout (Debounce.timeout s) (Debounce.timers s) in
  let '(i, l) := Timers.setTimeout args delay cleared in
  {| Debounce.timers := l; Debounce.timeout := Some i; Debounce.called := Debounce.called s |}.

(** The page calls the debounced function at the times of the events. *)
Definition debounce_play (delay : option Z) (events : list Event) (s : Debounce.t)
  : Debounce.t :=
  fold_left (fun s ev => debounce delay (snd ev) (Debounce.arrive (fst ev) s))
    events s.


(** [[
export function throttle(func, limit) {
  let inThrottle;
  return function(...args) {
    if (!inThrottle) {
      func.apply(this, args);
      inThrottle = true;
      setTimeout(() => inThrottle = false, limit);
    }
  };
}
]]
    The closure holds [inThrottle]; the only job of a timer is to reset
    it.  [func] returns or throws, and does not call the throttled
    function. *)
Module Throttle.

Record t : Type := {
  timers : Timers.t unit;
  inThrottle : bool;
  called : list Event
}.

Definition fresh (time : Z) : t :=
  {| timers := Timers.fresh time; inThrottle := false; called := [] |}.

Definition with_timers (l : Timers.t unit) (s : t) : t :=
  {| timers := l; inThrottle := inThrottle s; called := called s |}.

(** [() => inThrottle = false] *)
Definition fire (_ : unit) (s : t) : t :=
  {| timers := timers s; inThrottle := false; called := called s |}.

Definition advance_to : Z -> t -> t := Timers.advance_to timers with_timers fire.

Definition arrive : Z -> t -> t := Timers.arrive timers with_timers fire.



End Throttle.

(** One call of the function that [throttle(func, limit)] returns. *)
Definition throttle (func : list JsVal -> Completion JsVal) (limit : Z)
    (args : list JsVal) (s : Throttle.t) : Completion unit * Throttle.t :=
  if Throttle.inThrottle s then (Normal tt, s)
  else
    let called := Throttle.called s ++ [(Timers.now (Throttle.timers s), args)] in
    match func args with
    | Throw e =>
        (Throw e,
         {| Throttle.timers := Throttle.timers s;
            Throttle.inThrottle := Throttle.inThrottle s;
            Throttle.called := called |})
    | Normal _ =>
        (Normal tt,
         {| Throttle.timers := snd (Timers.setTimeout tt limit (Throttle.timers s));
            Throttle.inThrottle := true;
            Throttle.called := called |})
    end.

Definition throttle_play (func : list JsVal -> Completion JsVal) (limit : Z)
    (events : list Event) (s : Throttle.t) : Throttle.t :=
  fold_left (fun s ev => snd (throttle func limit (snd ev) (Throttle.arrive (fst ev) s)))
    events s.


(* ================================================================== *)
(** * src/index.js: groupBy *)

(** The members every object inherits from [Object.prototype]: eleven
    functions and the accessor [__proto__]. *)
Definition Object_prototype : list string :=
  ["constructor"; "__defineGetter__"; "__defineSetter__"; "hasOwnProperty";
   "__lookupGetter__"; "__lookupSetter__"; "isPrototypeOf"; "propertyIsEnumerable";
   "toString"; "valueOf"; "__proto__"; "toLocaleString"]%string.

Definition inherited (key : string) : bool := existsb (String.eqb key) Object_prototype.

(** A plain object, by its own properties. *)
Definition Obj : Type := list (string * JsVal).

(** [String(item[key])], the name of the group of [item]: the text of the
    property when [item] has it, of [undefined] when [key] names nothing.
    [None] when [key] names an inherited member, a function whose text is
    the engine's. *)
Definition group_name (key : string) (item : Obj) : option (Completion string) :=
  if JSON.has_key key item then
    Some match Num.ToString (lookup_prop key item) with
         | Normal t => Normal (Str.of_text t)
         | Throw e => Throw e
         end
  else if inherited key then None
  else Some (Normal "undefined"%string).

(** [[
    groups[group] = groups[group] || [];
    groups[group].push(item);
]]
    on the object [groups], which starts as [{}] and holds arrays.  A
    group named like a member of [Object.prototype] finds that member,
    which is truthy and has no [push]. *)
Definition push_group (groups : Obj) (group : string) (item : Obj) : Completion Obj :=
  if JSON.has_key group groups then
    let current := lookup_prop group groups in
    match (if ToBoolean current then current else JArr []) with
    | JArr items => Normal (JSON.replace_prop group (JArr (items ++ [JObj item])) groups)
    | _ => Throw TypeError
    end
  else if inherited group then Throw TypeError
  else Normal (JSON.define_prop groups (group, JArr [JObj item])).

Fixpoint group_all (key : string) (groups : Obj) (array : list Obj)
  : option (Completion Obj) :=
  match array with
  | [] => Some (Normal groups)
  | item :: rest =>
      match group_name key item with
      | None => None
      | Some (Throw e) => Some (Throw e)
      | Some (Normal group) =>
          match push_group groups group item with
          | Normal groups' => group_all key groups' rest
          | Throw e => Some (Throw e)
          end
      end
  end.

(** [[
export function groupBy(array, key) {
  return array.reduce((groups, item) => {
    const group = item[key];
    groups[group] = groups[group] || [];
    groups[group].push(item);
    return groups;
  }, {});
}
]]
    for an array of plain objects. *)
Definition groupBy (array : list Obj) (key : string) : option (Completion JsVal) :=
  match group_all key [] array with
  | Some (Normal groups) => Some (Normal (JObj groups))
  | Some (Throw e) => Some (Throw e)
  | None => None
  end.

(** The items of the group [group], in the order of the array. *)
Definition in_group (key group : string) (item : Obj) : bool :=
  match group_name key item with
  | Some (Normal g) => String.eqb g group
  | _ => false
  end.

Definition members (key group : string) (array : list Obj) : list Obj :=
  List.filter (in_group key group) array.

(** Every item has a group, and none is named like an inherited member. *)
Definition groupable (key : string) (item : Obj) : Prop :=
  exists group, group_name key item = Some (Normal group) /\ inherited group = false.

(** The value of a group: [undefined] while it has no item. *)
Definition group_value (items : list Obj) : JsVal :=
  match items with
  | [] => JUndefined
  | _ => JArr (map JObj items)
  end.

(** [groups] holds the items of [seen], each under the name of its group. *)
Definition grouped (key : string) (seen : list Obj) (groups : Obj) : Prop :=
  forall group,
    lookup_prop group groups = group_value (members key group seen) /\
    JSON.has_key group groups
      = match members key group seen with [] => false | _ => true end.

(* ================================================================== *)
(** * src/index.js: getNestedProperty *)

(** [path.split(sep)] for a separator of one character: the pieces
    between the separators, empty ones included; the empty path is one
    empty piece. *)
Fixpoint split_at (sep : ascii) (piece : Str.text) (t : Str.text) : list Str.text :=
  match t with
  | [] => [rev piece]
  | c :: r =>
      if Ascii.eqb c sep then rev piece :: split_at sep [] r
      else split_at sep (c :: piece) r
  end.

Definition String_split (path : string) (sep : ascii) : list string :=
  map Str.of_text (split_at sep [] (JSON.chars path)).

(** The functions that numbers inherit besides those of every object. *)
Definition Number_prototype : list string :=
  ["toExponential"; "toFixed"; "toPrecision"]%string.

(** [current[key]] for a [current] that is not [null] or [undefined]: a
    property of its own, an item or the length of an array or a string,
    or [undefined] when the key names nothing.  [None] when the key names,
    or may name, a member inherited from a prototype: a value that
    [JsVal] does not hold. *)
Definition member (current : JsVal) (key : string) : option JsVal :=
  match current with
  | JUndefined | JNull => None
  | JObj props =>
      if JSON.has_key key props then Some (lookup_prop key props)
      else if inherited key then None
      else Some JUndefined
  | JArr items =>
      match JSON.array_index key with
      | Some n => Some (nth (N.to_nat n) items JUndefined)
      | None =>
          if String.eqb key "length" then Some (JNum (Z.of_nat (List.length items)))
          else None
      end
  | JStr s =>
      match JSON.array_index key with
      | Some n =>
          Some match nth_error (JSON.chars s) (N.to_nat n) with
               | Some c => JStr (String c EmptyString)
               | None => JUndefined
               end
      | None =>
          if String.eqb key "length" then Some (JNum (Z.of_nat (String.length s)))
          else None
      end
  | JBool _ | JNum _ | JDec _ _ =>
      if inherited key || existsb (String.eqb key) Number_prototype then None
      else Some JUndefined
  end.

(** [current?.[key]] *)
Definition optional_member (current : option JsVal) (key : string) : option JsVal :=
  match current with
  | None => None
  | Some JUndefined | Some JNull => Some JUndefined
  | Some v => member v key
  end.

(** [value ?? defaultValue] *)
Definition nullish_or (value defaultValue : JsVal) : JsVal :=
  match value with
  | JUndefined | JNull => defaultValue
  | _ => value
  end.

(** [[
export function getNestedProperty(obj, path, defaultValue = undefined) {
  return path.split('.').reduce((current, key) => current?.[key], obj) ?? defaultValue;
}
]] *)
Definition getNestedProperty (obj : JsVal) (path : string) (defaultValue : JsVal)
  : option JsVal :=
  match fold_left optional_member (String_split path "."%char) (Some obj) with
  | Some value => Some (nullish_or value defaultValue)
  | None => None
  end.

(* ================================================================== *)
(** * JSON text: parsing what was serialised *)

Module JSONFacts.
Import JSON.

(** ** Numbers *)

Lemma scan_digits_text (u : Decimal.uint) (rest : text) :
  match rest with [] => True | c :: _ => is_digit c = false end ->
  scan_digits (uint_text u ++ rest) = (u, rest).
Proof.
  intros Hrest.
  induction u; simpl; try (rewrite IHu; reflexivity).
  destruct rest as [|c r]; [reflexivity|].
  simpl. unfold is_digit in Hrest. destruct (digit_of c); [discriminate | reflexivity].
Qed.

Lemma to_uint_normal (n : N) : Decimal.unorm (N.to_uint n) = N.to_uint n.
Proof.
  rewrite <- (DecimalN.Unsigned.to_of (N.to_uint n)).
  now rewrite DecimalN.Unsigned.of_to.
Qed.

Lemma to_uint_not_nil (n : N) : N.to_uint n <> Decimal.Nil.
Proof. rewrite <- to_uint_normal. apply DecimalFacts.unorm_nonnil. Qed.

(** A digit string is free of leading zeros when it is its own [nzhead],
    and so is the single digit zero. *)
Lemma nzhead_no_leading_zero (u : Decimal.uint) :
  Decimal.nzhead u = u -> leading_zero u = false.
Proof.
  intros H. destruct u; try reflexivity.
  exfalso. eapply DecimalFacts.nzhead_nonzero; exact H.
Qed.

Lemma to_uint_cases (n : N) :
  N.to_uint n = Decimal.zero \/ Decimal.nzhead (N.to_uint n) = N.to_uint n.
Proof.
  pose proof (to_uint_normal n) as H. unfold Decimal.unorm in H.
  destruct (Decimal.nzhead (N.to_uint n)) eqn:Hz; auto.
Qed.

Lemma to_uint_no_leading_zero (n : N) : leading_zero (N.to_uint n) = false.
Proof.
  destruct (to_uint_cases n) as [-> | H]; [reflexivity|].
  now apply nzhead_no_leading_zero.
Qed.

Lemma closing_not_digit (rest : text) :
  closing rest -> match rest with [] => True | c :: _ => is_digit c = false end.
Proof.
  destruct rest as [|c r]; [trivial|].
  intros [-> | [-> | ->]]; reflexivity.
Qed.

Lemma closing_no_frac_exp (rest : text) :
  closing rest ->
  parse_frac rest = Some (Decimal.Nil, rest) /\ parse_exp rest = Some (0, rest).
Proof.
  destruct rest as [|c r]; [split; reflexivity|].
  intros [-> | [-> | ->]]; split; reflexivity.
Qed.

Lemma sign_apply_abs (z : Z) : sign_apply (z <? 0) (Z.abs_N z) = z.
Proof.
  unfold sign_apply. rewrite N2Z.inj_abs_N.
  destruct (Z.ltb_spec z 0); lia.
Qed.

(** The parse of an integer part [ui] with no fraction and no exponent. *)
Lemma parse_unsigned_whole (neg : bool) (ui : Decimal.uint) (rest : text) :
  ui <> Decimal.Nil ->
  leading_zero ui = false ->
  closing rest ->
  parse_unsigned neg (uint_text ui ++ rest)
  = Some (JNum (sign_apply neg (N.of_uint ui)), rest).
Proof.
  intros Hn Hz Hc. unfold parse_unsigned.
  rewrite (scan_digits_text _ _ (closing_not_digit _ Hc)).
  destruct (closing_no_frac_exp _ Hc) as [Hfrac Hexp].
  destruct ui eqn:Hu; try congruence;
    rewrite Hz, Hfrac, Hexp, DecimalFacts.app_nil_r;
    unfold scale; simpl; now rewrite Z.mul_1_r.
Qed.

(** The parse of an integer part [ui] and a fraction [uf]. *)
Lemma parse_unsigned_fraction (neg : bool) (ui uf : Decimal.uint) (rest : text) :
  ui <> Decimal.Nil ->
  leading_zero ui = false ->
  uf <> Decimal.Nil ->
  closing rest ->
  parse_unsigned neg (uint_text ui ++ "."%char :: uint_text uf ++ rest)
  = Some (reduce (Decimal.nb_digits uf)
            (sign_apply neg (N.of_uint (Decimal.app ui uf))), rest).
Proof.
  intros Hn Hz Hf Hc. unfold parse_unsigned.
  rewrite scan_digits_text by reflexivity.
  destruct (closing_no_frac_exp _ Hc) as [_ Hexp].
  assert (Hfrac : parse_frac ("."%char :: uint_text uf ++ rest) = Some (uf, rest)).
  { unfold parse_frac. rewrite (scan_digits_text _ _ (closing_not_digit _ Hc)).
    destruct uf; congruence. }
  assert (Hscale : forall m,
             scale m (0 - Z.of_nat (Decimal.nb_digits uf))
             = reduce (Decimal.nb_digits uf) m).
  { intros m. unfold scale.
    assert (Decimal.nb_digits uf <> O) by (destruct uf; simpl; congruence).
    destruct (Z.leb_spec 0 (0 - Z.of_nat (Decimal.nb_digits uf))); [lia|].
    f_equal. lia. }
  destruct ui eqn:Hu; try congruence; rewrite Hz, Hfrac, Hexp; cbv zeta;
    now rewrite Hscale.
Qed.

Lemma uint_text_head (u : Decimal.uint) (rest : text) :
  u <> Decimal.Nil ->
  exists c r, uint_text u ++ rest = c :: r /\ is_digit c = true.
Proof.
  intros Hn. destruct u; try congruence; simpl; eexists _, _; split; reflexivity.
Qed.

(** A number text, signed or not, goes through [parse_unsigned]. *)
Lemma parse_number_signed (neg : bool) (u : Decimal.uint) (rest : text) :
  u <> Decimal.Nil ->
  parse_number ((if neg then ["-"%char] else []) ++ uint_text u ++ rest)
  = parse_unsigned neg (uint_text u ++ rest).
Proof.
  intros Hn. destruct neg; [reflexivity|]. simpl.
  destruct (uint_text_head u rest Hn) as (c & r & -> & Hd).
  destruct c as [[] [] [] [] [] [] [] []]; try discriminate Hd; reflexivity.
Qed.

Lemma parse_number_int (z : Z) (rest : text) :
  closing rest -> parse_number (int_text z ++ rest) = Some (JNum z, rest).
Proof.
  intros Hc.
  replace (int_text z)
    with ((if z <? 0 then ["-"%char] else []) ++ uint_text (N.to_uint (Z.abs_N z)))
    by (unfold int_text, nat_text; now destruct (z <? 0)).
  rewrite <- app_assoc, parse_number_signed by apply to_uint_not_nil.
  rewrite parse_unsigned_whole;
    [| apply to_uint_not_nil | apply to_uint_no_leading_zero | exact Hc].
  now rewrite DecimalN.Unsigned.of_to, sign_apply_abs.
Qed.

(** *** Decimals *)

Section Decimals.
Variable n : N.
Variable k : nat.
Hypothesis k_positive : (1 <= k)%nat.

Let u := N.to_uint n.
Let padded := Nat.iter (S k - Decimal.nb_digits u) Decimal.D0 u.

Lemma padded_digits : (k < Decimal.nb_digits padded)%nat.
Proof. unfold padded. rewrite DecimalFacts.nb_digits_iter_D0. lia. Qed.

Lemma padded_value : N.of_uint padded = n.
Proof.
  unfold padded.
  rewrite <- DecimalN.Unsigned.of_uint_norm, DecimalFacts.unorm_iter_D0.
  rewrite DecimalN.Unsigned.of_uint_norm. apply DecimalN.Unsigned.of_to.
Qed.

Lemma whole_part_not_nil : Decimal.del_tail k padded <> Decimal.Nil.
Proof. apply DecimalFacts.del_tail_nonnil, padded_digits. Qed.

Lemma whole_part_no_leading_zero :
  leading_zero (Decimal.del_tail k padded) = false.
Proof.
  destruct (Nat.le_gt_cases (Decimal.nb_digits u) k) as [Hle | Hgt].
  - (* the digits all go after the point: one zero stands before it *)
    assert (Hone : Decimal.del_tail k padded = Decimal.D0 Decimal.Nil).
    { apply DecimalFacts.to_list_inj. unfold Decimal.del_tail.
      rewrite DecimalFacts.rev_spec, DecimalFacts.del_head_spec_small;
        rewrite DecimalFacts.rev_spec, ?length_rev, <- ?DecimalFacts.nb_digits_spec;
        [| pose proof padded_digits; lia].
      rewrite skipn_rev, rev_involutive, <- DecimalFacts.nb_digits_spec.
      unfold padded at 1. rewrite DecimalFacts.nb_digits_iter_D0.
      replace (S k - Decimal.nb_digits u + Decimal.nb_digits u - k)%nat with 1%nat
        by lia.
      unfold padded. replace (S k - Decimal.nb_digits u)%nat
        with (S (k - Decimal.nb_digits u)) by lia.
      reflexivity. }
    now rewrite Hone.
  - assert (Hp : padded = u).
    { unfold padded. replace (S k - Decimal.nb_digits u)%nat with O by lia.
      reflexivity. }
    rewrite Hp. apply nzhead_no_leading_zero.
    apply DecimalFacts.nzhead_del_tail_nzhead_eq; [|exact Hgt].
    destruct (to_uint_cases n) as [Hz | Hz]; [|exact Hz].
    fold u in Hz. rewrite Hz in Hgt. simpl in Hgt. lia.
Qed.

Lemma fraction_digits :
  Decimal.nb_digits
    (Decimal.del_head (Decimal.nb_digits padded - k) padded) = k.
Proof.
  apply DecimalFacts.nb_digits_del_head_sub. pose proof padded_digits. lia.
Qed.

Lemma parse_unsigned_decimal (neg : bool) (rest : text) :
  closing rest ->
  parse_unsigned neg
    (uint_text (Decimal.del_tail k padded)
     ++ "."%char
        :: uint_text (Decimal.del_head (Decimal.nb_digits padded - k) padded)
     ++ rest)
  = Some (reduce k (sign_apply neg n), rest).
Proof.
  intros Hc.
  rewrite parse_unsigned_fraction;
    [| apply whole_part_not_nil | apply whole_part_no_leading_zero | | exact Hc].
  - rewrite fraction_digits, DecimalFacts.app_del_tail_head, padded_value;
      [reflexivity | pose proof padded_digits; lia].
  - apply DecimalFacts.nb_digits_n0. rewrite fraction_digits. lia.
Qed.

End Decimals.

Lemma parse_number_dec (m : Z) (e : positive) (rest : text) :
  closing rest ->
  parse_number (dec_text m e ++ rest) = Some (reduce (Pos.to_nat e) m, rest).
Proof.
  intros Hc. unfold dec_text.
  rewrite <- !app_assoc, <- app_comm_cons.
  rewrite parse_number_signed by (apply whole_part_not_nil; lia).
  rewrite parse_unsigned_decimal by (lia || exact Hc).
  now rewrite sign_apply_abs.
Qed.

(** ** Strings *)

Lemma parse_quote_char (c : ascii) (t : text) :
  parse_chars (quote_char c ++ t) =
    match parse_chars t with
    | Some (body, rest) => Some (c :: body, rest)
    | None => None
    end.
Proof.
  destruct c as [[] [] [] [] [] [] [] []]; reflexivity.
Qed.

Lemma parse_chars_quoted (cs : text) (rest : text) :
  parse_chars (flat_map quote_char cs ++ dquote :: rest) = Some (cs, rest).
Proof.
  induction cs as [|c cs IH]; [reflexivity|].
  simpl flat_map. rewrite <- app_assoc, parse_quote_char, IH. reflexivity.
Qed.

Lemma parse_string_quote (s : string) (rest : text) :
  exists t, quote s ++ rest = dquote :: t /\ parse_string t = Some (s, rest).
Proof.
  unfold quote. eexists. split.
  - simpl. rewrite <- app_assoc. reflexivity.
  - unfold parse_string. simpl. rewrite parse_chars_quoted.
    unfold chars. now rewrite string_of_list_ascii_of_string.
Qed.

Lemma quote_length (k : string) : (2 <= length (quote k))%nat.
Proof. unfold quote. simpl. rewrite length_app. simpl. lia. Qed.

(** ** First characters *)

Lemma digit_opens (c : ascii) (r : text) : is_digit c = true -> opens (c :: r).
Proof.
  intros Hd. simpl.
  destruct c as [[] [] [] [] [] [] [] []]; try discriminate Hd;
    repeat split; discriminate.
Qed.

Lemma signed_opens (neg : bool) (u : Decimal.uint) (rest : text) :
  u <> Decimal.Nil ->
  opens ((if neg then ["-"%char] else []) ++ uint_text u ++ rest) /\
  exists c r,
    (if neg then ["-"%char] else []) ++ uint_text u ++ rest = c :: r /\
    (c = "-"%char \/ is_digit c = true).
Proof.
  intros Hn. destruct neg.
  - split; [simpl; repeat split; discriminate|]. eexists _, _. split; [reflexivity|].
    now left.
  - destruct (uint_text_head u rest Hn) as (c & r & Heq & Hd). simpl. rewrite Heq.
    split; [now apply digit_opens | eauto].
Qed.

Lemma int_text_head (z : Z) (rest : text) :
  opens (int_text z ++ rest) /\
  exists c r, int_text z ++ rest = c :: r /\ (c = "-"%char \/ is_digit c = true).
Proof.
  replace (int_text z)
    with ((if z <? 0 then ["-"%char] else []) ++ uint_text (N.to_uint (Z.abs_N z)))
    by (unfold int_text, nat_text; now destruct (z <? 0)).
  rewrite <- app_assoc. apply signed_opens, to_uint_not_nil.
Qed.

Lemma dec_text_head (m : Z) (e : positive) (rest : text) :
  opens (dec_text m e ++ rest) /\
  exists c r, dec_text m e ++ rest = c :: r /\ (c = "-"%char \/ is_digit c = true).
Proof.
  unfold dec_text. rewrite <- !app_assoc.
  apply signed_opens, whole_part_not_nil. lia.
Qed.

Lemma opens_app (t rest : text) : opens t -> opens (t ++ rest).
Proof. destruct t; [intros []|exact id]. Qed.

Lemma element_text_opens (v : JsVal) (rest : text) :
  opens (element_text v ++ rest).
Proof.
  destruct v as [| |[]|z|m e|s|items|props]; unfold element_text; simpl;
    try (repeat split; discriminate).
  - apply int_text_head.
  - apply dec_text_head.
Qed.

Lemma opens_length (t rest : text) : opens (t ++ rest) -> t <> [] -> (1 <= length t)%nat.
Proof. destruct t; [congruence | simpl; lia]. Qed.

Lemma element_text_length (v : JsVal) : (1 <= length (element_text v))%nat.
Proof.
  pose proof (element_text_opens v []) as H. rewrite app_nil_r in H.
  destruct (element_text v); [destruct H | simpl; lia].
Qed.

Lemma skip_ws_opens (t : text) : opens t -> skip_ws t = t.
Proof.
  destruct t as [|c r]; [intros []|]. intros (Hws & _). simpl. now rewrite Hws.
Qed.

(** ** Dispatch on the first character *)

Lemma parse_value_number (fuel : nat) (c : ascii) (r : text) :
  c = "-"%char \/ is_digit c = true ->
  parse_value (S fuel) (c :: r) = parse_number (c :: r).
Proof.
  destruct c as [[] [] [] [] [] [] [] []];
    intros [H | H]; try discriminate H; reflexivity.
Qed.

Lemma parse_value_string (fuel : nat) (r : text) :
  parse_value (S fuel) (dquote :: r) =
    match parse_string r with
    | Some (str, r') => Some (JStr str, r')
    | None => None
    end.
Proof. reflexivity. Qed.

Lemma closes_opens (c : ascii) (r : text) :
  opens r -> c = "]"%char \/ c = "}"%char -> closes c r = None.
Proof.
  destruct r as [|c' r]; [intros []|]. intros (Hws & Hb & Hc) Hcase.
  unfold closes. simpl skip_ws. rewrite Hws.
  destruct (Ascii.eqb_spec c' c) as [-> | _]; [|reflexivity].
  destruct Hcase; congruence.
Qed.

Lemma parse_value_array (fuel : nat) (r : text) :
  opens r ->
  parse_value (S fuel) ("["%char :: r) =
    match parse_elements fuel r with
    | Some (items, r') => Some (JArr items, r')
    | None => None
    end.
Proof.
  intros Hr.
  change (parse_value (S fuel) ("["%char :: r)) with
    (match closes "]"%char r with
     | Some r' => Some (JArr [], r')
     | None => match parse_elements fuel r with
               | Some (items, r') => Some (JArr items, r')
               | None => None
               end
     end).
  now rewrite closes_opens by auto.
Qed.

Lemma parse_value_object (fuel : nat) (r : text) :
  parse_value (S fuel) ("{"%char :: dquote :: r) =
    match parse_members fuel (dquote :: r) with
    | Some (props, r') => Some (JObj (build_object props), r')
    | None => None
    end.
Proof. reflexivity. Qed.

(** ** Arrays *)

Lemma join_cons (sep : ascii) (p : text) (rest : list text) :
  rest <> [] -> join sep (p :: rest) = p ++ sep :: join sep rest.
Proof. destruct rest; [congruence | reflexivity]. Qed.

Lemma join_single (sep : ascii) (p : text) : join sep [p] = p.
Proof. reflexivity. Qed.

Lemma length_sep (p q : text) (sep : ascii) :
  length (p ++ sep :: q) = (length p + S (length q))%nat.
Proof. rewrite length_app. reflexivity. Qed.

Lemma parse_elements_more (fuel : nat) (s r : text) (v : JsVal) :
  parse_value fuel s = Some (v, ","%char :: r) ->
  parse_elements (S fuel) s =
    match parse_elements fuel r with
    | Some (items, r') => Some (v :: items, r')
    | None => None
    end.
Proof.
  intros H. change (parse_elements (S fuel) s)
    with (elements_body (parse_value fuel) (parse_elements fuel) s).
  unfold elements_body. rewrite H. reflexivity.
Qed.

Lemma parse_elements_last (fuel : nat) (s r : text) (v : JsVal) :
  parse_value fuel s = Some (v, "]"%char :: r) ->
  parse_elements (S fuel) s = Some ([v], r).
Proof.
  intros H. change (parse_elements (S fuel) s)
    with (elements_body (parse_value fuel) (parse_elements fuel) s).
  unfold elements_body. rewrite H. reflexivity.
Qed.

Lemma parse_elements_texts (items : list JsVal) :
  items <> [] ->
  Forall reads_back items ->
  forall fuel rest,
    (S (length (join ","%char (map element_text items))) <= fuel)%nat ->
    parse_elements fuel
      (join ","%char (map element_text items) ++ "]"%char :: rest)
    = Some (map normal items, rest).
Proof.
  induction items as [|x items IH]; [congruence|].
  intros _ Hrb fuel rest Hfuel.
  inversion Hrb as [|? ? Hrx Hrb']; subst.
  pose proof (element_text_length x) as Hlen.
  destruct fuel as [|fuel]; [lia|].
  change (map element_text (x :: items))
    with (element_text x :: map element_text items) in *.
  change (map normal (x :: items)) with (normal x :: map normal items).
  destruct items as [|y items].
  - change (map element_text []) with (@nil text) in *.
    rewrite join_single in *.
    apply parse_elements_last. apply Hrx; [lia | simpl; auto].
  - assert (Hne : y :: items <> []) by discriminate.
    specialize (IH Hne Hrb').
    rewrite join_cons in * by discriminate.
    rewrite length_sep in Hfuel.
    rewrite <- app_assoc, <- app_comm_cons.
    erewrite parse_elements_more; [| apply Hrx; [lia | simpl; auto]].
    rewrite IH; [reflexivity | lia].
Qed.

(** ** Objects *)

Lemma member_cases (k : string) (x : JsVal) :
  (member (k, x) = [] /\ member_value (k, x) = []) \/
  (member (k, x) = [quote k ++ ":"%char :: element_text x] /\
   member_value (k, x) = [(k, normal x)]).
Proof.
  destruct x as [| |[]| | | | |]; [left | right..]; split; reflexivity.
Qed.

Lemma parse_members_more (fuel : nat) (t r1 r : text) (k : string) (v : JsVal) :
  parse_string t = Some (k, ":"%char :: r1) ->
  parse_value fuel r1 = Some (v, ","%char :: r) ->
  parse_members (S fuel) (dquote :: t) =
    match parse_members fuel r with
    | Some (members, r') => Some ((k, v) :: members, r')
    | None => None
    end.
Proof.
  intros Hk Hv. change (parse_members (S fuel) (dquote :: t))
    with (members_body (parse_value fuel) (parse_members fuel) (dquote :: t)).
  unfold members_body.
  change (closes dquote (dquote :: t)) with (Some t). cbv beta iota. rewrite Hk.
  change (closes ":"%char (":"%char :: r1)) with (Some r1). cbv beta iota.
  rewrite Hv. reflexivity.
Qed.

Lemma parse_members_last (fuel : nat) (t r1 r : text) (k : string) (v : JsVal) :
  parse_string t = Some (k, ":"%char :: r1) ->
  parse_value fuel r1 = Some (v, "}"%char :: r) ->
  parse_members (S fuel) (dquote :: t) = Some ([(k, v)], r).
Proof.
  intros Hk Hv. change (parse_members (S fuel) (dquote :: t))
    with (members_body (parse_value fuel) (parse_members fuel) (dquote :: t)).
  unfold members_body.
  change (closes dquote (dquote :: t)) with (Some t). cbv beta iota. rewrite Hk.
  change (closes ":"%char (":"%char :: r1)) with (Some r1). cbv beta iota.
  rewrite Hv. reflexivity.
Qed.

(** Properties holding [undefined] leave no text and no member. *)
Lemma no_member_texts (props : list (string * JsVal)) :
  flat_map member props = [] -> flat_map member_value props = [].
Proof.
  induction props as [|[k x] props IH]; [reflexivity|].
  change (flat_map member ((k, x) :: props))
    with (member (k, x) ++ flat_map member props).
  change (flat_map member_value ((k, x) :: props))
    with (member_value (k, x) ++ flat_map member_value props).
  destruct (member_cases k x) as [[-> ->] | [-> ->]]; [exact IH | discriminate].
Qed.

Lemma parse_members_texts (props : list (string * JsVal)) :
  Forall (fun kv => reads_back (snd kv)) props ->
  flat_map member props <> [] ->
  forall fuel rest,
    (S (length (join ","%char (flat_map member props))) <= fuel)%nat ->
    parse_members fuel
      (join ","%char (flat_map member props) ++ "}"%char :: rest)
    = Some (flat_map member_value props, rest).
Proof.
  induction props as [|[k x] props IH]; [intros _ Hne; exfalso; now apply Hne|].
  intros Hrb Hne fuel rest Hfuel.
  inversion Hrb as [|? ? Hrx Hrb']; subst. simpl in Hrx.
  specialize (IH Hrb').
  change (flat_map member ((k, x) :: props))
    with (member (k, x) ++ flat_map member props) in *.
  change (flat_map member_value ((k, x) :: props))
    with (member_value (k, x) ++ flat_map member_value props).
  destruct (member_cases k x) as [[Hm Hv] | [Hm Hv]]; rewrite Hm, Hv in *.
  { (* nothing is written for this property *)
    apply IH; assumption. }
  change ([quote k ++ ":"%char :: element_text x] ++ flat_map member props)
    with ((quote k ++ ":"%char :: element_text x) :: flat_map member props) in *.
  change ([(k, normal x)] ++ flat_map member_value props)
    with ((k, normal x) :: flat_map member_value props).
  pose proof (element_text_length x) as Hlen.
  pose proof (quote_length k) as Hq.
  destruct fuel as [|fuel]; [lia|].
  destruct (flat_map member props) as [|t ts] eqn:Hrest.
  - rewrite (no_member_texts _ Hrest).
    rewrite join_single in *. rewrite length_sep in Hfuel.
    rewrite <- app_assoc.
    destruct (parse_string_quote k (":"%char :: element_text x ++ "}"%char :: rest))
      as (t & Hqt & Hps).
    rewrite <- !app_comm_cons. rewrite Hqt.
    eapply parse_members_last; [exact Hps|].
    apply Hrx; [lia | simpl; auto].
  - rewrite join_cons in * by discriminate.
    rewrite !length_sep in Hfuel.
    rewrite <- !app_assoc.
    destruct (parse_string_quote k
                (":"%char :: element_text x ++
                 ","%char :: join ","%char (t :: ts) ++ "}"%char :: rest))
      as (t' & Hqt & Hps).
    rewrite <- !app_comm_cons. rewrite Hqt.
    erewrite parse_members_more;
      [| exact Hps | apply Hrx; [lia | simpl; auto]].
    rewrite IH; [reflexivity | discriminate | lia].
Qed.

Lemma members_head (props : list (string * JsVal)) (more : text) :
  flat_map member props <> [] ->
  exists r, join ","%char (flat_map member props) ++ more = dquote :: r.
Proof.
  induction props as [|[k x] props IH]; [intros Hne; exfalso; now apply Hne|].
  change (flat_map member ((k, x) :: props))
    with (member (k, x) ++ flat_map member props).
  destruct (member_cases k x) as [[-> _] | [-> _]]; [exact IH|].
  intros _.
  change ([quote k ++ ":"%char :: element_text x] ++ flat_map member props)
    with ((quote k ++ ":"%char :: element_text x) :: flat_map member props).
  destruct (flat_map member props).
  - rewrite join_single. unfold quote. simpl. eauto.
  - rewrite join_cons by discriminate. unfold quote. simpl. eauto.
Qed.

(** ** Values *)

Theorem value_reads_back (v : JsVal) : reads_back v.
Proof.
  induction v as [| |b|z|m e|s|items IH|props IH] using JsVal_ind;
    intros fuel rest Hfuel Hc;
    match goal with
    | |- parse_value _ (element_text ?x ++ _) = _ =>
        pose proof (element_text_length x) as Hlen
    end;
    (destruct fuel as [|fuel]; [lia|]);
    unfold element_text in *; simpl serialize in *;
    try destruct b; simpl or_null in *; simpl normal.
  - reflexivity.
  - reflexivity.
  - reflexivity.
  - reflexivity.
  - destruct (int_text_head z rest) as (_ & c & r & Heq & Hd).
    rewrite <- (parse_number_int z rest Hc), Heq.
    now apply parse_value_number.
  - destruct (dec_text_head m e rest) as (_ & c & r & Heq & Hd).
    simpl normal. rewrite <- (parse_number_dec m e rest Hc), Heq.
    now apply parse_value_number.
  - destruct (parse_string_quote s rest) as (t & Hqt & Hps).
    rewrite Hqt, parse_value_string, Hps. reflexivity.
  - change (map (fun x => or_null (serialize x)) items)
      with (map element_text items) in *.
    rewrite <- app_comm_cons, <- app_assoc.
    change (["]"%char] ++ rest) with ("]"%char :: rest).
    simpl in Hfuel. rewrite length_app in Hfuel. simpl in Hfuel.
    destruct items as [|x items]; [reflexivity|].
    rewrite parse_value_array.
    + rewrite parse_elements_texts; [reflexivity | discriminate | exact IH | lia].
    + change (map element_text (x :: items))
        with (element_text x :: map element_text items).
      destruct (map element_text items).
      * rewrite join_single. apply element_text_opens.
      * rewrite join_cons by discriminate. rewrite <- app_assoc.
        apply element_text_opens.
  - change (flat_map (fun kv : string * JsVal =>
                        let '(k, x) := kv in member_text k (serialize x)) props)
      with (flat_map member props) in *.
    simpl normal.
    change (flat_map (fun kv : string * JsVal =>
                        let '(k, x) := kv in kept k x (normal x)) props)
      with (flat_map member_value props).
    rewrite <- app_comm_cons, <- app_assoc.
    change (["}"%char] ++ rest) with ("}"%char :: rest).
    simpl in Hfuel. rewrite length_app in Hfuel. simpl in Hfuel.
    destruct (flat_map member props) as [|t ts] eqn:Htexts.
    + rewrite (no_member_texts _ Htexts). reflexivity.
    + assert (Hne : flat_map member props <> []) by (rewrite Htexts; discriminate).
      pose proof (parse_members_texts props IH Hne fuel rest) as Hpm.
      destruct (members_head props ("}"%char :: rest) Hne) as (r & Hr).
      rewrite Htexts in Hpm, Hr. rewrite Hr in *.
      rewrite parse_value_object, Hpm by lia. reflexivity.
Qed.

(** [JSON.parse(JSON.stringify(v))] is the normal form of [v]. *)
Theorem parse_stringify (v : JsVal) (s : string) :
  stringify v = Some s -> parse s = Normal (normal v).
Proof.
  intros Hs. unfold stringify in Hs.
  destruct (serialize v) as [t|] eqn:Ht; [|discriminate].
  injection Hs as <-.
  unfold parse, chars. rewrite list_ascii_of_string_of_list_ascii.
  pose proof (value_reads_back v (2 * length t + 1)%nat []) as Hp.
  unfold element_text in Hp. rewrite Ht in Hp. simpl or_null in Hp.
  rewrite app_nil_r in Hp. rewrite Hp by (simpl; auto; lia). reflexivity.
Qed.

(** ** The fuel is enough

    No parser gives back more text than it was given, and a parse that
    succeeds on some fuel succeeds, with the same result, on any fuel
    above twice the length of the text. *)

Lemma skip_ws_length (s : text) : (length (skip_ws s) <= length s)%nat.
Proof.
  induction s as [|c s IH]; [reflexivity|]. simpl.
  destruct (is_ws c); simpl; lia.
Qed.

Lemma closes_length (c : ascii) (s r : text) :
  closes c s = Some r -> (length r < length s)%nat.
Proof.
  unfold closes. pose proof (skip_ws_length s) as Hs.
  destruct (skip_ws s) as [|c' r']; [discriminate|].
  destruct (Ascii.eqb c' c); [|discriminate].
  intros [= <-]. simpl in Hs. lia.
Qed.

Lemma strip_prefix_length (word s r : text) :
  strip_prefix word s = Some r -> (length r <= length s)%nat.
Proof.
  revert s. induction word as [|a word IH]; intros s; simpl.
  - now intros [= <-].
  - destruct s as [|b s]; [discriminate|].
    destruct (Ascii.eqb a b); [|discriminate].
    intros H. apply IH in H. simpl. lia.
Qed.

Lemma scan_digits_length (s : text) :
  (length (snd (scan_digits s)) <= length s)%nat.
Proof.
  induction s as [|c s IH]; [reflexivity|]. simpl.
  destruct (digit_of c); [|simpl; lia].
  destruct (scan_digits s); simpl in *. lia.
Qed.

Lemma parse_frac_length (s r : text) (u : Decimal.uint) :
  parse_frac s = Some (u, r) -> (length r <= length s)%nat.
Proof.
  unfold parse_frac.
  destruct s as [|c s]; [now intros [= <- <-]|].
  destruct (Ascii.eqb_spec c "."%char) as [-> | Hc].
  - pose proof (scan_digits_length s) as Hs.
    destruct (scan_digits s) as [[] r']; try discriminate;
      intros [= <- <-]; simpl in *; lia.
  - destruct c as [[] [] [] [] [] [] [] []]; try (now intros [= <- <-]).
    congruence.
Qed.

Lemma parse_exp_length (s r : text) (x : Z) :
  parse_exp s = Some (x, r) -> (length r <= length s)%nat.
Proof.
  assert (Hd : forall neg t,
             match scan_digits t with
             | (Decimal.Nil, _) => None
             | (u, r') => Some (sign_apply neg (N.of_uint u), r')
             end = Some (x, r) -> (length r <= length t)%nat).
  { intros neg t. pose proof (scan_digits_length t) as Ht.
    destruct (scan_digits t) as [[] r']; try discriminate;
      intros [= <- <-]; simpl in *; lia. }
  unfold parse_exp.
  destruct s as [|c s]; [now intros [= <- <-]|].
  destruct (Ascii.eqb c "e" || Ascii.eqb c "E"); [|now intros [= <- <-]].
  destruct s as [|c' s'].
  - intros H. apply Hd in H. simpl in *. lia.
  - destruct (Ascii.eqb_spec c' "+"%char) as [-> | Hp].
    { intros H. apply Hd in H. simpl in *. lia. }
    destruct (Ascii.eqb_spec c' "-"%char) as [-> | Hm].
    { intros H. apply Hd in H. simpl in *. lia. }
    assert (Hsame : forall A (a b d : A),
               match c' with
               | "+"%char => a | "-"%char => b | _ => d
               end = d).
    { intros. destruct c' as [[] [] [] [] [] [] [] []]; congruence. }
    intros H.
    enough ((length r <= length (c' :: s'))%nat) by (simpl in *; lia).
    apply (Hd false).
    destruct c' as [[] [] [] [] [] [] [] []]; try exact H; congruence.
Qed.

Lemma parse_unsigned_length (neg : bool) (s r : text) (v : JsVal) :
  parse_unsigned neg s = Some (v, r) -> (length r <= length s)%nat.
Proof.
  unfold parse_unsigned. pose proof (scan_digits_length s) as Hs.
  destruct (scan_digits s) as [ui s2]. simpl in Hs.
  assert (Hrest :
            (if leading_zero ui then None
             else match parse_frac s2 with
                  | None => None
                  | Some (uf, s3) =>
                      match parse_exp s3 with
                      | None => None
                      | Some (x, s4) =>
                          Some (scale (sign_apply neg (N.of_uint (Decimal.app ui uf)))
                                  (x - Z.of_nat (Decimal.nb_digits uf)), s4)
                      end
                  end) = Some (v, r) -> (length r <= length s)%nat).
  { destruct (leading_zero ui); [discriminate|].
    destruct (parse_frac s2) as [[uf s3]|] eqn:Hf; [|discriminate].
    destruct (parse_exp s3) as [[x s4]|] eqn:He; [|discriminate].
    intros [= _ <-]. apply parse_frac_length in Hf. apply parse_exp_length in He.
    lia. }
  destruct ui; try discriminate; exact Hrest.
Qed.

Lemma parse_number_length (s r : text) (v : JsVal) :
  parse_number s = Some (v, r) -> (length r <= length s)%nat.
Proof.
  unfold parse_number. destruct s as [|c s].
  - intros H. now apply parse_unsigned_length in H.
  - destruct (Ascii.eqb_spec c "-"%char) as [-> | Hc].
    + intros H. apply parse_unsigned_length in H. simpl. lia.
    + intros H. apply (parse_unsigned_length false _ _ v).
      destruct c as [[] [] [] [] [] [] [] []]; try exact H; congruence.
Qed.

Lemma parse_chars_bounded (n : nat) :
  forall s body r,
    (length s <= n)%nat ->
    parse_chars s = Some (body, r) -> (length r <= length s)%nat.
Proof.
  induction n as [|n IH]; intros s body r Hn.
  { destruct s; [discriminate | simpl in Hn; lia]. }
  destruct s as [|c s]; [discriminate|]. simpl in Hn. simpl.
  destruct (Ascii.eqb c dquote); [intros [= _ <-]; lia|].
  destruct (Ascii.eqb c backslash).
  - destruct s as [|e s]; [discriminate|]. simpl in Hn.
    assert (Hplain :
              match unescape e with
              | Some c' =>
                  match parse_chars s with
                  | Some (body0, rest) => Some (c' :: body0, rest)
                  | None => None
                  end
              | None => None
              end = Some (body, r) -> (length r <= S (S (length s)))%nat).
    { destruct (unescape e); [|discriminate].
      destruct (parse_chars s) as [[b0 r0]|] eqn:Hp; [|discriminate].
      intros [= _ <-]. apply IH in Hp; lia. }
    destruct (Ascii.eqb_spec e "u"%char) as [-> | He].
    + destruct s as [|h1 [|h2 [|h3 [|h4 s']]]]; try exact Hplain.
      simpl in Hn.
      destruct (hex_val h1), (hex_val h2), (hex_val h3), (hex_val h4);
        try discriminate.
      destruct (parse_chars s') as [[b0 r0]|] eqn:Hp; [|discriminate].
      intros [= _ <-]. apply IH in Hp; simpl; lia.
    + intros H. apply Hplain.
      destruct e as [[] [] [] [] [] [] [] []]; try exact H; congruence.
  - destruct (N_of_ascii c <? 32)%N; [discriminate|].
    destruct (parse_chars s) as [[b0 r0]|] eqn:Hp; [|discriminate].
    intros [= _ <-]. apply IH in Hp; lia.
Qed.

Lemma parse_chars_length (s body r : text) :
  parse_chars s = Some (body, r) -> (length r <= length s)%nat.
Proof. apply (parse_chars_bounded (length s)). lia. Qed.

Lemma parse_string_length (s r : text) (k : string) :
  parse_string s = Some (k, r) -> (length r <= length s)%nat.
Proof.
  unfold parse_string.
  destruct (parse_chars s) as [[b r']|] eqn:Hp; [|discriminate].
  intros [= _ <-]. now apply parse_chars_length in Hp.
Qed.

Lemma value_body_follows
    (E E' : text -> option (list JsVal * text))
    (M M' : text -> option (list (string * JsVal) * text))
    (s : text) (o : JsVal * text) :
  follows (length s) E E' ->
  follows (length s) M M' ->
  value_body E M s = Some o ->
  value_body E' M' s = Some o /\ (length (snd o) <= length s)%nat.
Proof.
  intros HE HM. unfold value_body.
  pose proof (skip_ws_length s) as Hs.
  destruct (skip_ws s) as [|c r]; [discriminate|]. simpl in Hs.
  assert (Hlit : forall word v,
             literal word v (c :: r) = Some o ->
             (length (snd o) <= length s)%nat).
  { intros word v. unfold literal.
    destruct (strip_prefix (chars word) (c :: r)) eqn:Hp; [|discriminate].
    intros [= <-]. apply strip_prefix_length in Hp. simpl in *. lia. }
  destruct (Ascii.eqb c "n"); [intros H; split; eauto|].
  destruct (Ascii.eqb c "t"); [intros H; split; eauto|].
  destruct (Ascii.eqb c "f"); [intros H; split; eauto|].
  destruct (Ascii.eqb c "[").
  { destruct (closes "]" r) as [r'|] eqn:Hc.
    - intros [= <-]. split; [reflexivity|]. apply closes_length in Hc. simpl. lia.
    - destruct (E r) as [[items r']|] eqn:Hr; [|discriminate].
      intros [= <-]. destruct (HE r _ ltac:(lia) Hr) as [-> Hl].
      split; [reflexivity | simpl in *; lia]. }
  destruct (Ascii.eqb c "{").
  { destruct (closes "}" r) as [r'|] eqn:Hc.
    - intros [= <-]. split; [reflexivity|]. apply closes_length in Hc. simpl. lia.
    - destruct (M r) as [[props r']|] eqn:Hr; [|discriminate].
      intros [= <-]. destruct (HM r _ ltac:(lia) Hr) as [-> Hl].
      split; [reflexivity | simpl in *; lia]. }
  destruct (Ascii.eqb c dquote).
  { destruct (parse_string r) as [[str r']|] eqn:Hp; [|discriminate].
    intros [= <-]. split; [reflexivity|].
    apply parse_string_length in Hp. simpl. lia. }
  destruct (Ascii.eqb c "-" || is_digit c); [|discriminate].
  intros H. split; [exact H|]. destruct o as [v r'].
  apply parse_number_length in H. simpl in *. lia.
Qed.

Lemma elements_body_follows
    (V V' : text -> option (JsVal * text))
    (E E' : text -> option (list JsVal * text))
    (s : text) (o : list JsVal * text) :
  follows (S (length s)) V V' ->
  follows (length s) E E' ->
  elements_body V E s = Some o ->
  elements_body V' E' s = Some o /\ (length (snd o) <= length s)%nat.
Proof.
  intros HV HE. unfold elements_body.
  destruct (V s) as [[v r]|] eqn:Hv; [|discriminate].
  destruct (HV s _ ltac:(lia) Hv) as [-> Hr]. simpl in Hr.
  destruct (closes "," r) as [r'|] eqn:Hc.
  - apply closes_length in Hc.
    destruct (E r') as [[items r'']|] eqn:He; [|discriminate].
    intros [= <-]. destruct (HE r' _ ltac:(lia) He) as [-> Hl].
    split; [reflexivity | simpl in *; lia].
  - destruct (closes "]" r) as [r'|] eqn:Hb; [|discriminate].
    intros [= <-]. split; [reflexivity|]. apply closes_length in Hb. simpl. lia.
Qed.

Lemma members_body_follows
    (V V' : text -> option (JsVal * text))
    (M M' : text -> option (list (string * JsVal) * text))
    (s : text) (o : list (string * JsVal) * text) :
  follows (length s) V V' ->
  follows (length s) M M' ->
  members_body V M s = Some o ->
  members_body V' M' s = Some o /\ (length (snd o) <= length s)%nat.
Proof.
  intros HV HM. unfold members_body.
  destruct (closes dquote s) as [r|] eqn:Hq; [|discriminate].
  apply closes_length in Hq.
  destruct (parse_string r) as [[k r1]|] eqn:Hk; [|discriminate].
  apply parse_string_length in Hk.
  destruct (closes ":" r1) as [r2|] eqn:Hc; [|discriminate].
  apply closes_length in Hc.
  destruct (V r2) as [[v r3]|] eqn:Hv; [|discriminate].
  destruct (HV r2 _ ltac:(lia) Hv) as [-> Hr3]. simpl in Hr3.
  destruct (closes "," r3) as [r4|] eqn:Hm.
  - apply closes_length in Hm.
    destruct (M r4) as [[props r5]|] eqn:Hp; [|discriminate].
    intros [= <-]. destruct (HM r4 _ ltac:(lia) Hp) as [-> Hl].
    split; [reflexivity | simpl in *; lia].
  - destruct (closes "}" r3) as [r4|] eqn:Hb; [|discriminate].
    intros [= <-]. split; [reflexivity|]. apply closes_length in Hb. simpl. lia.
Qed.

(** Whatever a parser does on some fuel, it does on any fuel above twice
    the length of its text. *)
Lemma fuel_covers (fuel : nat) :
  (forall s o fuel',
     parse_value fuel s = Some o -> (2 * length s + 1 <= fuel')%nat ->
     parse_value fuel' s = Some o /\ (length (snd o) <= length s)%nat) /\
  (forall s o fuel',
     parse_elements fuel s = Some o -> (2 * length s + 2 <= fuel')%nat ->
     parse_elements fuel' s = Some o /\ (length (snd o) <= length s)%nat) /\
  (forall s o fuel',
     parse_members fuel s = Some o -> (2 * length s + 2 <= fuel')%nat ->
     parse_members fuel' s = Some o /\ (length (snd o) <= length s)%nat).
Proof.
  induction fuel as [|fuel (IHv & IHe & IHm)].
  { split; [|split]; intros s o fuel' H; discriminate H. }
  split; [|split]; intros s o [|fuel'] H Hf; try lia.
  - apply (value_body_follows (parse_elements fuel) (parse_elements fuel')
             (parse_members fuel) (parse_members fuel') s o); [| |exact H].
    + intros x o' Hx Ho. apply (IHe x o' fuel' Ho). lia.
    + intros x o' Hx Ho. apply (IHm x o' fuel' Ho). lia.
  - apply (elements_body_follows (parse_value fuel) (parse_value fuel')
             (parse_elements fuel) (parse_elements fuel') s o); [| |exact H].
    + intros x o' Hx Ho. apply (IHv x o' fuel' Ho). lia.
    + intros x o' Hx Ho. apply (IHe x o' fuel' Ho). lia.
  - apply (members_body_follows (parse_value fuel) (parse_value fuel')
             (parse_members fuel) (parse_members fuel') s o); [| |exact H].
    + intros x o' Hx Ho. apply (IHv x o' fuel' Ho). lia.
    + intros x o' Hx Ho. apply (IHm x o' fuel' Ho). lia.
Qed.

(** [JSON.parse] accepts every text that the grammar accepts on any fuel:
    when some fuel parses the whole text to [v], so does [parse]. *)
Theorem parse_complete (str : string) (fuel : nat) (v : JsVal) (rest : text) :
  parse_value fuel (chars str) = Some (v, rest) ->
  skip_ws rest = [] ->
  parse str = Normal v.
Proof.
  intros Hp Hrest. unfold parse.
  destruct (proj1 (fuel_covers fuel) (chars str) (v, rest)
              (2 * length (chars str) + 1)%nat Hp ltac:(lia)) as [-> _].
  now rewrite Hrest.
Qed.

(** And [parse] throws only when no fuel parses the whole text. *)
Corollary parse_throws (str : string) (e : Exn) :
  parse str = Throw e ->
  forall fuel v rest,
    parse_value fuel (chars str) = Some (v, rest) -> skip_ws rest <> [].
Proof.
  intros Ht fuel v rest Hp Hrest.
  rewrite (parse_complete str fuel v rest Hp Hrest) in Ht. discriminate.
Qed.

End JSONFacts.

(* ================================================================== *)
(** * Facts about the cache *)

(** Every entry text parses, to an item with the expiry written and the
    value as it reads back. *)
Lemma entry_parses (value : JsVal) (expiry : Z) :
  exists item,
    JSON.parse (entry_text value expiry) = Normal item /\
    get_prop item "expiry" = Normal (JNum expiry) /\
    get_prop item "value" = Normal (read_back value).
Proof.
  exists (JSON.normal (make_item value expiry)). split.
  - apply JSONFacts.parse_stringify. unfold entry_text, JSON_stringify.
    destruct (JSON.stringify (make_item value expiry)) eqn:Hs; [reflexivity|].
    unfold JSON.stringify in Hs. simpl in Hs. discriminate.
  - destruct value; split; reflexivity.
Qed.

Lemma greater_num (n e : Z) : Num.greater n (JNum e) = Normal (e <? n).
Proof.
  unfold Num.greater; simpl. now rewrite Z.pow_0_r, Z.mul_1_r.
Qed.

Lemma parse_empty : JSON.parse EmptyString = Throw SyntaxError.
Proof. reflexivity. Qed.

Lemma setItem_stored (key text : string) (st st' : Storage.t) :
  Storage.setItem key text st = Some st' ->
  Storage.getItem key st' = Some text.
Proof.
  unfold Storage.setItem, Storage.getItem.
  destruct (_ <=? _)%nat; [|discriminate].
  intros [= <-]; simpl. apply lookup_insert_eq.
Qed.

Lemma removeItem_stored (key : string) (st : Storage.t) :
  Storage.getItem key (Storage.removeItem key st) = None.
Proof. unfold Storage.getItem, Storage.removeItem; simpl. apply lookup_delete_eq. Qed.

Lemma set_run (key : string) (value : JsVal) (hours : option Z) (p : Page) :
  setStorageWithExpiry key value hours p =
  localStorage_setItem key
    (entry_text value (clock (env p) + default 24 hours * 60 * 60 * 1000)) p.
Proof. reflexivity. Qed.

Lemma set_ok (key : string) (value : JsVal) (hours : option Z) (p p1 : Page) :
  setStorageWithExpiry key value hours p = (Normal tt, p1) ->
  stored key p1 =
    Some (entry_text value (clock (env p) + default 24 hours * 60 * 60 * 1000)) /\
  clock (env p1) = clock (env p) /\
  calls p1 =
    CallSetItem key
      (entry_text value (clock (env p) + default 24 hours * 60 * 60 * 1000))
    :: calls p.
Proof.
  rewrite set_run. unfold localStorage_setItem, stored.
  destruct (Storage.setItem _ _ _) as [st|] eqn:Hset; [|discriminate].
  intros [= <-]; simpl. split; [|split]; try reflexivity.
  eapply setItem_stored; eassumption.
Qed.

Lemma get_absent (key : string) (p : Page) :
  absent key p ->
  getStorageWithExpiry key p = (Normal JNull, record (CallGetItem key) p).
Proof.
  unfold absent, stored, getStorageWithExpiry, bind, localStorage_getItem.
  now intros ->.
Qed.

(** The lookup of an entry that was written by [setStorageWithExpiry]. *)
Lemma get_entry (key : string) (value : JsVal) (expiry : Z) (p : Page) :
  stored key p = Some (entry_text value expiry) ->
  getStorageWithExpiry key p =
    if expiry <? clock (env p) then (Normal JNull, removed key p)
    else (Normal (read_back value), record (CallGetItem key) p).
Proof.
  intros Hst. destruct (entry_parses value expiry) as (item & Hparse & Hexp & Hval).
  unfold stored in Hst.
  unfold getStorageWithExpiry, bind, localStorage_getItem. rewrite Hst.
  destruct (entry_text value expiry) as [|c s] eqn:Htext.
  { rewrite parse_empty in Hparse. discriminate. }
  unfold safeJsonParse, try_catch, lift. rewrite Hparse.
  unfold Date_getTime; simpl. rewrite Hexp, greater_num.
  destruct (expiry <? clock (env p)); simpl.
  - reflexivity.
  - now rewrite Hval.
Qed.

Lemma get_live (key : string) (value : JsVal) (p : Page) :
  live key value p ->
  getStorageWithExpiry key p = (Normal value, record (CallGetItem key) p).
Proof.
  intros (written & expiry & Hst & <- & Hle).
  rewrite (get_entry key written expiry p Hst).
  destruct (Z.ltb_spec expiry (clock (env p))); [lia | reflexivity].
Qed.

Lemma get_expired (key : string) (p : Page) :
  expired key p ->
  getStorageWithExpiry key p = (Normal JNull, removed key p).
Proof.
  intros (written & expiry & Hst & Hlt).
  rewrite (get_entry key written expiry p Hst).
  destruct (Z.ltb_spec expiry (clock (env p))); [reflexivity | lia].
Qed.

Lemma get_miss (key : string) (p : Page) :
  absent key p \/ expired key p ->
  exists p0,
    getStorageWithExpiry key p = (Normal JNull, p0) /\
    fetches p0 = fetches p.
Proof.
  intros [Ha | He].
  - exists (record (CallGetItem key) p). rewrite (get_absent _ _ Ha). auto.
  - exists (removed key p). rewrite (get_expired _ _ He). auto.
Qed.

(** A key holds one entry: two live values under it are the same value. *)
Lemma live_unique (key : string) (v v' : JsVal) (p : Page) :
  live key v p -> live key v' p -> v = v'.
Proof.
  intros H H'. pose proof (get_live _ _ _ H) as E.
  rewrite (get_live _ _ _ H') in E. congruence.
Qed.

Lemma getOrFetch_hit (key : string) (f : Fetcher) (hours : option Z)
    (p p0 : Page) (c : JsVal) :
  CacheManager.get key p = (Normal c, p0) ->
  ToBoolean c = true ->
  CacheManager.getOrFetch key f hours p = (Normal (Fulfilled c), p0).
Proof.
  intros Hget Ht. unfold CacheManager.getOrFetch, bind. now rewrite Hget, Ht.
Qed.

Lemma getOrFetch_fetch (key : string) (f : Fetcher) (hours : option Z)
    (p p0 : Page) (c : JsVal) :
  CacheManager.get key p = (Normal c, p0) ->
  ToBoolean c = false ->
  CacheManager.getOrFetch key f hours p =
    fetch_and_store key f (default 24 hours) p0.
Proof.
  intros Hget Ht. unfold CacheManager.getOrFetch, bind at 1. now rewrite Hget, Ht.
Qed.

Lemma fetch_fails (key : string) (f : Fetcher) (hours : Z) (p0 : Page)
    (r : Completion Promise) (e : Exn) (e1 : Env) :
  f (env p0) = (r, e1) ->
  failed r e ->
  fetch_and_store key f hours p0 =
    (r, {| env := e1; calls := CallFetch :: calls p0 |}).
Proof.
  intros Hf [-> | ->]; unfold fetch_and_store, bind, call; now rewrite Hf.
Qed.

Lemma fetch_fulfils (key : string) (f : Fetcher) (hours : Z) (p0 : Page)
    (result : JsVal) (e1 : Env) :
  f (env p0) = (Normal (Fulfilled result), e1) ->
  fetch_and_store key f hours p0 =
    match
      Storage.setItem key (entry_text result (clock e1 + hours * 60 * 60 * 1000))
        (localStorage e1)
    with
    | Some st =>
        (Normal (Fulfilled result),
         {| env := {| localStorage := st; clock := clock e1 |};
            calls :=
              CallSetItem key (entry_text result (clock e1 + hours * 60 * 60 * 1000))
              :: CallFetch :: calls p0 |})
    | None =>
        (Normal (Rejected QuotaExceededError),
         {| env := e1;
            calls :=
              CallSetItem key (entry_text result (clock e1 + hours * 60 * 60 * 1000))
              :: CallFetch :: calls p0 |})
    end.
Proof.
  intros Hf.
  unfold fetch_and_store, bind at 1, call. rewrite Hf.
  unfold Promise_then, bind, CacheManager.set. rewrite set_run.
  unfold localStorage_setItem; simpl.
  now destruct (Storage.setItem _ _ _).
Qed.

(* ================================================================== *)
(** * The claims *)

(** The scenario of the specification, with the TTL in hours as the code
    takes it: a session written for one hour is read back at once and at
    the last millisecond of the hour, and is gone a millisecond later. *)
Example session_scenario :
  let written := Sample.written "session:42" Sample.session 1 in
  fst (getStorageWithExpiry "session:42" written) = Normal Sample.session /\
  fst (getStorageWithExpiry "session:42" (advance 3600000 written))
    = Normal Sample.session /\
  fst (getStorageWithExpiry "session:42" (advance 3600001 written)) = Normal JNull.
Proof. vm_compute. auto. Qed.

(** A value that JSON text does not carry comes back changed: an array
    holding [undefined] is read back holding [null]. *)
Example undefined_item_reads_null :
  fst (getStorageWithExpiry "k" (Sample.written "k" (JArr [JUndefined]) 1))
  = Normal (JArr [JNull]).
Proof. vm_compute. reflexivity. Qed.

(** C10.  [safeJsonParse] never throws: it completes normally with the
    value of [JSON.parse] when the text is valid JSON and with the fallback
    (the empty object when none is supplied) when parsing throws, and it
    leaves the page as it was. *)
Theorem safeJsonParse_total (str : string) (fallback : JsVal) (p : Page) :
  safeJsonParse str fallback p =
    (Normal match JSON.parse str with
            | Normal v => v
            | Throw _ => match fallback with
                         | JUndefined => JObj []
                         | _ => fallback
                         end
            end, p).
Proof.
  unfold safeJsonParse, try_catch, lift, ret, default_arg.
  destruct (JSON.parse str); reflexivity.
Qed.

(** C1, as the code has it.  A stored text that [JSON.parse] rejects is not
    reported as an error: the lookup completes normally with [undefined]
    ([null] when the text is empty), and the text stays in the store. *)
Theorem get_corrupt_entry (key text : string) (p : Page) (e : Exn) :
  stored key p = Some text ->
  JSON.parse text = Throw e ->
  getStorageWithExpiry key p =
    (Normal (if String.eqb text EmptyString then JNull else JUndefined),
     record (CallGetItem key) p).
Proof.
  intros Hst Hparse. unfold stored in Hst.
  unfold getStorageWithExpiry, bind, localStorage_getItem. rewrite Hst.
  destruct text as [|c t]; [reflexivity|].
  unfold safeJsonParse, try_catch, lift. rewrite Hparse. reflexivity.
Qed.

Lemma get_corrupt_entry_witness :
  getStorageWithExpiry "session:42" (Sample.holding "session:42" "{userId: 42")
  = (Normal JUndefined,
     record (CallGetItem "session:42") (Sample.holding "session:42" "{userId: 42")).
Proof.
  apply (get_corrupt_entry "session:42" "{userId: 42" _ SyntaxError);
    vm_compute; reflexivity.
Defined.

(** C1 fails as stated: a key holds text that does not parse, and the
    lookup throws nothing. *)
Lemma corrupt_entry_not_reported :
  ~ (forall (key text : string) (p : Page),
       stored key p = Some text ->
       (exists e, JSON.parse text = Throw e) ->
       exists e, fst (getStorageWithExpiry key p) = Throw e).
Proof.
  intros H.
  destruct (H "session:42"%string "{userId: 42"%string
              (Sample.holding "session:42" "{userId: 42")) as [e He].
  - vm_compute; reflexivity.
  - exists SyntaxError. vm_compute; reflexivity.
  - vm_compute in He. discriminate He.
Qed.

(** C2, as the code has it.  A write with a TTL of zero or more hours
    whose expiry is computed exactly, read back before the clock moves,
    gives the value written; a TTL of zero is no exception. *)
Theorem set_then_get_at_once (key : string) (value : JsVal) (hours : option Z)
    (p p1 : Page) :
  0 <= default 24 hours ->
  exact_expiry (clock (env p)) (default 24 hours) = true ->
  storable value ->
  setStorageWithExpiry key value hours p = (Normal tt, p1) ->
  getStorageWithExpiry key p1 = (Normal value, record (CallGetItem key) p1).
Proof.
  intros Hh _ Hsv Hset.
  destruct (set_ok _ _ _ _ _ Hset) as (Hst & Hclk & _).
  apply get_live. eexists _, _. split; [exact Hst|]. split; [exact Hsv|]. lia.
Qed.

Lemma set_then_get_at_once_witness :
  getStorageWithExpiry "session:42" (Sample.written "session:42" Sample.session 0)
  = (Normal Sample.session,
     record (CallGetItem "session:42")
       (Sample.written "session:42" Sample.session 0)).
Proof.
  apply (set_then_get_at_once "session:42" Sample.session (Some 0) Sample.start).
  - vm_compute; discriminate.
  - vm_compute; reflexivity.
  - reflexivity.
  - vm_compute; reflexivity.
Defined.

(** C2 fails as stated: with a TTL of zero the immediate read gives the
    value, not [null]. *)
Lemma zero_ttl_read_back :
  ~ (forall (key : string) (value : JsVal) (p p1 : Page),
       storable value ->
       setStorageWithExpiry key value (Some 0) p = (Normal tt, p1) ->
       fst (getStorageWithExpiry key p1) = Normal JNull).
Proof.
  intros H.
  assert (Hr : fst (getStorageWithExpiry "session:42"
                      (Sample.written "session:42" Sample.session 0))
               = Normal JNull).
  { apply (H "session:42"%string Sample.session Sample.start).
    - reflexivity.
    - vm_compute; reflexivity. }
  vm_compute in Hr. discriminate Hr.
Qed.

(** C3.  Whatever the value written, once the clock has moved past the TTL
    of the entry the lookup completes normally with [null], having called
    [removeItem] on the key, and the key is gone from the store. *)
Theorem get_after_expiry (key : string) (value : JsVal) (hours : option Z)
    (p p1 : Page) (d : Z) :
  setStorageWithExpiry key value hours p = (Normal tt, p1) ->
  default 24 hours * 60 * 60 * 1000 < d ->
  getStorageWithExpiry key (advance d p1)
    = (Normal JNull, removed key (advance d p1)) /\
  calls (removed key (advance d p1))
    = CallRemoveItem key :: CallGetItem key :: calls p1 /\
  stored key (removed key (advance d p1)) = None.
Proof.
  intros Hset Hd.
  destruct (set_ok _ _ _ _ _ Hset) as (Hst & Hclk & _).
  split; [|split].
  - apply get_expired. eexists _, _. split; [exact Hst|]. simpl. lia.
  - reflexivity.
  - apply removeItem_stored.
Qed.

Lemma get_after_expiry_witness :
  fst (getStorageWithExpiry "session:42"
         (advance 3600001 (Sample.written "session:42" Sample.session 1)))
  = Normal JNull.
Proof.
  refine (f_equal fst
    (proj1 (get_after_expiry "session:42" Sample.session (Some 1) Sample.start
              (Sample.written "session:42" Sample.session 1) 3600001 _ _))).
  - vm_compute; reflexivity.
  - vm_compute; reflexivity.
Defined.

(** C4, as the code has it.  With a live entry whose value is truthy,
    [getOrFetch] resolves to that value and the fetch function is not
    called: the only call on record is the [getItem] of the lookup. *)
Theorem getOrFetch_live_truthy (key : string) (value : JsVal)
    (fetchFunction : Fetcher) (hours : option Z) (p : Page) :
  live key value p ->
  ToBoolean value = true ->
  CacheManager.getOrFetch key fetchFunction hours p =
    (Normal (Fulfilled value), record (CallGetItem key) p) /\
  fetches (record (CallGetItem key) p) = fetches p.
Proof.
  intros Hlive Ht. split; [|reflexivity].
  apply getOrFetch_hit; [|exact Ht].
  unfold CacheManager.get. now apply get_live.
Qed.

Lemma getOrFetch_live_truthy_witness :
  fst (CacheManager.getOrFetch "session:42"
         (Sample.settle (Normal (Fulfilled JNull))) None
         (Sample.written "session:42" Sample.session 1))
  = Normal (Fulfilled Sample.session).
Proof.
  refine (f_equal fst
    (proj1 (getOrFetch_live_truthy "session:42" Sample.session _ None _ _ _))).
  - exists Sample.session, 1700003600000. split; [vm_compute; reflexivity|].
    split; [reflexivity | vm_compute; discriminate].
  - reflexivity.
Defined.

(** C4 fails as stated: a live entry holding [0] is taken for a miss, the
    fetch function is called and its result is what comes back. *)
Lemma live_falsy_entry_refetched :
  ~ (forall (key : string) (value : JsVal) (fetchFunction : Fetcher)
            (hours : option Z) (p : Page),
       live key value p ->
       fst (CacheManager.getOrFetch key fetchFunction hours p)
         = Normal (Fulfilled value) /\
       fetches (snd (CacheManager.getOrFetch key fetchFunction hours p))
         = fetches p).
Proof.
  intros H.
  destruct (H "visits"%string (JNum 0)
              (Sample.settle (Normal (Fulfilled (JNum 7)))) (Some 1)
              (Sample.written "visits" (JNum 0) 1)) as [Hv Hf].
  - exists (JNum 0), 1700003600000. split; [vm_compute; reflexivity|].
    split; [reflexivity | vm_compute; discriminate].
  - vm_compute in Hf. discriminate Hf.
Qed.

(** C5, as the code has it.  On a key with no entry, or an expired one,
    whose fetch is fulfilled with a value that JSON text carries
    unchanged, with a TTL whose expiry is computed exactly and a write
    that the store takes, [getOrFetch] calls the fetch function exactly
    once, resolves to its result, and a later lookup that is not past the
    expiry gives that result. *)
Theorem getOrFetch_miss (key : string) (fetchFunction : Fetcher)
    (hours : option Z) (p : Page) (result : JsVal) (e1 : Env) (st : Storage.t) :
  absent key p \/ expired key p ->
  fetchFunction (env (snd (CacheManager.get key p)))
    = (Normal (Fulfilled result), e1) ->
  storable result ->
  exact_expiry (clock e1) (default 24 hours) = true ->
  Storage.setItem key
    (entry_text result (clock e1 + default 24 hours * 60 * 60 * 1000))
    (localStorage e1) = Some st ->
  exists p2,
    CacheManager.getOrFetch key fetchFunction hours p
      = (Normal (Fulfilled result), p2) /\
    fetches p2 = S (fetches p) /\
    forall d,
      d <= default 24 hours * 60 * 60 * 1000 ->
      fst (CacheManager.get key (advance d p2)) = Normal result.
Proof.
  intros Hmiss Hf Hsv _ Hset.
  destruct (get_miss _ _ Hmiss) as (p0 & Hget & Hfe).
  unfold CacheManager.get in Hf. rewrite Hget in Hf; simpl in Hf.
  rewrite (getOrFetch_fetch key fetchFunction hours p p0 JNull Hget eq_refl).
  rewrite (fetch_fulfils key fetchFunction (default 24 hours) p0 result e1 Hf).
  rewrite Hset.
  eexists. split; [reflexivity|]. split.
  - unfold fetches in *; simpl. now rewrite Hfe.
  - intros d Hd. unfold CacheManager.get.
    erewrite get_live; [reflexivity|].
    eexists _, _. split; [|split; [exact Hsv|]].
    + unfold stored; simpl. eapply setItem_stored; eassumption.
    + simpl. lia.
Qed.

Lemma getOrFetch_miss_witness :
  exists p2,
    CacheManager.getOrFetch "session:42"
      (Sample.settle (Normal (Fulfilled Sample.session))) (Some 1) Sample.start
      = (Normal (Fulfilled Sample.session), p2) /\
    fetches p2 = S (fetches Sample.start) /\
    forall d,
      d <= 1 * 60 * 60 * 1000 ->
      fst (CacheManager.get "session:42" (advance d p2)) = Normal Sample.session.
Proof.
  refine (getOrFetch_miss "session:42"
            (Sample.settle (Normal (Fulfilled Sample.session)))
            (Some 1) Sample.start Sample.session
            {| localStorage := Storage.empty 4096; clock := 1700000001000 |}
            (localStorage
               (env (Sample.holding "session:42"
                       (entry_text Sample.session 1700003601000))))
            _ _ _ _ _).
  - left. vm_compute; reflexivity.
  - vm_compute; reflexivity.
  - reflexivity.
  - vm_compute; reflexivity.
  - vm_compute; reflexivity.
Defined.

(** C5 fails as stated: a fetch fulfilled with an array that holds
    [undefined] is stored, and the lookup that follows gives the array
    holding [null], which is not the result of the fetch. *)
Lemma fetched_value_reads_back_changed :
  ~ (forall (key : string) (fetchFunction : Fetcher) (hours : option Z)
            (p : Page) (result : JsVal) (e1 : Env),
       absent key p \/ expired key p ->
       fetchFunction (env (snd (CacheManager.get key p)))
         = (Normal (Fulfilled result), e1) ->
       exists p2,
         CacheManager.getOrFetch key fetchFunction hours p
           = (Normal (Fulfilled result), p2) /\
         fetches p2 = S (fetches p) /\
         fst (CacheManager.get key p2) = Normal result).
Proof.
  intros H.
  destruct (H "tags"%string
              (Sample.settle (Normal (Fulfilled (JArr [JUndefined])))) (Some 1)
              Sample.start (JArr [JUndefined])
              {| localStorage := Storage.empty 4096; clock := 1700000001000 |})
    as (p2 & Hrun & _ & Hget).
  - left. vm_compute; reflexivity.
  - vm_compute; reflexivity.
  - apply (f_equal snd) in Hrun. simpl in Hrun. subst p2.
    vm_compute in Hget. discriminate Hget.
Qed.

(** C6.  On a key with no entry, a fetch that fails, thrown or rejected,
    comes back from [getOrFetch] as it is; [getOrFetch] writes nothing, so
    the environment is the one the fetch left, and while that holds no
    entry for the key a later lookup still gives [null]. *)
Theorem getOrFetch_failure (key : string) (fetchFunction : Fetcher)
    (hours : option Z) (p : Page) (r : Completion Promise) (e : Exn) (e1 : Env) :
  absent key p ->
  fetchFunction (env p) = (r, e1) ->
  failed r e ->
  Storage.getItem key (localStorage e1) = None ->
  CacheManager.getOrFetch key fetchFunction hours p
    = (r, {| env := e1; calls := CallFetch :: CallGetItem key :: calls p |}) /\
  fst (CacheManager.get key
         {| env := e1; calls := CallFetch :: CallGetItem key :: calls p |})
    = Normal JNull.
Proof.
  intros Ha Hf Hfail Hnone.
  pose proof (get_absent _ _ Ha) as Hget.
  rewrite (getOrFetch_fetch key fetchFunction hours p _ JNull Hget eq_refl).
  rewrite (fetch_fails key fetchFunction (default 24 hours)
             (record (CallGetItem key) p) r e e1 Hf Hfail).
  split; [reflexivity|].
  unfold CacheManager.get. now rewrite get_absent.
Qed.

Lemma getOrFetch_failure_witness :
  fst (CacheManager.getOrFetch "session:42"
         (Sample.settle (Normal (Rejected (UserError (JStr "offline"))))) None
         Sample.start)
  = Normal (Rejected (UserError (JStr "offline"))).
Proof.
  refine (f_equal fst
    (proj1 (getOrFetch_failure "session:42"
              (Sample.settle (Normal (Rejected (UserError (JStr "offline"))))) None
              Sample.start _ (UserError (JStr "offline"))
              {| localStorage := Storage.empty 4096; clock := 1700000001000 |}
              _ _ _ _))).
  - vm_compute; reflexivity.
  - reflexivity.
  - right; reflexivity.
  - vm_compute; reflexivity.
Defined.

(** C7, as the code has it.  Whenever [getOrFetch] gets to the write (the
    lookup gave a falsy value, whether the key was absent, expired or
    held one, and the fetch was fulfilled) and the store refuses it, the
    promise of [getOrFetch] is rejected with the store's
    [QuotaExceededError] and the fetched value is not delivered.  The
    refused write changes nothing: the page is as the lookup and the
    fetch left it, so an expired entry that the lookup removed stays
    removed. *)
Theorem getOrFetch_write_refused (key : string) (fetchFunction : Fetcher)
    (hours : option Z) (p p0 : Page) (cached result : JsVal) (e1 : Env) :
  CacheManager.get key p = (Normal cached, p0) ->
  ToBoolean cached = false ->
  fetchFunction (env p0) = (Normal (Fulfilled result), e1) ->
  exact_expiry (clock e1) (default 24 hours) = true ->
  Storage.setItem key
    (entry_text result (clock e1 + default 24 hours * 60 * 60 * 1000))
    (localStorage e1) = None ->
  CacheManager.getOrFetch key fetchFunction hours p =
    (Normal (Rejected QuotaExceededError),
     {| env := e1;
        calls :=
          CallSetItem key
            (entry_text result (clock e1 + default 24 hours * 60 * 60 * 1000))
          :: CallFetch :: calls p0 |}) /\
  (expired key p -> stored key p0 = None).
Proof.
  intros Hget Hfalsy Hf _ Hset. split.
  - rewrite (getOrFetch_fetch key fetchFunction hours p p0 cached Hget Hfalsy).
    rewrite (fetch_fulfils key fetchFunction (default 24 hours) p0 result e1 Hf).
    now rewrite Hset.
  - intros Hexp. unfold CacheManager.get in Hget.
    rewrite (get_expired _ _ Hexp) in Hget. injection Hget as _ <-.
    apply removeItem_stored.
Qed.

Lemma getOrFetch_write_refused_witness :
  fst (CacheManager.getOrFetch "session:42"
         (Sample.settle (Normal (Fulfilled Sample.session))) None Sample.cramped)
  = Normal (Rejected QuotaExceededError).
Proof.
  refine (f_equal fst
    (proj1 (getOrFetch_write_refused "session:42"
              (Sample.settle (Normal (Fulfilled Sample.session))) None Sample.cramped
              (record (CallGetItem "session:42") Sample.cramped) JNull
              Sample.session
              {| localStorage := Storage.empty 16; clock := 1700000001000 |}
              _ _ _ _ _))).
  - vm_compute; reflexivity.
  - reflexivity.
  - reflexivity.
  - vm_compute; reflexivity.
  - vm_compute; reflexivity.
Defined.

(** C7 fails as stated: the store refuses the write and the fetched value
    does not reach the caller. *)
Lemma refused_write_is_the_outcome :
  ~ (forall (key : string) (fetchFunction : Fetcher) (hours : option Z)
            (p : Page) (result : JsVal) (e1 : Env),
       absent key p ->
       fetchFunction (env p) = (Normal (Fulfilled result), e1) ->
       Storage.setItem key
         (entry_text result (clock e1 + default 24 hours * 60 * 60 * 1000))
         (localStorage e1) = None ->
       fst (CacheManager.getOrFetch key fetchFunction hours p)
         = Normal (Fulfilled result)).
Proof.
  intros H.
  assert (Hr : fst (CacheManager.getOrFetch "session:42"
                      (Sample.settle (Normal (Fulfilled Sample.session))) None
                      Sample.cramped) = Normal (Fulfilled Sample.session)).
  { apply (H "session:42"%string
             (Sample.settle (Normal (Fulfilled Sample.session))) None
             Sample.cramped Sample.session
             {| localStorage := Storage.empty 16; clock := 1700000001000 |});
      vm_compute; reflexivity. }
  vm_compute in Hr. discriminate Hr.
Qed.

(** C8, as the code has it.  A TTL of zero or fewer hours is written like
    any other.  With a negative TTL every later lookup gives [null]; with a
    TTL of zero the lookup gives [null] once the clock has moved on from
    the instant of the write. *)
Theorem nonpositive_ttl_expires (key : string) (value : JsVal) (h : Z)
    (p : Page) (st : Storage.t) (d : Z) :
  h <= 0 ->
  Storage.setItem key (entry_text value (clock (env p) + h * 60 * 60 * 1000))
    (localStorage (env p)) = Some st ->
  0 <= d ->
  h < 0 \/ 0 < d ->
  exists p1,
    setStorageWithExpiry key value (Some h) p = (Normal tt, p1) /\
    fst (getStorageWithExpiry key (advance d p1)) = Normal JNull.
Proof.
  intros Hh Hroom Hd Hlate.
  destruct (setStorageWithExpiry key value (Some h) p) as [r p1] eqn:Hset.
  assert (Hr : r = Normal tt).
  { rewrite set_run in Hset. unfold localStorage_setItem in Hset. simpl in Hset.
    rewrite Hroom in Hset. congruence. }
  subst r. exists p1. split; [reflexivity|].
  destruct (set_ok _ _ _ _ _ Hset) as (Hst & Hclk & _).
  rewrite get_expired; [reflexivity|].
  eexists _, _. split; [exact Hst|]. simpl in *. lia.
Qed.

Lemma nonpositive_ttl_expires_witness :
  exists p1,
    setStorageWithExpiry "session:42" Sample.session (Some 0) Sample.start
      = (Normal tt, p1) /\
    fst (getStorageWithExpiry "session:42" (advance 1 p1)) = Normal JNull.
Proof.
  refine (nonpositive_ttl_expires "session:42" Sample.session 0 Sample.start
            (localStorage (env (Sample.written "session:42" Sample.session 0)))
            1 _ _ _ _).
  - lia.
  - vm_compute; reflexivity.
  - lia.
  - right; lia.
Defined.

(** C8 fails as stated: an entry written with a TTL of zero is still read
    back within the millisecond of the write. *)
Lemma zero_ttl_not_expired_at_once :
  ~ (forall (key : string) (value : JsVal) (h : Z) (p p1 : Page) (d : Z),
       h <= 0 ->
       0 <= d ->
       setStorageWithExpiry key value (Some h) p = (Normal tt, p1) ->
       fst (getStorageWithExpiry key (advance d p1)) = Normal JNull).
Proof.
  intros H.
  assert (Hr : fst (getStorageWithExpiry "draft"
                      (advance 0 (Sample.written "draft" (JStr "hello") 0)))
               = Normal JNull).
  { apply (H "draft"%string (JStr "hello") 0 Sample.start); try lia.
    vm_compute; reflexivity. }
  vm_compute in Hr. discriminate Hr.
Qed.




(* ================================================================== *)
(** * The cache beyond the specification *)

(** A lookup of a key that holds a text, step by step. *)
Lemma get_stored (key text : string) (p : Page) :
  stored key p = Some text ->
  text <> EmptyString ->
  getStorageWithExpiry key p =
    match get_prop (item_of text) "expiry" with
    | Throw e => (Throw e, record (CallGetItem key) p)
    | Normal x =>
        match Num.greater (clock (env p)) x with
        | Throw e => (Throw e, record (CallGetItem key) p)
        | Normal true => (Normal JNull, removed key p)
        | Normal false => (get_prop (item_of text) "value", record (CallGetItem key) p)
        end
    end.
Proof.
  unfold stored. intros Hst Hne.
  unfold getStorageWithExpiry, bind, localStorage_getItem. rewrite Hst.
  destruct text as [|c s]; [congruence|].
  unfold safeJsonParse, try_catch, lift, ret, default_arg, Date_getTime, item_of.
  destruct (JSON.parse (String c s)) as [item|e]; simpl.
  - destruct (get_prop item "expiry") as [x|e]; [|reflexivity].
    destruct (Num.greater (clock (env p)) x) as [[|]|e]; reflexivity.
  - reflexivity.
Qed.

Lemma get_empty_text (key : string) (p : Page) :
  stored key p = Some EmptyString ->
  getStorageWithExpiry key p = (Normal JNull, record (CallGetItem key) p).
Proof.
  unfold stored, getStorageWithExpiry, bind, localStorage_getItem.
  now intros ->.
Qed.

(** The answer of a lookup depends on the text under the key and on the
    clock, and on nothing else of the page. *)
Lemma get_depends (key : string) (p q : Page) :
  stored key p = stored key q ->
  clock (env p) = clock (env q) ->
  fst (getStorageWithExpiry key p) = fst (getStorageWithExpiry key q).
Proof.
  intros Hst Hclk.
  destruct (stored key q) as [text|] eqn:Hq.
  - destruct (string_dec text EmptyString) as [->|Hne].
    + now rewrite !get_empty_text.
    + rewrite (get_stored key text p Hst Hne), (get_stored key text q Hq Hne), Hclk.
      destruct (get_prop _ _) as [x|e]; [|reflexivity].
      destruct (Num.greater _ _) as [[|]|e]; reflexivity.
  - now rewrite !get_absent.
Qed.

Lemma setItem_other (key key' text : string) (st st' : Storage.t) :
  key <> key' ->
  Storage.setItem key text st = Some st' ->
  Storage.getItem key' st' = Storage.getItem key' st.
Proof.
  unfold Storage.setItem, Storage.getItem. intros Hne.
  destruct (_ <=? _)%nat; [|discriminate].
  intros [= <-]; simpl. now apply lookup_insert_ne.
Qed.

Lemma removeItem_other (key key' : string) (st : Storage.t) :
  key <> key' ->
  Storage.getItem key' (Storage.removeItem key st) = Storage.getItem key' st.
Proof.
  unfold Storage.getItem, Storage.removeItem; simpl. intros Hne.
  now apply lookup_delete_ne.
Qed.

(** X1.  A key whose text is valid JSON for [null] makes the lookup throw:
    [safeJsonParse] hands back [null], and reading [item.expiry] of it is a
    [TypeError].  Nothing is removed; the text stays under the key. *)
Theorem get_null_entry (key text : string) (p : Page) :
  stored key p = Some text ->
  JSON.parse text = Normal JNull ->
  getStorageWithExpiry key p = (Throw TypeError, record (CallGetItem key) p) /\
  stored key (record (CallGetItem key) p) = Some text.
Proof.
  intros Hst Hparse. split; [|exact Hst]. unfold stored in Hst.
  unfold getStorageWithExpiry, bind, localStorage_getItem. rewrite Hst.
  destruct text as [|c t]; [discriminate Hparse|].
  unfold safeJsonParse, try_catch, lift. rewrite Hparse. reflexivity.
Qed.

Lemma get_null_entry_witness :
  fst (getStorageWithExpiry "session:42" (Sample.holding "session:42" " null "))
  = Throw TypeError.
Proof.
  refine (f_equal fst
    (proj1 (get_null_entry "session:42" " null "
              (Sample.holding "session:42" " null ") _ _))).
  - vm_compute; reflexivity.
  - vm_compute; reflexivity.
Defined.

(** X2.  An object stored under the key without an [expiry] property never
    expires: at any time the lookup gives its [value] property (or
    [undefined] when it has none) and removes nothing, because a clock
    compared with [undefined] is never greater. *)
Theorem get_without_expiry (key text : string) (props : list (string * JsVal))
    (p : Page) (d : Z) :
  stored key p = Some text ->
  JSON.parse text = Normal (JObj props) ->
  lookup_prop "expiry" props = JUndefined ->
  getStorageWithExpiry key (advance d p) =
    (Normal (lookup_prop "value" props), record (CallGetItem key) (advance d p)).
Proof.
  intros Hst Hparse Hexp. unfold stored in Hst.
  unfold getStorageWithExpiry, bind, localStorage_getItem. simpl. rewrite Hst.
  destruct text as [|c t]; [discriminate Hparse|].
  unfold safeJsonParse, try_catch, lift. rewrite Hparse.
  unfold Date_getTime, ret; simpl. rewrite Hexp. reflexivity.
Qed.

Lemma get_without_expiry_witness :
  fst (getStorageWithExpiry "theme"
         (advance 999999999999
            (Sample.holding "theme" (JSON_stringify (JObj [("value"%string, JNum 7)])))))
  = Normal (JNum 7).
Proof.
  refine (f_equal fst
    (get_without_expiry "theme" (JSON_stringify (JObj [("value"%string, JNum 7)]))
       [("value"%string, JNum 7)] _ 999999999999 _ _ _)).
  - vm_compute; reflexivity.
  - vm_compute; reflexivity.
  - reflexivity.
Defined.

(** X3.  A write under one key leaves every other key alone: the text
    stored under another key is the same, and so is what a lookup of it
    gives. *)
Theorem set_leaves_other_keys (key key' : string) (value : JsVal) (hours : option Z)
    (p p1 : Page) :
  key <> key' ->
  setStorageWithExpiry key value hours p = (Normal tt, p1) ->
  stored key' p1 = stored key' p /\
  fst (getStorageWithExpiry key' p1) = fst (getStorageWithExpiry key' p).
Proof.
  intros Hne Hset.
  assert (Hst : stored key' p1 = stored key' p).
  { rewrite set_run in Hset. unfold localStorage_setItem in Hset.
    destruct (Storage.setItem _ _ _) as [st|] eqn:Hroom; [|discriminate Hset].
    injection Hset as <-. unfold stored; simpl.
    eapply setItem_other; eassumption. }
  split; [exact Hst|].
  apply get_depends; [exact Hst|].
  now destruct (set_ok _ _ _ _ _ Hset) as (_ & Hclk & _).
Qed.

Lemma set_leaves_other_keys_witness :
  fst (getStorageWithExpiry "session:42"
         (Sample.after (setStorageWithExpiry "theme" (JStr "dark") None)
            (Sample.written "session:42" Sample.session 1)))
  = fst (getStorageWithExpiry "session:42"
           (Sample.written "session:42" Sample.session 1)).
Proof.
  refine (proj2 (set_leaves_other_keys "theme" "session:42" (JStr "dark") None
                   (Sample.written "session:42" Sample.session 1) _ _ _)).
  - discriminate.
  - vm_compute; reflexivity.
Defined.

(** X4.  A lookup never writes.  Whatever the key holds, text that does
    not parse included, the clock and the other keys are untouched, and
    the page after the lookup either only has the [getItem] call on
    record or is the page with the key removed, in which case the lookup
    gave [null]. *)
Theorem get_writes_nothing (key : string) (p : Page) :
  let p1 := snd (getStorageWithExpiry key p) in
  clock (env p1) = clock (env p) /\
  (forall key', key' <> key -> stored key' p1 = stored key' p) /\
  (p1 = record (CallGetItem key) p \/
   p1 = removed key p /\ fst (getStorageWithExpiry key p) = Normal JNull).
Proof.
  assert (Hsame : forall r,
            getStorageWithExpiry key p = (r, record (CallGetItem key) p) ->
            let p1 := snd (getStorageWithExpiry key p) in
            clock (env p1) = clock (env p) /\
            (forall key', key' <> key -> stored key' p1 = stored key' p) /\
            (p1 = record (CallGetItem key) p \/
             p1 = removed key p /\ fst (getStorageWithExpiry key p) = Normal JNull)).
  { intros r ->; simpl. split; [reflexivity|]. split; [reflexivity|]. now left. }
  destruct (stored key p) as [text|] eqn:Hst.
  - destruct (string_dec text EmptyString) as [->|Hne].
    + eapply Hsame, get_empty_text, Hst.
    + pose proof (get_stored key text p Hst Hne) as Hget.
      destruct (get_prop (item_of text) "expiry") as [x|e]; [|eapply Hsame, Hget].
      destruct (Num.greater (clock (env p)) x) as [[|]|e];
        [|eapply Hsame, Hget|eapply Hsame, Hget].
      rewrite Hget; simpl. split; [reflexivity|]. split; [|now right].
      intros key' Hk. unfold stored; simpl. apply removeItem_other. congruence.
  - eapply Hsame, get_absent, Hst.
Qed.

(** X5.  A write that fails fails with the store's [QuotaExceededError] and
    changes nothing: the store and the clock are as before, so every
    lookup gives what it gave before the attempt. *)
Theorem set_refused_keeps_entries (key : string) (value : JsVal) (hours : option Z)
    (p p1 : Page) (e : Exn) :
  setStorageWithExpiry key value hours p = (Throw e, p1) ->
  e = QuotaExceededError /\
  env p1 = env p /\
  forall key', fst (getStorageWithExpiry key' p1) = fst (getStorageWithExpiry key' p).
Proof.
  rewrite set_run. unfold localStorage_setItem.
  destruct (Storage.setItem _ _ _) as [st|]; [discriminate|].
  intros [= <- <-]. split; [reflexivity|]. split; [reflexivity|].
  intros key'. now apply get_depends.
Qed.

Lemma set_refused_keeps_entries_witness :
  fst (getStorageWithExpiry "a"
         (Sample.after
            (setStorageWithExpiry "a" (JStr "a text that takes more room than is left")
               None)
            (Sample.after (setStorageWithExpiry "a" (JNum 1) None)
               (Sample.page 64 1700000000000))))
  = Normal (JNum 1).
Proof.
  refine (eq_trans
    (proj2 (proj2
       (set_refused_keeps_entries "a"
          (JStr "a text that takes more room than is left") None
          (Sample.after (setStorageWithExpiry "a" (JNum 1) None)
             (Sample.page 64 1700000000000))
          _ QuotaExceededError _)) "a"%string) _).
  - vm_compute; reflexivity.
  - vm_compute; reflexivity.
Defined.

(** X6.  After a miss that fetched a truthy value and stored it, with a
    TTL whose expiry is computed exactly, a second [getOrFetch] of the key
    within the TTL resolves to that value without calling its fetch
    function: one fetch call is on record in all. *)
Theorem getOrFetch_again (key : string) (fetchFunction again : Fetcher)
    (hours hours' : option Z) (p : Page) (result : JsVal) (e1 : Env)
    (st : Storage.t) (d : Z) :
  absent key p \/ expired key p ->
  fetchFunction (env (snd (CacheManager.get key p)))
    = (Normal (Fulfilled result), e1) ->
  storable result ->
  ToBoolean result = true ->
  exact_expiry (clock e1) (default 24 hours) = true ->
  Storage.setItem key
    (entry_text result (clock e1 + default 24 hours * 60 * 60 * 1000))
    (localStorage e1) = Some st ->
  d <= default 24 hours * 60 * 60 * 1000 ->
  let p2 := advance d (snd (CacheManager.getOrFetch key fetchFunction hours p)) in
  CacheManager.getOrFetch key again hours' p2
    = (Normal (Fulfilled result), record (CallGetItem key) p2) /\
  fetches (record (CallGetItem key) p2) = S (fetches p).
Proof.
  intros Hmiss Hf Hsv Ht _ Hset Hd.
  destruct (get_miss _ _ Hmiss) as (p0 & Hget & Hfe).
  unfold CacheManager.get in Hf. rewrite Hget in Hf; simpl in Hf.
  rewrite (getOrFetch_fetch key fetchFunction hours p p0 JNull Hget eq_refl).
  rewrite (fetch_fulfils key fetchFunction (default 24 hours) p0 result e1 Hf).
  rewrite Hset. cbv zeta. split.
  - apply getOrFetch_hit; [|exact Ht].
    unfold CacheManager.get. apply get_live.
    eexists _, _. split; [|split; [exact Hsv|]].
    + unfold stored; simpl. eapply setItem_stored; eassumption.
    + simpl. lia.
  - unfold fetches in *; simpl. now rewrite Hfe.
Qed.

Lemma getOrFetch_again_witness :
  fst (CacheManager.getOrFetch "session:42"
         (Sample.settle (Normal (Fulfilled (JStr "another")))) None
         (advance 3600000
            (snd (CacheManager.getOrFetch "session:42"
                    (Sample.settle (Normal (Fulfilled Sample.session))) (Some 1)
                    Sample.start))))
  = Normal (Fulfilled Sample.session).
Proof.
  refine (f_equal fst
    (proj1 (getOrFetch_again "session:42"
              (Sample.settle (Normal (Fulfilled Sample.session)))
              (Sample.settle (Normal (Fulfilled (JStr "another"))))
              (Some 1) None Sample.start Sample.session
              {| localStorage := Storage.empty 4096; clock := 1700000001000 |}
              (localStorage
                 (env (Sample.holding "session:42"
                         (entry_text Sample.session 1700003601000))))
              3600000 _ _ _ _ _ _ _))).
  - left. vm_compute; reflexivity.
  - vm_compute; reflexivity.
  - reflexivity.
  - reflexivity.
  - vm_compute; reflexivity.
  - vm_compute; reflexivity.
  - vm_compute; discriminate.
Defined.

(** X7.  [safeJsonParse] reads back what [JSON.stringify] wrote: for any
    value but [undefined] it gives the value as JSON text carries it and
    never the fallback; the text of [undefined] does not parse, and gives
    the fallback. *)
Theorem safeJsonParse_stringify (v fallback : JsVal) (p : Page) :
  safeJsonParse (JSON_stringify v) fallback p =
    (Normal match v with
            | JUndefined => default_arg fallback (JObj [])
            | _ => JSON.normal v
            end, p).
Proof.
  unfold safeJsonParse, try_catch, lift, ret, JSON_stringify.
  destruct (JSON.stringify v) as [s|] eqn:Hs.
  - rewrite (JSONFacts.parse_stringify v s Hs).
    destruct v; try reflexivity. discriminate Hs.
  - destruct v; try discriminate Hs.
    + reflexivity.
    + destruct b; discriminate Hs.
Qed.

(* ================================================================== *)
(** * Text utilities *)

Module StrFacts.

Lemma chars_of_text (t : Str.text) : JSON.chars (Str.of_text t) = t.
Proof. apply list_ascii_of_string_of_list_ascii. Qed.

Lemma of_text_chars (s : string) : Str.of_text (JSON.chars s) = s.
Proof. apply string_of_list_ascii_of_string. Qed.

Lemma chars_append (a b : string) :
  JSON.chars (String.append a b) = JSON.chars a ++ JSON.chars b.
Proof. induction a as [|c a IH]; simpl; [reflexivity | now rewrite IH]. Qed.

Lemma chars_inj (a b : string) : JSON.chars a = JSON.chars b -> a = b.
Proof.
  intros H. rewrite <- (of_text_chars a), <- (of_text_chars b). now rewrite H.
Qed.

Lemma length_of_text (t : Str.text) : Str.length (Str.of_text t) = Z.of_nat (List.length t).
Proof. unfold Str.length. now rewrite chars_of_text. Qed.

(** The head of a text: [substring(0, n)] for [n] inside the text. *)
Lemma substring_head (s : string) (n : Z) :
  n <= Str.length s ->
  Str.substring s 0 n = Str.of_text (firstn (Z.to_nat n) (JSON.chars s)).
Proof.
  intros Hn. unfold Str.substring, Str.between.
  pose proof (Zle_0_nat (List.length (JSON.chars s))) as Hlen.
  fold (Str.length s) in Hlen.
  replace (Z.min (Z.max 0 0) (Str.length s)) with 0 by lia.
  replace (Z.min 0 (Z.min (Z.max n 0) (Str.length s))) with 0 by lia.
  replace (Z.max 0 (Z.min (Z.max n 0) (Str.length s)) - 0) with (Z.max n 0) by lia.
  simpl skipn. f_equal. f_equal. lia.
Qed.

End StrFacts.

Lemma truncate_cut (text : string) (n : Z) :
  n < Str.length text ->
  JSON.chars (truncate text (Some n))
  = firstn (Z.to_nat n) (JSON.chars text) ++ JSON.chars "...".
Proof.
  intros Hn. unfold truncate; simpl default.
  destruct (Z.ltb_spec n (Str.length text)); [|lia].
  rewrite StrFacts.chars_append, StrFacts.substring_head by lia.
  now rewrite StrFacts.chars_of_text.
Qed.

(** X8.  [truncate] leaves a text that fits the limit as it is.  A longer
    text keeps its first [length] characters (none for a negative limit)
    and gets three dots, so the result is three characters longer than the
    limit, and may be longer than the text.  Truncating again at the same
    limit changes nothing. *)
Theorem truncate_length (text : string) (length : option Z) :
  Str.is_ascii text = true ->
  let limit := default 100 length in
  (Str.length text <= limit -> truncate text length = text) /\
  (limit < Str.length text ->
     Str.length (truncate text length) = Z.max limit 0 + 3 /\
     Str.substring (truncate text length) 0 limit = Str.substring text 0 limit) /\
  truncate (truncate text length) length = truncate text length.
Proof.
  intros _. cbv zeta.
  assert (Hsome : truncate text length = truncate text (Some (default 100 length)))
    by (destruct length; reflexivity).
  set (n := default 100 length) in *.
  assert (Hcut : n < Str.length text ->
                 Str.length (truncate text (Some n)) = Z.max n 0 + 3).
  { intros Hn. unfold Str.length at 1. rewrite truncate_cut by exact Hn.
    rewrite length_app, length_firstn. unfold Str.length in Hn. simpl. lia. }
  split; [|split].
  - intros Hle. rewrite Hsome. unfold truncate; simpl default.
    destruct (Z.ltb_spec n (Str.length text)); [lia | reflexivity].
  - intros Hn. rewrite Hsome. split; [now apply Hcut|].
    rewrite !StrFacts.substring_head by (rewrite ?Hcut by exact Hn; lia).
    rewrite truncate_cut by exact Hn.
    rewrite firstn_app, firstn_firstn, length_firstn, Nat.min_id.
    replace (Z.to_nat n - _)%nat with 0%nat by (unfold Str.length in Hn; lia).
    simpl firstn at 2. now rewrite app_nil_r.
  - destruct (Z.ltb_spec n (Str.length text)) as [Hn|Hn].
    + assert (Hagain : truncate (truncate text length) length
                       = truncate (truncate text (Some n)) (Some n)).
      { rewrite Hsome. destruct length; reflexivity. }
      rewrite Hagain, Hsome. apply StrFacts.chars_inj.
      rewrite (truncate_cut (truncate text (Some n)) n) by (rewrite Hcut by exact Hn; lia).
      rewrite !truncate_cut by exact Hn.
      rewrite firstn_app, firstn_firstn, length_firstn, Nat.min_id.
      replace (Z.to_nat n - _)%nat with 0%nat by (unfold Str.length in Hn; lia).
      simpl firstn at 2. now rewrite app_nil_r.
    + assert (Hid : truncate text length = text).
      { rewrite Hsome. unfold truncate; simpl default.
        destruct (Z.ltb_spec n (Str.length text)); [lia | reflexivity]. }
      now rewrite !Hid.
Qed.

Lemma truncate_length_witness :
  Str.length (truncate "read" (Some 3)) = 6 /\
  truncate (truncate "read" (Some 3)) (Some 3) = truncate "read" (Some 3).
Proof.
  destruct (truncate_length "read" (Some 3) eq_refl) as (_ & Hcut & Hagain).
  split; [|exact Hagain].
  exact (proj1 (Hcut ltac:(vm_compute; reflexivity))).
Defined.

(** ** capitalize *)

Lemma capitalize_cons (c : ascii) (rest : string) :
  capitalize (String c rest) = String (Str.upper c) rest.
Proof.
  unfold capitalize, Str.charAt, Str.slice, Str.toUpperCase, Str.between.
  assert (Hlen : Str.length (String c rest) = 1 + Str.length rest).
  { unfold Str.length; simpl List.length. lia. }
  pose proof (Zle_0_nat (List.length (JSON.chars rest))) as Hpos.
  fold (Str.length rest) in Hpos.
  rewrite Hlen.
  destruct (Z.ltb_spec 0 (1 + Str.length rest)); [|lia].
  destruct (Z.ltb_spec 1 0); [lia|].
  replace (Z.min 1 (1 + Str.length rest)) with 1 by lia.
  replace (1 + Str.length rest - 1) with (Str.length rest) by lia.
  simpl. unfold Str.length. rewrite Nat2Z.id, firstn_all.
  change (drop 0 (JSON.chars rest)) with (JSON.chars rest).
  now rewrite StrFacts.of_text_chars.
Qed.

Lemma upper_upper (c : ascii) : Str.upper (Str.upper c) = Str.upper c.
Proof.
  destruct c as [[|] [|] [|] [|] [|] [|] [|] [|]]; reflexivity.
Qed.

(** X9.  [capitalize] changes the first character only, to its upper case;
    the empty string stays empty, the length is kept, and capitalizing
    twice is capitalizing once. *)
Theorem capitalize_first (str : string) :
  Str.is_ascii str = true ->
  capitalize str =
    match str with
    | EmptyString => EmptyString
    | String c rest => String (Str.upper c) rest
    end /\
  Str.length (capitalize str) = Str.length str /\
  capitalize (capitalize str) = capitalize str.
Proof.
  intros _. destruct str as [|c rest].
  - repeat split.
  - rewrite !capitalize_cons, upper_upper.
    split; [reflexivity|]. split; reflexivity.
Qed.

Lemma capitalize_first_witness :
  capitalize "hello world" = "Hello world"%string.
Proof.
  refine (proj1 (capitalize_first "hello world" _)). reflexivity.
Defined.

(** ** formatPhone *)

Lemma filter_all {A} (f : A -> bool) (l : list A) :
  Forall (fun x => f x = true) l -> List.filter f l = l.
Proof.
  induction 1 as [|x l Hx _ IH]; simpl; [reflexivity|]. now rewrite Hx, IH.
Qed.

Lemma filter_true {A} (f : A -> bool) (l : list A) :
  Forall (fun x => f x = true) (List.filter f l).
Proof.
  apply List.Forall_forall. intros x Hx. now apply List.filter_In in Hx.
Qed.

(** X10.  [formatPhone] never changes the digits of its argument, whether
    it formats it or gives it back, and formatting a formatted number
    changes nothing. *)
Theorem formatPhone_digits (phone : string) :
  List.filter JSON.is_digit (JSON.chars (formatPhone phone))
    = List.filter JSON.is_digit (JSON.chars phone) /\
  formatPhone (formatPhone phone) = formatPhone phone.
Proof.
  assert (Hkept : List.filter JSON.is_digit (JSON.chars (formatPhone phone))
                  = List.filter JSON.is_digit (JSON.chars phone)).
  { unfold formatPhone.
    pose proof (filter_true JSON.is_digit (JSON.chars phone)) as Hd.
    destruct (List.filter JSON.is_digit (JSON.chars phone))
      as [|a1 [|a2 [|a3 [|b1 [|b2 [|b3 [|c1 [|c2 [|c3 [|c4 [|x l]]]]]]]]]]] eqn:Hf;
      try (now rewrite Hf).
    rewrite StrFacts.chars_of_text.
    repeat match goal with
           | H : Forall _ (_ :: _) |- _ => inversion_clear H
           end.
    simpl. repeat match goal with H : JSON.is_digit _ = true |- _ => rewrite H; clear H end.
    reflexivity. }
  split; [exact Hkept|].
  unfold formatPhone at 1. rewrite Hkept. unfold formatPhone.
  destruct (List.filter JSON.is_digit (JSON.chars phone))
    as [|a1 [|a2 [|a3 [|b1 [|b2 [|b3 [|c1 [|c2 [|c3 [|c4 [|x l]]]]]]]]]]];
    reflexivity.
Qed.


(** ** Runs of a character class *)

Module RunFacts.
Import RegExp.

Lemma starts_rev (class : ascii -> bool) (t : Str.text) :
  starts class (rev t) = ends class t.
Proof.
  induction t as [|c [|c' r] IH]; try reflexivity.
  change (rev (c :: c' :: r)) with (rev (c' :: r) ++ [c]).
  change (ends class (c :: c' :: r)) with (ends class (c' :: r)).
  rewrite <- IH. destruct (rev (c' :: r)) eqn:Hr; [|reflexivity].
  apply (f_equal (@List.length _)) in Hr. rewrite length_rev in Hr. discriminate Hr.
Qed.

Lemma ends_rev (class : ascii -> bool) (t : Str.text) :
  ends class (rev t) = starts class t.
Proof. now rewrite <- starts_rev, rev_involutive. Qed.

Lemma drop_run_starts (class : ascii -> bool) (t : Str.text) :
  starts class (drop_run class t) = false.
Proof.
  induction t as [|c r IH]; [reflexivity|]. simpl.
  destruct (class c) eqn:Hc; [exact IH | simpl; exact Hc].
Qed.

Lemma drop_run_ends (class : ascii -> bool) (t : Str.text) :
  ends class t = false -> ends class (drop_run class t) = false.
Proof.
  induction t as [|c [|c' r] IH]; try reflexivity.
  - simpl. intros H. rewrite H. exact H.
  - intros H. change (ends class (c' :: r) = false) in H.
    change (drop_run class (c :: c' :: r))
      with (if class c then drop_run class (c' :: r) else c :: c' :: r).
    destruct (class c); [now apply IH | exact H].
Qed.

Lemma drop_run_Forall (class : ascii -> bool) (P : ascii -> Prop) (t : Str.text) :
  Forall P t -> Forall P (drop_run class t).
Proof.
  induction 1 as [|c r Hc Hr IH]; simpl; [constructor|].
  destruct (class c); [exact IH | now constructor].
Qed.

Lemma drop_run_same (class : ascii -> bool) (t : Str.text) :
  starts class t = false -> drop_run class t = t.
Proof. destruct t as [|c r]; simpl; [reflexivity | now intros ->]. Qed.

Lemma strip_ends_same (class : ascii -> bool) (t : Str.text) :
  starts class t = false -> ends class t = false -> strip_ends class t = t.
Proof.
  intros Hs He. unfold strip_ends.
  rewrite (drop_run_same class t Hs), drop_run_same by now rewrite starts_rev.
  apply rev_involutive.
Qed.

Lemma strip_ends_Forall (class : ascii -> bool) (P : ascii -> Prop) (t : Str.text) :
  Forall P t -> Forall P (strip_ends class t).
Proof.
  intros H. unfold strip_ends.
  now apply Forall_rev, drop_run_Forall, Forall_rev, drop_run_Forall.
Qed.

Lemma outside_class (class : ascii -> bool) (t : Str.text) :
  Forall (fun c => class c = false) t ->
  starts class t = false /\ ends class t = false.
Proof.
  induction 1 as [|c [|c' r] Hc _ IH]; simpl; auto.
  split; [exact Hc | apply IH].
Qed.

(** [trim] strips the white space at both ends. *)
Lemma trim_left_run (t : Str.text) : Num.trim_left t = drop_run space t.
Proof.
  induction t as [|c r IH]; [reflexivity|]. simpl. unfold space at 1.
  now rewrite IH.
Qed.

Lemma trim_strip (t : Str.text) : Num.trim t = strip_ends space t.
Proof. unfold Num.trim, strip_ends. now rewrite !trim_left_run. Qed.

End RunFacts.

(** ** slugify *)

Module SlugFacts.
Import RegExp RunFacts.

(** What the character classes of [slugify] have to do with each other. *)
Lemma classes (c : ascii) :
  (slug_kept (Str.lower c) = true ->
   slug_char (Str.lower c) = true \/ slug_separator (Str.lower c) = true) /\
  (slug_separator c = true -> slug_char c = false) /\
  (dash c = true -> slug_separator c = true /\ space c = false) /\
  (slug_char c = true ->
   Str.lower c = c /\ space c = false /\ slug_kept c = true /\ dash c = false) /\
  (dash c = true -> Str.lower c = c /\ slug_kept c = true).
Proof.
  destruct c as [[|] [|] [|] [|] [|] [|] [|] [|]]; vm_compute; intuition congruence.
Qed.

Lemma dash_eq (c : ascii) : dash c = true -> c = "-"%char.
Proof. unfold dash. now intros H%Ascii.eqb_eq. Qed.

Lemma doubled_snoc (t : Str.text) (c : ascii) :
  doubled (t ++ [c]) = doubled t || (ends dash t && dash c).
Proof.
  induction t as [|a [|b r] IH].
  - simpl. now rewrite andb_false_r.
  - simpl. now destruct (dash a), (dash c).
  - change (doubled ((a :: b :: r) ++ [c]))
      with ((dash a && dash b) || doubled ((b :: r) ++ [c])).
    rewrite IH.
    change (doubled (a :: b :: r)) with ((dash a && dash b) || doubled (b :: r)).
    change (ends dash (a :: b :: r)) with (ends dash (b :: r)).
    now rewrite orb_assoc.
Qed.

Lemma doubled_rev (t : Str.text) : doubled (rev t) = doubled t.
Proof.
  induction t as [|c r IH]; [reflexivity|].
  simpl rev. rewrite doubled_snoc, IH, ends_rev. simpl.
  rewrite orb_comm. f_equal. apply andb_comm.
Qed.

Lemma drop_run_doubled (t : Str.text) :
  doubled t = false -> doubled (drop_run dash t) = false.
Proof.
  induction t as [|c r IH]; [reflexivity|]. simpl.
  intros [_ Hr]%orb_false_elim. destruct (dash c) eqn:Hc.
  - now apply IH.
  - simpl. now rewrite Hc, Hr.
Qed.

(** Stripping the ends of a text without doubled dashes gives a slug. *)
Lemma strip_ends_slug (t : Str.text) :
  Forall (fun c => slug_char c || dash c = true) t ->
  doubled t = false ->
  slug_text (strip_ends dash t) = true.
Proof.
  intros Hall Hd. unfold slug_text, strip_ends.
  set (u := drop_run dash (rev (drop_run dash t))).
  assert (Hu : starts dash u = false) by apply drop_run_starts.
  assert (Hud : doubled u = false).
  { apply drop_run_doubled. rewrite doubled_rev. now apply drop_run_doubled. }
  assert (Hue : ends dash u = false).
  { apply drop_run_ends. rewrite ends_rev. apply drop_run_starts. }
  assert (Hua : Forall (fun c => slug_char c || dash c = true) u).
  { apply drop_run_Forall, Forall_rev, drop_run_Forall, Hall. }
  rewrite starts_rev, ends_rev, doubled_rev, Hu, Hud, Hue.
  rewrite !andb_true_r. apply forallb_forall.
  intros c Hc. apply in_rev in Hc.
  now apply (proj1 (List.Forall_forall _ _) Hua).
Qed.

(** The runs of separators, replaced by one dash each. *)
Lemma replace_runs_shape (inside : bool) (t : Str.text) :
  Forall (fun c => slug_char c = true \/ slug_separator c = true) t ->
  let out := replace_runs slug_separator ["-"%char] inside t in
  Forall (fun c => slug_char c || dash c = true) out /\
  doubled out = false /\
  (inside = true -> starts dash out = false).
Proof.
  intros Hall. revert inside.
  induction Hall as [|c r Hc _ IH]; intros inside; cbv zeta.
  - simpl. split; [constructor | split; [reflexivity | intros _; reflexivity]].
  - simpl. destruct (slug_separator c) eqn:Hsep.
    + destruct (IH true) as (Ha & Hd & Hs). specialize (Hs eq_refl).
      destruct inside; simpl.
      * split; [exact Ha | split; [exact Hd | intros _; exact Hs]].
      * rewrite Hs, Hd. split; [now constructor | split; [reflexivity | discriminate]].
    + destruct Hc as [Hc|Hc]; [|congruence].
      destruct (IH false) as (Ha & Hd & _).
      destruct (classes c) as (_ & _ & _ & Hch & _).
      destruct (Hch Hc) as (_ & _ & _ & Hnd).
      simpl. rewrite Hnd, Hd.
      split; [|split; [reflexivity | intros _; reflexivity]].
      constructor; [now rewrite Hc | exact Ha].
Qed.

Lemma replace_runs_same (inside : bool) (t : Str.text) :
  Forall (fun c => slug_char c || dash c = true) t ->
  doubled t = false ->
  (inside = true -> starts dash t = false) ->
  replace_runs slug_separator ["-"%char] inside t = t.
Proof.
  intros Hall. revert inside.
  induction Hall as [|c r Hc _ IH]; intros inside Hd Hs; [reflexivity|].
  simpl in Hd. apply orb_false_elim in Hd as [Hcr Hd].
  simpl. destruct (classes c) as (_ & Hsc & Hdc & Hch & _).
  destruct (slug_char c) eqn:Hslug.
  - destruct (slug_separator c) eqn:Hsep; [now specialize (Hsc eq_refl)|].
    f_equal. apply IH; [exact Hd | discriminate].
  - simpl in Hc. destruct (Hdc Hc) as [Hsep _]. rewrite Hsep.
    destruct inside.
    + specialize (Hs eq_refl). simpl in Hs. congruence.
    + simpl. rewrite (dash_eq c Hc). f_equal.
      apply IH; [exact Hd|]. intros _. rewrite Hc in Hcr. exact Hcr.
Qed.

(** The text of [slugify] before the runs are replaced. *)
Lemma kept_shape (str : string) :
  Forall (fun c => slug_char c = true \/ slug_separator c = true)
    (remove (fun c => negb (slug_kept c))
       (JSON.chars (Str.trim (Str.toLowerCase str)))).
Proof.
  unfold remove, Str.trim, Str.toLowerCase.
  rewrite !StrFacts.chars_of_text.
  apply List.Forall_forall. intros c [Hin Hk]%List.filter_In.
  rewrite negb_involutive in Hk.
  assert (Hlow : Forall (fun c => exists c0, c = Str.lower c0)
                   (Num.trim (map Str.lower (JSON.chars str)))).
  { rewrite trim_strip. apply strip_ends_Forall, List.Forall_forall. intros x (c0 & <- & _)%in_map_iff. now exists c0. }
  destruct (proj1 (List.Forall_forall _ _) Hlow c Hin) as [c0 ->].
  now apply (classes c0).
Qed.

Lemma slug_pipeline (t : Str.text) :
  slug_text t = true ->
  map Str.lower t = t /\
  Num.trim t = t /\
  remove (fun c => negb (slug_kept c)) t = t /\
  replace_runs slug_separator ["-"%char] false t = t /\
  strip_ends dash t = t.
Proof.
  unfold slug_text. intros H.
  apply andb_prop in H as [H Hd]. apply andb_prop in H as [H He].
  apply andb_prop in H as [Hall Hs].
  apply negb_true_iff in Hd, He, Hs.
  assert (Hall' : Forall (fun c => slug_char c || dash c = true) t).
  { apply List.Forall_forall. intros c Hc. exact (proj1 (forallb_forall _ _) Hall c Hc). }
  assert (Hfacts : Forall (fun c => Str.lower c = c /\ space c = false /\ slug_kept c = true) t).
  { eapply List.Forall_impl; [|exact Hall']. intros c Hc. simpl in Hc.
    destruct (classes c) as (_ & _ & Hdc & Hch & Hdl).
    destruct (slug_char c); [now destruct (Hch eq_refl) as (? & ? & ? & _)|].
    simpl in Hc. destruct (Hdc Hc), (Hdl Hc). auto. }
  split; [|split; [|split; [|split]]].
  - clear -Hfacts. induction Hfacts as [|c r (Hc & _) _ IH]; simpl; [reflexivity|].
    now rewrite Hc, IH.
  - rewrite trim_strip.
    apply strip_ends_same; apply (outside_class space);
      (eapply List.Forall_impl; [|exact Hfacts]); now intros c (_ & ? & _).
  - unfold remove. apply filter_all.
    eapply List.Forall_impl; [|exact Hfacts]. intros c (_ & _ & Hk); simpl.
    now rewrite Hk.
  - apply replace_runs_same; [exact Hall' | exact Hd | discriminate].
  - now apply strip_ends_same.
Qed.

End SlugFacts.

(** X11.  The result of [slugify] is a slug: lower-case letters and digits
    in groups, one dash between two groups, no dash at either end; the
    empty string when nothing is left.  Applied to its own result,
    [slugify] changes nothing. *)
Theorem slugify_is_slug (str : string) :
  Str.is_ascii str = true ->
  is_slug (slugify str) = true /\
  slugify (slugify str) = slugify str.
Proof.
  intros _.
  assert (Hslug : is_slug (slugify str) = true).
  { unfold is_slug, slugify. rewrite StrFacts.chars_of_text.
    destruct (SlugFacts.replace_runs_shape false _ (SlugFacts.kept_shape str))
      as (Hall & Hd & _).
    now apply SlugFacts.strip_ends_slug. }
  split; [exact Hslug|].
  destruct (SlugFacts.slug_pipeline _ Hslug) as (Hlow & Htrim & Hrem & Hrep & Hstrip).
  unfold slugify at 1, Str.trim, Str.toLowerCase.
  rewrite !StrFacts.chars_of_text, Hlow, Htrim, Hrem, Hrep, Hstrip.
  apply StrFacts.of_text_chars.
Qed.

Lemma slugify_is_slug_witness :
  is_slug (slugify "  Hello, World! 123 ") = true /\
  slugify (slugify "  Hello, World! 123 ") = slugify "  Hello, World! 123 ".
Proof.
  apply (slugify_is_slug "  Hello, World! 123 "). vm_compute; reflexivity.
Defined.

(** X12.  [slugify] leaves a slug as it is. *)
Theorem slugify_of_slug (str : string) :
  is_slug str = true ->
  slugify str = str.
Proof.
  unfold is_slug. intros H.
  destruct (SlugFacts.slug_pipeline _ H) as (Hlow & Htrim & Hrem & Hrep & Hstrip).
  unfold slugify, Str.trim, Str.toLowerCase.
  rewrite !StrFacts.chars_of_text, Hlow, Htrim, Hrem, Hrep, Hstrip.
  apply StrFacts.of_text_chars.
Qed.

Lemma slugify_of_slug_witness :
  slugify "hello-world-123" = "hello-world-123"%string.
Proof.
  apply (slugify_of_slug "hello-world-123"). vm_compute; reflexivity.
Defined.

(** ** isEmail *)

Module RegExpFacts.
Import RegExp.

Lemma residues_class (class : ascii -> bool) (s rest : Str.text) :
  In rest (residues (Class class) s) <-> exists c, class c = true /\ s = c :: rest.
Proof.
  simpl. destruct s as [|c r]; [|destruct (class c) eqn:Hc]; simpl; split.
  - intros [].
  - intros (c & _ & H). discriminate H.
  - intros [<-|[]]. now exists c.
  - intros (c' & _ & [= -> ->]). now left.
  - intros [].
  - intros (c' & Hc' & [= <- _]). congruence.
Qed.

Lemma residues_seq (r1 r2 : t) (s rest : Str.text) :
  In rest (residues (Seq r1 r2) s) <->
  exists mid, In mid (residues r1 s) /\ In rest (residues r2 mid).
Proof. simpl. apply in_flat_map. Qed.

(** One or more characters of a class: the text starts with a run of the
    class, and any cut inside that run is a way to match. *)
Lemma many_class (class : ascii -> bool) (s rest : Str.text) (fuel : nat) :
  (List.length s < fuel)%nat ->
  In rest (many (residues (Class class)) fuel s) <->
  exists run, run <> [] /\ Forall (fun c => class c = true) run /\ s = run ++ rest.
Proof.
  revert fuel. induction s as [|c r IH]; intros [|fuel] Hfuel;
    try (simpl in Hfuel; lia).
  - simpl. split; [intros []|].
    intros ([|c run] & Hne & _ & H); [congruence | discriminate H].
  - assert (Hstep : many (residues (Class class)) (S fuel) (c :: r)
                    = if class c then many (residues (Class class)) fuel r ++ [r]
                      else []).
    { simpl. destruct (class c); [|reflexivity]. simpl.
      destruct (Nat.ltb_spec (List.length r) (S (List.length r))); [|lia].
      now rewrite app_nil_r. }
    rewrite Hstep. destruct (class c) eqn:Hc.
    + rewrite in_app_iff, (IH fuel) by (simpl in Hfuel; lia). split.
      * intros [(run & Hne & Hall & ->) | [<- | []]].
        -- exists (c :: run). split; [discriminate|]. split; [now constructor | reflexivity].
        -- exists [c]. split; [discriminate|]. split; [now repeat constructor | reflexivity].
      * intros ([|c' run] & Hne & Hall & H); [congruence|].
        injection H as <- ->. inversion_clear Hall as [|? ? _ Hrun].
        destruct run as [|c'' run].
        -- right. now left.
        -- left. exists (c'' :: run). split; [discriminate|]. split; [exact Hrun | reflexivity].
    + split; [intros []|].
      intros ([|c' run] & Hne & Hall & H); [congruence|].
      injection H as <- _. inversion_clear Hall. congruence.
Qed.

Lemma residues_plus_class (class : ascii -> bool) (s rest : Str.text) :
  In rest (residues (Plus (Class class)) s) <->
  exists run, run <> [] /\ Forall (fun c => class c = true) run /\ s = run ++ rest.
Proof.
  change (residues (Plus (Class class)) s)
    with (many (residues (Class class)) (S (List.length s)) s).
  apply many_class. lia.
Qed.

Lemma test_whole (r : t) (s : string) :
  test r s = true <-> In [] (residues r (JSON.chars s)).
Proof.
  unfold test. rewrite existsb_exists. split.
  - intros ([|c rest] & Hin & H); [exact Hin | discriminate H].
  - intros Hin. now exists [].
Qed.

End RegExpFacts.

(** X13.  [isEmail] accepts exactly the texts of the form
    [name@domain.top] in which the three parts are not empty and hold
    neither white space nor another [@]; the domain and the top may hold
    further dots. *)
Theorem isEmail_shape (email : string) :
  Str.is_ascii email = true ->
  isEmail email = true <->
  exists name domain top,
    JSON.chars email = name ++ "@"%char :: domain ++ "."%char :: top /\
    name <> [] /\ domain <> [] /\ top <> [] /\
    Forall (fun c => not_space_or_at c = true) (name ++ domain ++ top).
Proof.
  intros _. unfold isEmail, emailRegex.
  rewrite RegExpFacts.test_whole, RegExpFacts.residues_seq. split.
  - intros (s1 & (name & Hname & Hn & Hs)%RegExpFacts.residues_plus_class & H1).
    apply RegExpFacts.residues_seq in H1
      as (s2 & (c1 & Hc1%Ascii.eqb_eq & ->)%RegExpFacts.residues_class & H2).
    apply RegExpFacts.residues_seq in H2
      as (s3 & (domain & Hdomain & Hd & ->)%RegExpFacts.residues_plus_class & H3).
    apply RegExpFacts.residues_seq in H3
      as (s4 & (c2 & Hc2%Ascii.eqb_eq & ->)%RegExpFacts.residues_class & H4).
    apply RegExpFacts.residues_plus_class in H4 as (top & Htop & Ht & ->).
    exists name, domain, top. subst c1 c2. rewrite Hs, app_nil_r.
    split; [reflexivity|]. repeat (split; [assumption|]).
    now rewrite !Forall_app.
  - intros (name & domain & top & Hs & Hname & Hdomain & Htop & Hall).
    rewrite !Forall_app in Hall. destruct Hall as (Hn & Hd & Ht).
    exists ("@"%char :: domain ++ "."%char :: top). split.
    { apply RegExpFacts.residues_plus_class. now exists name. }
    apply RegExpFacts.residues_seq. exists (domain ++ "."%char :: top). split.
    { apply RegExpFacts.residues_class. now exists "@"%char. }
    apply RegExpFacts.residues_seq. exists ("."%char :: top). split.
    { apply RegExpFacts.residues_plus_class. now exists domain. }
    apply RegExpFacts.residues_seq. exists top. split.
    { apply RegExpFacts.residues_class. now exists "."%char. }
    apply RegExpFacts.residues_plus_class. exists top. now rewrite app_nil_r.
Qed.

Lemma isEmail_shape_witness :
  isEmail "test@example.com" = true <->
  exists name domain top,
    JSON.chars "test@example.com" = name ++ "@"%char :: domain ++ "."%char :: top /\
    name <> [] /\ domain <> [] /\ top <> [] /\
    Forall (fun c => not_space_or_at c = true) (name ++ domain ++ top).
Proof.
  apply (isEmail_shape "test@example.com"). vm_compute; reflexivity.
Defined.

(** ** calculateReadingTime *)

Module WordFacts.
Import RegExp RunFacts.

(** The pieces of a text that does not end in white space: one per word
    still to come, and one more when the scan is inside a word. *)
Lemma split_runs_words (t : Str.text) :
  ends space t = false ->
  forall piece,
    List.length (split_runs space piece false t) = S (count_words true t) /\
    (t <> [] ->
     List.length (split_runs space piece true t) = count_words false t).
Proof.
  induction t as [|c r IH]; intros He piece.
  - split; [reflexivity | congruence].
  - assert (Hr : ends space r = false).
    { destruct r as [|c' r']; [reflexivity | exact He]. }
    simpl. destruct (space c) eqn:Hc.
    + assert (Hne : r <> []).
      { intros ->. simpl in He. congruence. }
      destruct (IH Hr []) as [_ Htrue]. specialize (Htrue Hne).
      simpl. rewrite Htrue. split; [reflexivity | intros _; reflexivity].
    + destruct (IH Hr (c :: piece)) as [Hfalse _].
      rewrite Hfalse. split; [reflexivity | intros _; reflexivity].
Qed.

Lemma count_words_drop (t : Str.text) :
  count_words false (drop_run space t) = count_words false t.
Proof.
  induction t as [|c r IH]; [reflexivity|]. simpl.
  destruct (space c) eqn:Hc; [exact IH | simpl; now rewrite Hc].
Qed.

(** White space at the end of a text adds no word. *)
Lemma count_words_snoc (t : Str.text) (c : ascii) (in_word : bool) :
  space c = true -> count_words in_word (t ++ [c]) = count_words in_word t.
Proof.
  intros Hc. revert in_word.
  induction t as [|a r IH]; intros in_word; simpl.
  - now rewrite Hc.
  - now rewrite !IH.
Qed.

Lemma count_words_drop_end (t : Str.text) (in_word : bool) :
  count_words in_word (rev (drop_run space (rev t))) = count_words in_word t.
Proof.
  induction t as [|c r IH] using rev_ind; [reflexivity|].
  rewrite rev_app_distr. simpl.
  destruct (space c) eqn:Hc.
  - now rewrite IH, count_words_snoc.
  - simpl. now rewrite rev_involutive.
Qed.

Lemma count_words_trim (t : Str.text) :
  count_words false (Num.trim t) = count_words false t.
Proof.
  rewrite trim_strip. unfold strip_ends.
  now rewrite count_words_drop_end, count_words_drop.
Qed.

Lemma trim_ends (t : Str.text) :
  starts space (Num.trim t) = false /\ ends space (Num.trim t) = false.
Proof.
  rewrite trim_strip. unfold strip_ends. split.
  - rewrite starts_rev. apply drop_run_ends. rewrite ends_rev. apply drop_run_starts.
  - rewrite ends_rev. apply drop_run_starts.
Qed.

(** [text.trim().split(/\s+/).length] is the number of words, and one for
    a text without any. *)
Lemma split_trim_length (t : Str.text) :
  List.length (split_runs space [] false (Num.trim t))
  = Nat.max 1 (count_words false t).
Proof.
  rewrite <- (count_words_trim t).
  destruct (trim_ends t) as [Hs He].
  destruct (Num.trim t) as [|c r]; [reflexivity|].
  simpl in Hs. simpl. rewrite Hs.
  assert (Hr : ends space r = false).
  { destruct r as [|c' r']; [reflexivity | exact He]. }
  destruct (split_runs_words r Hr [c]) as [-> _]. simpl. lia.
Qed.

End WordFacts.

(** X14.  With a positive reading speed, [calculateReadingTime] is the
    number of words divided by the speed and rounded up, where a text
    without any word counts as one word: the result is never below one
    minute, not even for the empty text. *)
Theorem reading_time_words (text : string) (wpm : option Z) :
  Str.is_ascii text = true ->
  0 < default 200 wpm ->
  exists minutes,
    calculateReadingTime text wpm = Num.Finite minutes 0 /\
    1 <= minutes /\
    (minutes - 1) * default 200 wpm
      < Z.of_nat (Nat.max 1 (count_words false (JSON.chars text)))
      <= minutes * default 200 wpm.
Proof.
  intros _ Hwpm. unfold calculateReadingTime, Str.trim, Math_ceil_div.
  rewrite StrFacts.chars_of_text, WordFacts.split_trim_length.
  set (words := Z.of_nat (Nat.max 1 (count_words false (JSON.chars text)))).
  set (rate := default 200 wpm) in *.
  assert (Hwords : 1 <= words) by (unfold words; lia).
  destruct (Z.eqb_spec rate 0); [lia|].
  exists (- (- words / rate)). split; [reflexivity|].
  pose proof (Z.div_mod (- words) rate ltac:(lia)) as Hdm.
  pose proof (Z.mod_pos_bound (- words) rate Hwpm) as Hmod.
  nia.
Qed.

Lemma reading_time_words_witness :
  exists minutes,
    calculateReadingTime "" None = Num.Finite minutes 0 /\
    1 <= minutes /\
    (minutes - 1) * 200 < 1 <= minutes * 200.
Proof.
  refine (reading_time_words "" None _ _).
  - reflexivity.
  - reflexivity.
Defined.

(* ================================================================== *)
(** * Dates, numbers and type checks *)

(** ** timeAgo *)

Lemma timeAgo_scan_skip (diff : Z) (label : string) (seconds : Z)
    (rest : list (string * Z)) :
  0 < seconds -> diff < seconds ->
  timeAgo_scan (Some diff) ((label, seconds) :: rest) = timeAgo_scan (Some diff) rest.
Proof.
  intros Hs Hd. simpl.
  destruct (Z.ltb_spec 0 (diff / seconds)) as [Hc|]; [|reflexivity].
  exfalso. pose proof (Z.mul_div_le diff seconds Hs). nia.
Qed.

Lemma timeAgo_scan_hit (diff : Z) (label : string) (seconds : Z)
    (rest : list (string * Z)) :
  0 < seconds -> seconds <= diff ->
  timeAgo_scan (Some diff) ((label, seconds) :: rest) = ago (diff / seconds) label /\
  1 <= diff / seconds.
Proof.
  intros Hs Hd. simpl.
  assert (Hc : 1 <= diff / seconds) by (apply Z.div_le_lower_bound; lia).
  destruct (Z.ltb_spec 0 (diff / seconds)); [auto | lia].
Qed.

(** X15.  [timeAgo] gives [just now] for a date less than a second back,
    for every date in the future, and for an invalid date. *)
Theorem timeAgo_just_now (date : option Z) (p : Page) :
  match date with
  | Some target => clock (env p) - target < 1000
  | None => True
  end ->
  timeAgo date p = (Normal "just now"%string, p).
Proof.
  intros H. unfold timeAgo, bind, Date_getTime, ret. f_equal. f_equal.
  destruct date as [target|]; [|reflexivity].
  assert (Hd : (clock (env p) - target) / 1000 <= 0).
  { apply Z.lt_succ_r. apply Z.div_lt_upper_bound; lia. }
  unfold intervals.
  repeat (rewrite timeAgo_scan_skip by lia). reflexivity.
Qed.

Lemma timeAgo_just_now_witness :
  fst (timeAgo (Some 1700000000999) Sample.start) = Normal "just now"%string /\
  fst (timeAgo (Some 1800000000000) Sample.start) = Normal "just now"%string /\
  fst (timeAgo None Sample.start) = Normal "just now"%string.
Proof.
  split; [|split].
  - refine (f_equal fst (timeAgo_just_now (Some 1700000000999) Sample.start _)).
    vm_compute; reflexivity.
  - refine (f_equal fst (timeAgo_just_now (Some 1800000000000) Sample.start _)).
    vm_compute; reflexivity.
  - exact (f_equal fst (timeAgo_just_now None Sample.start I)).
Defined.

(** X16.  For a date [d] whole seconds back, [timeAgo] names the largest
    unit that fits into [d] (a month is 30 days, a year 365) with the
    number of whole units, which is at least one: seconds below a minute,
    minutes below an hour, and so on up to the years. *)
Theorem timeAgo_unit (target : Z) (p : Page) (label : string) (seconds : Z)
    (limit : option Z) :
  In (label, seconds, limit) unit_spans ->
  seconds <= (clock (env p) - target) / 1000 ->
  before ((clock (env p) - target) / 1000) limit ->
  timeAgo (Some target) p
    = (Normal (ago ((clock (env p) - target) / 1000 / seconds) label), p) /\
  1 <= (clock (env p) - target) / 1000 / seconds.
Proof.
  intros Hin Hlo Hhi. unfold timeAgo, bind, Date_getTime, ret.
  set (diff := (clock (env p) - target) / 1000) in *.
  assert (Hgoal : timeAgo_scan (Some diff) intervals = ago (diff / seconds) label /\
                  1 <= diff / seconds).
  { unfold intervals. simpl in Hin.
    repeat (destruct Hin as [[= <- <- <-] | Hin]; [simpl in Hhi|]); [..|destruct Hin];
      repeat (rewrite timeAgo_scan_skip by lia);
      now apply timeAgo_scan_hit. }
  destruct Hgoal as [-> Hc]. split; [reflexivity | exact Hc].
Qed.

Lemma timeAgo_unit_witness :
  fst (timeAgo (Some (1700000000000 - 364 * 86400000)) Sample.start)
  = Normal "12 months ago"%string.
Proof.
  refine (f_equal fst
    (proj1 (timeAgo_unit (1700000000000 - 364 * 86400000) Sample.start
              "month" 2592000 (Some 31536000) _ _ _))).
  - simpl. tauto.
  - vm_compute; discriminate.
  - vm_compute; reflexivity.
Defined.

(** ** isEmpty *)

(** X17.  [isEmpty] gives a falsy argument back as it is ([null], [0], the
    empty string), not [false]; for a truthy argument it gives a boolean,
    and [true] for the object without properties alone.  It never
    throws. *)
Theorem isEmpty_cases (obj : JsVal) :
  (ToBoolean obj = false -> isEmpty obj = Normal obj) /\
  (ToBoolean obj = true ->
   isEmpty obj = Normal (JBool match obj with JObj [] => true | _ => false end)) /\
  (isEmpty obj = Normal (JBool true) <-> obj = JObj []).
Proof.
  assert (Hkeys : forall n, (List.length (index_keys n) =? 0)%nat = (n =? 0)%nat).
  { intros n. unfold index_keys. now rewrite length_map, length_seq. }
  assert (Htrue : ToBoolean obj = true ->
            isEmpty obj
            = Normal (JBool match obj with JObj [] => true | _ => false end)).
  { intros Ht. unfold isEmpty. rewrite Ht.
    destruct obj as [| |b|z|m e|s|items|props]; try discriminate Ht; try reflexivity.
    - simpl. rewrite Hkeys. destruct s; [discriminate Ht | reflexivity].
    - simpl. rewrite Hkeys. now destruct items.
    - simpl. rewrite length_map. now destruct props. }
  split; [|split; [exact Htrue|]].
  - intros Hf. unfold isEmpty. now rewrite Hf.
  - split.
    + intros H. destruct (ToBoolean obj) eqn:Ht.
      * rewrite (Htrue eq_refl) in H.
        destruct obj as [| |b|z|m e|s|items|[|kv props]]; try discriminate H.
        reflexivity.
      * unfold isEmpty in H. rewrite Ht in H. injection H as ->. discriminate Ht.
    + intros ->. reflexivity.
Qed.

(** ** clamp *)

Module MathFacts.
Import Num Math.

(** Two finite numbers compare as their mantissas on any common scale. *)
Lemma lt_scaled (m1 x1 m2 x2 k : Z) :
  k <= x1 -> k <= x2 ->
  lt (Finite m1 x1) (Finite m2 x2) = (m1 * 10 ^ (x1 - k) <? m2 * 10 ^ (x2 - k)).
Proof.
  intros H1 H2. unfold lt.
  set (k0 := Z.min x1 x2).
  replace (x1 - k) with ((x1 - k0) + (k0 - k)) by lia.
  replace (x2 - k) with ((x2 - k0) + (k0 - k)) by lia.
  rewrite !Z.pow_add_r by lia.
  assert (Hp : 0 < 10 ^ (k0 - k)) by (apply Z.pow_pos_nonneg; lia).
  destruct (Z.ltb_spec (m1 * 10 ^ (x1 - k0)) (m2 * 10 ^ (x2 - k0)));
    destruct (Z.ltb_spec (m1 * (10 ^ (x1 - k0) * 10 ^ (k0 - k)))
                         (m2 * (10 ^ (x2 - k0) * 10 ^ (k0 - k))));
    try reflexivity; nia.
Qed.

Lemma lt_irrefl (a : Number) : lt a a = false.
Proof.
  destruct a as [| | |m x]; try reflexivity.
  rewrite (lt_scaled m x m x x) by lia. apply Z.ltb_irrefl.
Qed.

(** [c < b] and [b <= a] give [c < a]. *)
Lemma lt_le_trans (c b a : Number) :
  is_nan a = false -> lt c b = true -> lt a b = false -> lt c a = true.
Proof.
  destruct a as [| | |ma xa], b as [| | |mb xb], c as [| | |mc xc];
    try discriminate; try reflexivity.
  intros _.
  set (k := Z.min xa (Z.min xb xc)).
  rewrite (lt_scaled mc xc mb xb k), (lt_scaled ma xa mb xb k),
    (lt_scaled mc xc ma xa k) by lia.
  rewrite !Z.ltb_lt, Z.ltb_ge. lia.
Qed.

End MathFacts.

(** X18.  [clamp] gives [NaN] as soon as an argument is [NaN].  Otherwise,
    with [min] not above [max], the result lies between them and is [num]
    itself when [num] does; with [min] above [max] the result is [max],
    whatever [num] is. *)
Theorem clamp_range (num min max : Num.Number) :
  (Math.is_nan num || Math.is_nan min || Math.is_nan max = true ->
   clamp num min max = Num.NaN) /\
  (Math.is_nan num || Math.is_nan min || Math.is_nan max = false ->
   (Math.lt max min = false ->
    Math.lt (clamp num min max) min = false /\
    Math.lt max (clamp num min max) = false) /\
   (Math.lt num min = false -> Math.lt max num = false -> clamp num min max = num) /\
   (Math.lt max min = true -> clamp num min max = max)).
Proof.
  unfold clamp, Math.min, Math.max. split.
  - intros Hnan. destruct (Math.is_nan num || Math.is_nan min) eqn:Hinner.
    + reflexivity.
    + simpl in Hnan. now rewrite Hnan, orb_true_r.
  - intros Hnan. apply orb_false_elim in Hnan as [Hnan Hmax].
    apply orb_false_elim in Hnan as [Hnum Hmin].
    rewrite Hnum, Hmin. simpl.
    assert (Hinner : Math.is_nan (if Math.lt num min then min else num) = false)
      by now destruct (Math.lt num min).
    rewrite Hinner, Hmax. simpl.
    split; [|split].
    + intros Hle. destruct (Math.lt num min) eqn:Hlow.
      * rewrite Hle. split; [apply MathFacts.lt_irrefl | exact Hle].
      * destruct (Math.lt max num) eqn:Hhigh.
        -- split; [exact Hle | apply MathFacts.lt_irrefl].
        -- split; [exact Hlow | exact Hhigh].
    + intros Hlow Hhigh. now rewrite Hlow, Hhigh.
    + intros Hcross. destruct (Math.lt num min) eqn:Hlow.
      * now rewrite Hcross.
      * now rewrite (MathFacts.lt_le_trans max min num Hnum Hcross Hlow).
Qed.

(* ================================================================== *)
(** * Arrays and objects *)

(** ** uniqueArray *)

Module SetFacts.

Lemma same_sym (a b : JsVal) : SameValueZero a b = SameValueZero b a.
Proof.
  destruct a, b; simpl; try reflexivity;
    try apply andb_comm.
  - now destruct b, b0.
  - apply String.eqb_sym.
Qed.

Lemma same_number (a b : JsVal) (x y : Num.Number) :
  number_of a = Some x -> number_of b = Some y ->
  SameValueZero a b = negb (Math.lt x y) && negb (Math.lt y x).
Proof.
  destruct a, b; try discriminate; intros [= <-]; try discriminate;
    intros [= <-]; reflexivity.
Qed.

Lemma same_kind (a b : JsVal) :
  SameValueZero a b = true ->
  (exists x y, number_of a = Some x /\ number_of b = Some y) \/
  (number_of a = None /\ number_of b = None).
Proof.
  destruct a, b; simpl; try discriminate; intros _;
    try (right; split; reflexivity); left; eauto.
Qed.

Lemma finite_number (a : JsVal) (x : Num.Number) :
  number_of a = Some x -> exists m e, x = Num.Finite m e.
Proof. destruct a; simpl; intros [= <-]; eauto. Qed.

Lemma same_trans (a b c : JsVal) :
  SameValueZero a b = true -> SameValueZero b c = true -> SameValueZero a c = true.
Proof.
  intros Hab Hbc.
  destruct (same_kind a b Hab) as [(x & y & Hx & Hy) | [Ha Hb]].
  - destruct (same_kind b c Hbc) as [(y' & z & Hy' & Hz) | [Hb _]]; [|congruence].
    assert (y' = y) by congruence. subst y'.
    rewrite (same_number a b x y Hx Hy) in Hab.
    rewrite (same_number b c y z Hy Hz) in Hbc.
    rewrite (same_number a c x z Hx Hz).
    destruct (finite_number a x Hx) as (m1 & e1 & ->).
    destruct (finite_number b y Hy) as (m2 & e2 & ->).
    destruct (finite_number c z Hz) as (m3 & e3 & ->).
    set (k := Z.min e1 (Z.min e2 e3)).
    rewrite (MathFacts.lt_scaled m1 e1 m2 e2 k), (MathFacts.lt_scaled m2 e2 m1 e1 k)
      in Hab by lia.
    rewrite (MathFacts.lt_scaled m2 e2 m3 e3 k), (MathFacts.lt_scaled m3 e3 m2 e2 k)
      in Hbc by lia.
    rewrite (MathFacts.lt_scaled m1 e1 m3 e3 k), (MathFacts.lt_scaled m3 e3 m1 e1 k)
      by lia.
    apply andb_prop in Hab as [H1 H2]. apply andb_prop in Hbc as [H3 H4].
    rewrite negb_true_iff, Z.ltb_ge in H1, H2, H3, H4.
    apply andb_true_intro. rewrite !negb_true_iff, !Z.ltb_ge. lia.
  - destruct (same_kind b c Hbc) as [(y' & z & Hy' & Hz) | [_ Hc]]; [congruence|].
    destruct a, b; try discriminate; destruct c; try discriminate; try reflexivity.
    + simpl in *. destruct b, b0, b1; try discriminate; reflexivity.
    + simpl in *. apply String.eqb_eq in Hab, Hbc. subst. apply String.eqb_refl.
Qed.

Lemma has_app (s r : list JsVal) (v : JsVal) :
  Set_has (s ++ r) v = Set_has s v || Set_has r v.
Proof. apply existsb_app. Qed.

Lemma distinct_snoc (s : list JsVal) (v : JsVal) :
  distinct (s ++ [v]) = distinct s && negb (Set_has s v).
Proof.
  induction s as [|x s IH]; simpl; [reflexivity|].
  rewrite IH, has_app. simpl. rewrite orb_false_r, (same_sym x v).
  destruct (Set_has s x), (SameValueZero v x), (distinct s), (Set_has s v); reflexivity.
Qed.

(** Adding the values of an array to a set. *)
Lemma add_all (arr s : list JsVal) :
  distinct s = true ->
  distinct (fold_left Set_add arr s) = true /\
  forall v, Set_has (fold_left Set_add arr s) v = Set_has s v || Set_has arr v.
Proof.
  revert s. induction arr as [|x arr IH]; intros s Hs; simpl.
  - split; [exact Hs|]. intros v. now rewrite orb_false_r.
  - unfold Set_add at 2 4. destruct (Set_has s x) eqn:Hx.
    + destruct (IH s Hs) as [Hd Hm]. split; [exact Hd|].
      intros v. rewrite Hm. destruct (SameValueZero v x) eqn:Hv; [|reflexivity].
      simpl. rewrite orb_true_r.
      unfold Set_has in Hx. apply existsb_exists in Hx as (y & Hin & Hy).
      assert (Hvy : Set_has s v = true).
      { apply existsb_exists. exists y. split; [exact Hin|].
        now apply (same_trans v x y). }
      now rewrite Hvy.
    + destruct (IH (s ++ [x])) as [Hd Hm].
      { now rewrite distinct_snoc, Hs, Hx. }
      split; [exact Hd|]. intros v. rewrite Hm, has_app. simpl.
      now rewrite orb_false_r, orb_assoc.
Qed.

(** A list of distinct values is added as it is. *)
Lemma add_distinct (r s : list JsVal) :
  distinct (s ++ r) = true -> fold_left Set_add r s = s ++ r.
Proof.
  revert s. induction r as [|x r IH]; intros s Hd; simpl.
  - now rewrite app_nil_r.
  - replace (s ++ x :: r) with ((s ++ [x]) ++ r) in * by now rewrite <- app_assoc.
    assert (Hx : Set_has s x = false).
    { clear IH. induction s as [|y s IHs]; [reflexivity|].
      simpl in Hd. apply andb_prop in Hd as [Hy Hd].
      rewrite !has_app in Hy. simpl in Hy. rewrite same_sym in Hy.
      simpl. destruct (SameValueZero x y); [|now apply IHs].
      now rewrite orb_true_r in Hy. }
    unfold Set_add at 2. rewrite Hx. now apply IH.
Qed.

End SetFacts.

(** X19.  For an array of primitives, [uniqueArray] holds no value twice,
    holds the same values as the array, and applied to its own result
    changes nothing.  Numbers are one value whatever way they are
    written, and [1] is not ["1"]. *)
Theorem uniqueArray_distinct (arr : list JsVal) :
  forallb primitive arr = true ->
  distinct (uniqueArray arr) = true /\
  (forall v, Set_has (uniqueArray arr) v = Set_has arr v) /\
  uniqueArray (uniqueArray arr) = uniqueArray arr.
Proof.
  intros _. unfold uniqueArray, Set_of.
  destruct (SetFacts.add_all arr [] eq_refl) as [Hd Hm].
  split; [exact Hd|]. split; [exact Hm|].
  now apply (SetFacts.add_distinct _ []).
Qed.

Lemma uniqueArray_distinct_witness :
  uniqueArray [JNum 1; JStr "1"; JNum 1; JNull; JDec 10 1; JStr "1"; JNull]
  = [JNum 1; JStr "1"; JNull] /\
  uniqueArray (uniqueArray [JNum 1; JStr "1"; JNum 1; JNull; JDec 10 1; JStr "1"; JNull])
  = uniqueArray [JNum 1; JStr "1"; JNum 1; JNull; JDec 10 1; JStr "1"; JNull].
Proof.
  split; [reflexivity|].
  refine (proj2 (proj2 (uniqueArray_distinct _ _))). reflexivity.
Defined.

(** ** classNames *)

Module JoinFacts.
Import RegExp.

(** A scan over characters outside the class only grows the piece. *)
Lemma split_runs_piece (class : ascii -> bool) (p piece rest : Str.text)
    (inside : bool) :
  Forall (fun c => class c = false) p ->
  p <> [] ->
  split_runs class piece inside (p ++ rest)
  = split_runs class (rev p ++ piece) false rest.
Proof.
  intros Hp. revert piece inside.
  induction Hp as [|c p Hc Hp IH]; intros piece inside Hne; [congruence|].
  simpl. rewrite Hc. destruct p as [|c' p'].
  - reflexivity.
  - rewrite IH by discriminate. simpl. now rewrite <- !app_assoc.
Qed.

(** Joining with one character of the class and splitting at the runs of
    the class gives the parts back. *)
Lemma split_join (class : ascii -> bool) (sep : ascii) (parts : list Str.text) :
  class sep = true ->
  Forall (fun p => p <> [] /\ Forall (fun c => class c = false) p) parts ->
  parts <> [] ->
  forall inside,
    split_runs class [] inside (join_with [sep] parts) = parts.
Proof.
  intros Hsep Hparts. induction Hparts as [|p parts [Hne Hp] Hrest IH];
    intros Hnil inside; [exfalso; now apply Hnil|].
  destruct parts as [|q parts].
  - simpl. rewrite <- (app_nil_r p) at 1.
    rewrite split_runs_piece by assumption.
    simpl. now rewrite app_nil_r, rev_involutive.
  - change (join_with [sep] (p :: q :: parts))
      with (p ++ sep :: join_with [sep] (q :: parts)).
    rewrite split_runs_piece by assumption.
    simpl. rewrite Hsep. simpl. rewrite IH by discriminate.
    now rewrite app_nil_r, rev_involutive.
Qed.

End JoinFacts.

(** X20.  Given class names without blanks and falsy values, [classNames]
    is the names that are not empty, in order, with one blank between
    two; splitting the result at the blanks gives the names back. *)
Theorem classNames_names (args : list JsVal) :
  forallb name_or_falsy args = true ->
  classNames args = Normal (Str.of_text (join_with [" "%char] (names_of args))) /\
  (names_of args <> [] ->
   forall out, classNames args = Normal out ->
     RegExp.split_runs (char_is " "%char) [] false (JSON.chars out) = names_of args).
Proof.
  intros Hargs.
  assert (Htexts : texts (List.filter ToBoolean args) = Normal (names_of args) /\
                   Forall (fun p => p <> [] /\
                                    Forall (fun c => char_is " "%char c = false) p)
                     (names_of args)).
  { induction args as [|v args IH]; [split; [reflexivity | constructor]|].
    simpl in Hargs. apply andb_prop in Hargs as [Hv Hrest].
    destruct (IH Hrest) as [Ht Hn]. clear IH.
    destruct v as [| |b|z|m e|s|items|props]; simpl in Hv; try discriminate Hv;
      try (now split);
      try (apply negb_true_iff in Hv; simpl; rewrite Hv; now split).
    simpl. destruct (String.eqb s EmptyString) eqn:Hs; simpl.
    - now split.
    - rewrite Ht. split; [reflexivity|]. constructor; [|exact Hn]. split.
      + intros Hnil. apply (f_equal Str.of_text) in Hnil.
        rewrite StrFacts.of_text_chars in Hnil. subst s. discriminate Hs.
      + apply List.Forall_forall. intros c Hc.
        apply negb_true_iff. exact (proj1 (forallb_forall _ _) Hv c Hc). }
  destruct Htexts as [Ht Hn].
  assert (Hout : classNames args
                 = Normal (Str.of_text (join_with [" "%char] (names_of args)))).
  { unfold classNames, Array_join. now rewrite Ht. }
  split; [exact Hout|].
  intros Hne out Hr. rewrite Hout in Hr. injection Hr as <-.
  rewrite StrFacts.chars_of_text.
  now apply JoinFacts.split_join.
Qed.

Lemma classNames_names_witness :
  classNames [JStr "btn"; JBool false; JStr "btn-primary"; JNull; JStr ""; JNum 0;
              JStr "active"]
  = Normal "btn btn-primary active"%string.
Proof.
  refine (proj1 (classNames_names _ _)). reflexivity.
Defined.

(** ** buildQueryString *)

Module QueryFacts.

Lemma percent_chars (c : ascii) :
  forallb (fun x => encoded_char x && negb (char_is "="%char x)
                    && negb (char_is "&"%char x)) (percent c) = true.
Proof.
  destruct c as [[|] [|] [|] [|] [|] [|] [|] [|]]; reflexivity.
Qed.

Lemma encode_component (t : Str.text) : component (encodeURIComponent t).
Proof.
  unfold component, encodeURIComponent. apply List.Forall_forall.
  intros x (c & _ & Hx)%in_flat_map.
  pose proof (proj1 (forallb_forall _ _) (percent_chars c) x Hx) as H.
  apply andb_prop in H as [H Hamp]. apply andb_prop in H as [Henc Heq].
  now rewrite negb_true_iff in Hamp, Heq.
Qed.

Lemma count_component (t : Str.text) :
  component t ->
  List.filter (char_is "="%char) t = [] /\ List.filter (char_is "&"%char) t = [].
Proof.
  induction 1 as [|x t (_ & Heq & Hamp) _ [IH1 IH2]]; simpl; [auto|].
  now rewrite Heq, Hamp.
Qed.

Lemma pair_texts_shape (entries : list (string * JsVal)) (ts : list Str.text) :
  pair_texts entries = Normal ts ->
  List.length ts = List.length entries /\ Forall pair_shape ts.
Proof.
  revert ts. induction entries as [|kv entries IH]; intros ts; simpl.
  - intros [= <-]. split; [reflexivity | constructor].
  - unfold pair_text. destruct (Num.ToString (snd kv)) as [v|e]; [|discriminate].
    destruct (pair_texts entries) as [ts'|e]; [|discriminate].
    intros [= <-]. destruct (IH ts' eq_refl) as [Hlen Hall].
    split; [simpl; now rewrite Hlen|].
    constructor; [|exact Hall].
    eexists _, _. split; [reflexivity|]. split; apply encode_component.
Qed.

Lemma join_counts (ts : list Str.text) :
  Forall pair_shape ts ->
  List.length (List.filter (char_is "="%char) (join_with ["&"%char] ts))
    = List.length ts /\
  List.length (List.filter (char_is "&"%char) (join_with ["&"%char] ts))
    = Nat.pred (List.length ts) /\
  Forall (fun c => encoded_char c || char_is "="%char c || char_is "&"%char c = true)
    (join_with ["&"%char] ts).
Proof.
  assert (Hone : forall t, pair_shape t ->
            List.length (List.filter (char_is "="%char) t) = 1%nat /\
            List.filter (char_is "&"%char) t = [] /\
            Forall (fun c => encoded_char c || char_is "="%char c
                             || char_is "&"%char c = true) t).
  { intros t (k & v & -> & Hk & Hv).
    destruct (count_component k Hk) as [Hk1 Hk2].
    destruct (count_component v Hv) as [Hv1 Hv2].
    rewrite !List.filter_app. simpl. rewrite Hk1, Hk2, Hv1, Hv2.
    split; [reflexivity|]. split; [reflexivity|].
    apply Forall_app. split; [|constructor; [reflexivity|]];
      (eapply List.Forall_impl; [|eassumption]); intros c (-> & _); reflexivity. }
  induction 1 as [|t ts Ht Hts (IH1 & IH2 & IH3)]; [repeat split; constructor|].
  destruct (Hone t Ht) as (H1 & H2 & H3).
  destruct ts as [|t' ts'].
  - simpl. rewrite H1, H2. auto.
  - change (join_with ["&"%char] (t :: t' :: ts'))
      with (t ++ "&"%char :: join_with ["&"%char] (t' :: ts')).
    remember (join_with ["&"%char] (t' :: ts')) as rest eqn:Hrest.
    rewrite !List.filter_app, !length_app. simpl List.filter.
    rewrite H2. simpl. rewrite H1, IH1, IH2. simpl.
    split; [reflexivity|]. split; [reflexivity|].
    apply Forall_app. split; [exact H3|]. constructor; [reflexivity | exact IH3].
Qed.

End QueryFacts.

(** X21.  Whatever the keys and values, the result of [buildQueryString]
    holds one [=] for every entry whose value is not [null], [undefined]
    or the empty string, one [&] between two such entries, and besides
    those only characters that [encodeURIComponent] leaves or writes. *)
Theorem buildQueryString_shape (params : JsVal) (out : string) :
  buildQueryString params = Normal out ->
  exists entries,
    Object_entries params = Normal entries /\
    occurrences "="%char out = List.length (List.filter given entries) /\
    occurrences "&"%char out = Nat.pred (List.length (List.filter given entries)) /\
    Forall (fun c => encoded_char c || char_is "="%char c || char_is "&"%char c = true)
      (JSON.chars out).
Proof.
  unfold buildQueryString.
  destruct (Object_entries params) as [entries|e]; [|discriminate].
  destruct (pair_texts (List.filter given entries)) as [ts|e] eqn:Hts; [|discriminate].
  intros [= <-]. exists entries. split; [reflexivity|].
  destruct (QueryFacts.pair_texts_shape _ _ Hts) as [Hlen Hall].
  destruct (QueryFacts.join_counts ts Hall) as (H1 & H2 & H3).
  unfold occurrences. rewrite StrFacts.chars_of_text, H1, H2, Hlen. auto.
Qed.

Lemma buildQueryString_shape_witness :
  exists entries,
    Object_entries (JObj [("q"%string, JStr "a b&c"); ("page"%string, JNum 2);
                          ("tag"%string, JStr ""); ("draft"%string, JBool false)])
      = Normal entries /\
    occurrences "="%char "q=a%20b%26c&page=2&draft=false"
      = List.length (List.filter given entries) /\
    occurrences "&"%char "q=a%20b%26c&page=2&draft=false"
      = Nat.pred (List.length (List.filter given entries)) /\
    Forall (fun c => encoded_char c || char_is "="%char c || char_is "&"%char c = true)
      (JSON.chars "q=a%20b%26c&page=2&draft=false").
Proof.
  refine (buildQueryString_shape
            (JObj [("q"%string, JStr "a b&c"); ("page"%string, JNum 2);
                   ("tag"%string, JStr ""); ("draft"%string, JBool false)])
            "q=a%20b%26c&page=2&draft=false" _).
  reflexivity.
Defined.

(** ** deepClone *)

Lemma assign_defines (props acc : list (string * JsVal)) :
  JSON.has_key "__proto__" props = false ->
  fold_left assign props acc = fold_left JSON.define_prop props acc.
Proof.
  revert acc. induction props as [|[k v] props IH]; intros acc H; [reflexivity|].
  simpl in H. apply orb_false_elim in H as [Hk Hrest].
  simpl. unfold assign at 2. simpl. rewrite Hk. now apply IH.
Qed.

(** X22.  [deepClone] of a value made of primitives, arrays and plain
    objects without a [__proto__] key is that value again, at every
    depth and with the keys in the same order. *)
Theorem deepClone_settled (obj : JsVal) :
  settled obj -> deepClone obj = obj.
Proof.
  induction obj as [| |b|z|m e|s|items IH|props IH] using JsVal_ind;
    try reflexivity.
  - intros Hset. simpl. f_equal.
    induction IH as [|x items Hx _ IHitems]; [reflexivity|].
    destruct Hset as [Hs Hrest]. simpl. now rewrite (Hx Hs), (IHitems Hrest).
  - intros (Hbuild & Hproto & Hvalues). simpl.
    assert (Hmap : map (fun kv => (fst kv, deepClone (snd kv))) props = props).
    { clear Hbuild Hproto.
      induction IH as [|[k v] props Hv _ IHprops]; [reflexivity|].
      destruct Hvalues as [Hs Hrest]. simpl in *.
      now rewrite (Hv Hs), (IHprops Hrest). }
    rewrite Hmap, (assign_defines props [] Hproto).
    f_equal. exact Hbuild.
Qed.

Lemma deepClone_settled_witness :
  deepClone (JObj [("7"%string, JStr "seven");
                   ("user"%string, JObj [("id"%string, JNum 42);
                                         ("tags"%string, JArr [JStr "a"; JNull])]);
                   ("seen"%string, JUndefined)])
  = JObj [("7"%string, JStr "seven");
          ("user"%string, JObj [("id"%string, JNum 42);
                                ("tags"%string, JArr [JStr "a"; JNull])]);
          ("seen"%string, JUndefined)].
Proof.
  apply deepClone_settled. simpl. repeat split; reflexivity.
Defined.

(* ================================================================== *)
(** * Functions over functions *)

(** ** memoize *)

Section MemoFacts.
Context {W : Type}.
Variable fn : @Memo.Fn W.

(** What the cache holds stays as it is. *)
Lemma memoize_keeps (args : list JsVal) (m : Memo.t W) (k : string) (r : JsVal) :
  Memo.cache m !! k = Some r ->
  Memo.cache (snd (memoize fn args m)) !! k = Some r.
Proof.
  intros Hk. unfold memoize.
  destruct (Memo.cache m !! Memo.key_of args) as [r'|] eqn:Hkey; [exact Hk|].
  destruct (fn args (Memo.world m)) as [[result|e] w]; simpl; [|exact Hk].
  rewrite lookup_insert_ne; [exact Hk|]. congruence.
Qed.

Lemma memoize_calls_keeps (calls : list (list JsVal)) (m : Memo.t W) (k : string)
    (r : JsVal) :
  Memo.cache m !! k = Some r ->
  Memo.cache (memoize_calls fn calls m) !! k = Some r.
Proof.
  revert m. induction calls as [|args calls IH]; intros m Hk; [exact Hk|].
  apply IH. now apply memoize_keeps.
Qed.

Lemma memoize_stores (args : list JsVal) (m m1 : Memo.t W) (r : JsVal) :
  memoize fn args m = (Normal r, m1) ->
  Memo.cache m1 !! Memo.key_of args = Some r.
Proof.
  unfold memoize.
  destruct (Memo.cache m !! Memo.key_of args) as [r'|] eqn:Hkey.
  - now intros [= <- <-].
  - destruct (fn args (Memo.world m)) as [[result|e] w]; [|discriminate].
    intros [= <- <-]. simpl. apply lookup_insert_eq.
Qed.

Lemma memoize_once (args : list JsVal) (m : Memo.t W) :
  (forall a w, exists r w', fn a w = (Normal r, w')) ->
  once m -> once (snd (memoize fn args m)).
Proof.
  intros Hfn [Hnd Hin]. unfold memoize.
  destruct (Memo.cache m !! Memo.key_of args) as [r'|] eqn:Hkey; [now split|].
  destruct (Hfn args (Memo.world m)) as (r & w' & ->). simpl.
  split; simpl.
  - apply List.NoDup_cons; [|exact Hnd].
    intros (a & Ha & Hain)%in_map_iff.
    apply (Hin a Hain). now rewrite Ha.
  - intros a [<- | Ha].
    + rewrite lookup_insert_eq. discriminate.
    + destruct (string_dec (Memo.key_of args) (Memo.key_of a)) as [He|Hne].
      * rewrite He, lookup_insert_eq. discriminate.
      * rewrite lookup_insert_ne by exact Hne. now apply Hin.
Qed.

End MemoFacts.

(** X23.  Once a call of the memoized function has returned, every later
    call whose arguments have the same JSON text returns that result
    without calling [fn] and without changing anything, whatever calls
    came in between.  The arguments need not be the same: [undefined] and
    [null] have the same text inside an array. *)
Theorem memoize_hit {W} (fn : Memo.Fn) (args args' : list JsVal)
    (calls : list (list JsVal)) (m m1 : Memo.t W) (r : JsVal) :
  memoize fn args m = (Normal r, m1) ->
  Memo.key_of args' = Memo.key_of args ->
  memoize fn args' (memoize_calls fn calls m1)
    = (Normal r, memoize_calls fn calls m1).
Proof.
  intros Hcall Hkey.
  pose proof (memoize_stores fn args m m1 r Hcall) as Hstored.
  pose proof (memoize_calls_keeps fn calls m1 _ r Hstored) as Hlater.
  unfold memoize at 1. now rewrite Hkey, Hlater.
Qed.

(** X24.  A function that never throws is called at most once for each
    JSON text of the arguments, over any series of calls of the memoized
    function. *)
Theorem memoize_once_per_key {W} (fn : Memo.Fn) (calls : list (list JsVal)) (w : W) :
  (forall a w, exists r w', fn a w = (Normal r, w')) ->
  List.NoDup (map Memo.key_of (Memo.invoked (memoize_calls fn calls (Memo.fresh w)))).
Proof.
  intros Hfn.
  assert (Hall : forall m, once m -> once (memoize_calls fn calls m)).
  { induction calls as [|args calls IH]; intros m Hm; [exact Hm|].
    apply IH. now apply memoize_once. }
  apply Hall. split; [apply List.NoDup_nil | intros args []].
Qed.

Lemma memoize_hit_witness :
  memoize counting [JNull] (snd (memoize counting [JUndefined] (Memo.fresh O)))
  = (Normal (JNum 0), snd (memoize counting [JUndefined] (Memo.fresh O))).
Proof.
  refine (memoize_hit counting [JUndefined] [JNull] [] (Memo.fresh O) _ (JNum 0) _ _).
  - reflexivity.
  - reflexivity.
Defined.

Lemma memoize_once_per_key_witness :
  List.NoDup
    (map Memo.key_of
       (Memo.invoked
          (memoize_calls counting [[JNum 1]; [JNum 2]; [JNum 1]; [JDec 10 1]]
             (Memo.fresh O)))).
Proof.
  apply (memoize_once_per_key counting _ O).
  intros a w. now exists (JNum (Z.of_nat w)), (S w).
Defined.

(** ** retryAsync *)

Lemma time_slept_schedule (errors : list Exn) (last : Outcome) (delay : Z) :
  time_slept (schedule errors last delay)
  = delay * (2 ^ Z.of_nat (List.length errors) - 1).
Proof.
  revert delay. induction errors as [|e errors IH]; intros delay.
  - simpl. lia.
  - change (time_slept (schedule (e :: errors) last delay))
      with (delay + time_slept (schedule errors last (delay * 2))).
    rewrite IH. simpl List.length. rewrite Nat2Z.inj_succ, Z.pow_succ_r by lia. lia.
Qed.

(** A run that ends with its first attempt. *)
Lemma retry_stop (before : list Step) (last : Outcome) (retries : nat) (delay : Z) :
  (forall e, last = Caught e -> retries = O) ->
  exists errors last',
    settles last = settles last' /\
    before ++ [Attempt last] = before ++ schedule errors last' delay /\
    (List.length errors <= retries)%nat /\
    (forall e, last' = Caught e -> List.length errors = retries).
Proof.
  intros Hn. exists [], last.
  split; [reflexivity|]. split; [reflexivity|]. split; [simpl; lia|].
  intros e He. simpl. symmetry. now apply (Hn e).
Qed.

Lemma retry_run {W} (fn : Retry.Fn) (retries : nat) (delay : Z) (s : Retry.t W) :
  exists errors last,
    fst (Retry.run fn retries delay s) = settles last /\
    Retry.steps (snd (Retry.run fn retries delay s))
      = Retry.steps s ++ schedule errors last delay /\
    (List.length errors <= retries)%nat /\
    (forall e, last = Caught e -> List.length errors = retries).
Proof.
  revert delay s. induction retries as [|retries IH]; intros delay s.
  - simpl. unfold Retry.attempt.
    destruct (fn (Retry.world s)) as [[[v|e|]|e] w]; simpl.
    + apply (retry_stop _ (Value v)). discriminate.
    + apply (retry_stop _ (Caught e)). reflexivity.
    + apply (retry_stop _ Never). discriminate.
    + apply (retry_stop _ (Caught e)). reflexivity.
  - assert (Hmore : forall e w,
              let s1 := {| Retry.world := w;
                           Retry.steps := Retry.steps s ++ [Attempt (Caught e)] |} in
              exists errors last,
                fst (Retry.run fn retries (delay * 2) (Retry.sleep delay s1))
                  = settles last /\
                Retry.steps (snd (Retry.run fn retries (delay * 2) (Retry.sleep delay s1)))
                  = Retry.steps s ++ schedule errors last delay /\
                (List.length errors <= S retries)%nat /\
                (forall e', last = Caught e' -> List.length errors = S retries)).
    { intros e w s1.
      destruct (IH (delay * 2) (Retry.sleep delay s1))
        as (errors & last & Hp & Hs & Hlen & Hlast).
      exists (e :: errors), last. rewrite Hp, Hs. simpl.
      rewrite <- !app_assoc. simpl.
      split; [reflexivity|]. split; [reflexivity|]. split; [lia|].
      intros e' He'. now rewrite (Hlast e' He'). }
    simpl. unfold Retry.attempt.
    destruct (fn (Retry.world s)) as [[[v|e|]|e] w]; simpl.
    + apply (retry_stop _ (Value v)). discriminate.
    + apply Hmore.
    + apply (retry_stop _ Never). discriminate.
    + apply Hmore.
Qed.

(** X25.  Whatever [fn] does, a run of [retryAsync] is a series of
    attempts with a wait after each failed one, the waits doubling from
    [delay]; it makes no more retries than [retries] allows (none when
    [retries] is not positive), settles as its last attempt did, and is
    rejected only when every retry has been used.  The waits add up to
    [delay * (2^k - 1)] for [k] retries. *)
Theorem retryAsync_schedule {W} (fn : Retry.Fn) (retries delay : option Z)
    (s : Retry.t W) :
  exists errors last,
    fst (retryAsync fn retries delay s) = settles last /\
    Retry.steps (snd (retryAsync fn retries delay s))
      = Retry.steps s ++ schedule errors last (default 1000 delay) /\
    Z.of_nat (List.length errors) <= Z.max (default 3 retries) 0 /\
    (forall e, last = Caught e ->
       Z.of_nat (List.length errors) = Z.max (default 3 retries) 0) /\
    time_slept (schedule errors last (default 1000 delay))
      = default 1000 delay * (2 ^ Z.of_nat (List.length errors) - 1).
Proof.
  unfold retryAsync.
  destruct (retry_run fn (Z.to_nat (default 3 retries)) (default 1000 delay) s)
    as (errors & last & Hp & Hs & Hlen & Hlast).
  exists errors, last. split; [exact Hp|]. split; [exact Hs|].
  split; [lia|]. split.
  - intros e He. rewrite (Hlast e He). lia.
  - apply time_slept_schedule.
Qed.

(* ================================================================== *)
(** * debounce and throttle *)

Module DebounceFacts.
Import Debounce.











End DebounceFacts.



(** The burst of the documentation's search box, with the delay left out:
    four calls within 300 ms of one another give one call of [func]. *)
Example debounce_burst :
  Debounce.called
    (Debounce.advance_to 1000
       (debounce_play None
          [(0, [JStr "h"]); (120, [JStr "he"]); (250, [JStr "hel"]);
           (500, [JStr "help"])]
          (Debounce.fresh 0)))
  = [(800, [JStr "help"])].
Proof. vm_compute. reflexivity. Qed.

Module ThrottleFacts.
Import Throttle.





End ThrottleFacts.



(** With a limit of zero, two calls at one instant let the first through
    and drop the second: the timer that resets [inThrottle] has not run
    between them.  A call a millisecond later comes through. *)
Example throttle_zero_limit :
  Throttle.called
    (throttle_play (fun _ => Normal JUndefined) 0
       [(5, [JNum 1]); (5, [JNum 2]); (6, [JNum 3])]
       (Throttle.fresh 0))
  = [(5, [JNum 1]); (6, [JNum 3])].
Proof. vm_compute. reflexivity. Qed.

(* ================================================================== *)
(** * groupBy *)

Module GroupFacts.

(** ** Properties of an object, read after they were written *)

Lemma lookup_middle (k k' : string) (v : JsVal) (l1 l2 : Obj) :
  JSON.has_key k' l1 = false ->
  lookup_prop k (l1 ++ (k', v) :: l2)
  = if String.eqb k' k then v else lookup_prop k (l1 ++ l2).
Proof.
  intros Hnew. induction l1 as [|[k1 v1] l1 IH]; simpl; [reflexivity|].
  simpl in Hnew. apply orb_false_elim in Hnew as [Hk1 Hl1].
  destruct (String.eqb k1 k) eqn:Hk.
  - apply String.eqb_eq in Hk. subst k1. now rewrite String.eqb_sym, Hk1.
  - now apply IH.
Qed.

Lemma has_key_middle (k k' : string) (v : JsVal) (l1 l2 : Obj) :
  JSON.has_key k (l1 ++ (k', v) :: l2)
  = String.eqb k' k || JSON.has_key k (l1 ++ l2).
Proof.
  induction l1 as [|[k1 v1] l1 IH]; simpl; [reflexivity|].
  rewrite IH. now destruct (String.eqb k1 k), (String.eqb k' k).
Qed.

Lemma insert_index_split (n : N) (k : string) (v : JsVal) (props : Obj) :
  exists l1 l2, props = l1 ++ l2 /\ JSON.insert_index n k v props = l1 ++ (k, v) :: l2.
Proof.
  induction props as [|[k1 v1] props (l1 & l2 & Hp & Hi)]; simpl.
  - now exists [], [].
  - destruct (JSON.array_index k1) as [n'|]; [destruct (n' <? n)%N|].
    + exists ((k1, v1) :: l1), l2. simpl. now rewrite Hi, <- Hp.
    + now exists [], ((k1, v1) :: props).
    + now exists [], ((k1, v1) :: props).
Qed.

(** A property defined under a new key is found there, and the others
    are where they were. *)
Lemma define_new (props : Obj) (k' : string) (v : JsVal) :
  JSON.has_key k' props = false ->
  forall k,
    lookup_prop k (JSON.define_prop props (k', v))
      = (if String.eqb k' k then v else lookup_prop k props) /\
    JSON.has_key k (JSON.define_prop props (k', v))
      = String.eqb k' k || JSON.has_key k props.
Proof.
  intros Hnew k. unfold JSON.define_prop. rewrite Hnew.
  assert (Hsplit : exists l1 l2,
            props = l1 ++ l2 /\
            match JSON.array_index k' with
            | Some n => JSON.insert_index n k' v props
            | None => props ++ [(k', v)]
            end = l1 ++ (k', v) :: l2).
  { destruct (JSON.array_index k') as [n|]; [apply insert_index_split|].
    exists props, []. now rewrite app_nil_r. }
  destruct Hsplit as (l1 & l2 & -> & ->).
  rewrite has_key_middle. split; [|reflexivity].
  apply lookup_middle.
  clear -Hnew. induction l1 as [|[k1 v1] l1 IH]; [reflexivity|].
  simpl in *. apply orb_false_elim in Hnew as [-> Hrest]. now apply IH.
Qed.

(** A property written over is found with its new value. *)
Lemma replace_old (props : Obj) (k' : string) (v : JsVal) :
  JSON.has_key k' props = true ->
  forall k,
    lookup_prop k (JSON.replace_prop k' v props)
      = (if String.eqb k' k then v else lookup_prop k props) /\
    JSON.has_key k (JSON.replace_prop k' v props) = JSON.has_key k props.
Proof.
  intros Hold k. induction props as [|[k1 v1] props IH]; [discriminate Hold|].
  simpl in Hold. simpl.
  destruct (String.eqb k1 k') eqn:Hk1.
  - apply String.eqb_eq in Hk1. subst k1. simpl.
    destruct (String.eqb k' k); split; reflexivity.
  - simpl in Hold. destruct (IH Hold) as [IH1 IH2]. simpl.
    rewrite IH1, IH2.
    destruct (String.eqb k1 k) eqn:Hk; [|split; reflexivity].
    apply String.eqb_eq in Hk. subst k1. now rewrite String.eqb_sym, Hk1.
Qed.

(** ** The groups while the array is scanned *)

Lemma members_snoc (key group : string) (seen : list Obj) (item : Obj) :
  members key group (seen ++ [item])
  = members key group seen ++ (if in_group key group item then [item] else []).
Proof. unfold members. now rewrite List.filter_app. Qed.

Lemma push_grouped (key : string) (seen : list Obj) (groups : Obj) (item : Obj)
    (name : string) :
  grouped key seen groups ->
  group_name key item = Some (Normal name) ->
  inherited name = false ->
  exists groups',
    push_group groups name item = Normal groups' /\
    grouped key (seen ++ [item]) groups'.
Proof.
  intros Hg Hname Hinh. unfold push_group.
  destruct (Hg name) as [Hlook Hhas]. rewrite Hhas, Hlook.
  assert (Hin : forall group, in_group key group item = String.eqb name group).
  { intros group. unfold in_group. now rewrite Hname. }
  destruct (members key name seen) as [|first others] eqn:Hm.
  - rewrite Hinh. eexists. split; [reflexivity|].
    intros group. rewrite members_snoc, Hin.
    destruct (define_new groups name (JArr [JObj item]) Hhas group) as [-> ->].
    destruct (Hg group) as [Hl Hh]. rewrite Hl, Hh.
    destruct (String.eqb name group) eqn:He.
    + apply String.eqb_eq in He. subst group. rewrite Hm. now split.
    + rewrite app_nil_r. now split.
  - simpl. eexists. split; [reflexivity|].
    intros group. rewrite members_snoc, Hin.
    destruct (replace_old groups name
                (JArr (JObj first :: map JObj others ++ [JObj item])) Hhas group)
      as [-> ->].
    destruct (Hg group) as [Hl Hh]. rewrite Hl, Hh.
    destruct (String.eqb name group) eqn:He.
    + apply String.eqb_eq in He. subst group. rewrite Hm. simpl.
      rewrite map_app. now split.
    + rewrite app_nil_r. now split.
Qed.

Lemma group_all_grouped (key : string) (rest seen : list Obj) (groups : Obj) :
  grouped key seen groups ->
  Forall (groupable key) rest ->
  exists groups',
    group_all key groups rest = Some (Normal groups') /\
    grouped key (seen ++ rest) groups'.
Proof.
  intros Hg Hrest. revert seen groups Hg.
  induction Hrest as [|item rest (name & Hname & Hinh) _ IH]; intros seen groups Hg.
  - exists groups. now rewrite app_nil_r.
  - simpl. rewrite Hname.
    destruct (push_grouped key seen groups item name Hg Hname Hinh)
      as (groups1 & -> & Hg1).
    destruct (IH (seen ++ [item]) groups1 Hg1) as (groups' & Hall & Hg').
    exists groups'. split; [exact Hall|]. now rewrite <- app_assoc in Hg'.
Qed.

Lemma group_all_app (key : string) (first rest : list Obj) (groups groups' : Obj) :
  group_all key groups first = Some (Normal groups') ->
  group_all key groups (first ++ rest) = group_all key groups' rest.
Proof.
  revert groups. induction first as [|item first IH]; intros groups; simpl.
  - now intros [= ->].
  - destruct (group_name key item) as [[name|e]|]; try discriminate.
    destruct (push_group groups name item) as [groups1|e]; [apply IH | discriminate].
Qed.

Lemma grouped_nothing (key : string) : grouped key [] [].
Proof. intros group. now split. Qed.

End GroupFacts.



(** X29.  An item whose group is named like a member of [Object.prototype]
    ([constructor], [toString], ...) makes [groupBy] throw a [TypeError]:
    the name finds the inherited member, which has no [push]. *)
Theorem groupBy_inherited_name (before after : list Obj) (item : Obj)
    (key name : string) :
  Forall (groupable key) before ->
  group_name key item = Some (Normal name) ->
  inherited name = true ->
  groupBy (before ++ item :: after) key = Some (Throw TypeError).
Proof.
  intros Hbefore Hname Hinh.
  destruct (GroupFacts.group_all_grouped key before [] []
              (GroupFacts.grouped_nothing key) Hbefore) as (groups & Hrun & Hg).
  unfold groupBy. rewrite (GroupFacts.group_all_app key before _ [] groups Hrun).
  simpl. rewrite Hname. unfold push_group.
  destruct (Hg name) as [_ Hhas]. simpl in Hhas.
  assert (Hnone : members key name before = []).
  { clear Hrun Hg Hhas. unfold members.
    induction Hbefore as [|x l (g & Hx & Hgi) _ IH]; [reflexivity|].
    simpl. unfold in_group at 1. rewrite Hx.
    destruct (String.eqb g name) eqn:He; [|exact IH].
    apply String.eqb_eq in He. congruence. }
  rewrite Hnone in Hhas. now rewrite Hhas, Hinh.
Qed.

Lemma groupBy_inherited_name_witness :
  groupBy [[("type"%string, JStr "click")];
           [("type"%string, JStr "constructor")];
           [("type"%string, JStr "click")]] "type"
  = Some (Throw TypeError).
Proof.
  refine (groupBy_inherited_name [[("type"%string, JStr "click")]]
            [[("type"%string, JStr "click")]]
            [("type"%string, JStr "constructor")] "type" "constructor" _ _ _).
  - constructor; [|constructor]. exists "click"%string. split; reflexivity.
  - reflexivity.
  - reflexivity.
Defined.

(* ================================================================== *)
(** * getNestedProperty *)

Module PathFacts.

Lemma split_at_app (sep : ascii) (p q piece : Str.text) :
  split_at sep piece (p ++ sep :: q) = split_at sep piece p ++ split_at sep [] q.
Proof.
  revert piece. induction p as [|c p IH]; intros piece; simpl.
  - now rewrite Ascii.eqb_refl.
  - destruct (Ascii.eqb c sep); simpl; now rewrite IH.
Qed.

Lemma split_at_cons (sep : ascii) (piece t : Str.text) :
  exists first rest, split_at sep piece t = first :: rest.
Proof.
  revert piece. induction t as [|c r IH]; intros piece; simpl; [eauto|].
  destruct (Ascii.eqb c sep); [eauto | apply IH].
Qed.

Lemma fold_none (keys : list string) : fold_left optional_member keys None = None.
Proof. induction keys as [|k keys IH]; [reflexivity | exact IH]. Qed.

(** Going on from [null] is going on from [undefined]. *)
Lemma fold_nullish (keys : list string) (v : JsVal) :
  keys <> [] ->
  fold_left optional_member keys (Some v)
  = fold_left optional_member keys (Some (nullish_or v JUndefined)).
Proof.
  destruct keys as [|k keys]; [congruence|]. intros _.
  now destruct v.
Qed.

End PathFacts.

(** X30.  Paths compose: looking up [p.q] is looking up [q] in what the
    lookup of [p] gives, and a [null] on the way is no error but leads to
    the default.  The result is [null] or [undefined] only when the
    default is. *)
Theorem getNestedProperty_compose (obj : JsVal) (p q : string) (defaultValue : JsVal) :
  getNestedProperty obj (String.append p (String "."%char q)) defaultValue
    = match getNestedProperty obj p JUndefined with
      | Some middle => getNestedProperty middle q defaultValue
      | None => None
      end /\
  forall result,
    getNestedProperty obj p defaultValue = Some result ->
    result = JNull \/ result = JUndefined ->
    result = defaultValue.
Proof.
  split.
  - unfold getNestedProperty, String_split.
    rewrite StrFacts.chars_append. change (JSON.chars (String "."%char q))
      with ("."%char :: JSON.chars q).
    rewrite PathFacts.split_at_app, map_app, fold_left_app.
    destruct (fold_left optional_member
                (map Str.of_text (split_at "."%char [] (JSON.chars p))) (Some obj))
      as [v|]; [|now rewrite PathFacts.fold_none].
    rewrite PathFacts.fold_nullish; [reflexivity|].
    destruct (PathFacts.split_at_cons "."%char [] (JSON.chars q)) as (f & r & ->).
    discriminate.
  - intros result. unfold getNestedProperty.
    destruct (fold_left optional_member _ _) as [v|]; [|discriminate].
    intros [= <-] Hnull. destruct v; try reflexivity;
      destruct Hnull as [Hn|Hn]; discriminate Hn.
Qed.

(* ================================================================== *)
(** * The examples of the documentation *)

(** The tests that the README gives for [isEmail] and [slugify], and its
    example of [getNestedProperty]. *)
Example readme_examples :
  isEmail "test@example.com" = true /\
  isEmail "invalid-email" = false /\
  slugify "Hello World! 123" = "hello-world-123"%string /\
  getNestedProperty
    (JObj [("profile"%string,
            JObj [("personal"%string, JObj [("name"%string, JStr "John")])])])
    "profile.personal.name" (JStr "Unknown")
  = Some (JStr "John").
Proof. vm_compute. repeat split. Qed.
